(** * LogAnalyzer: the log analysis pipeline of [script.js]

    A shallow embedding of the analysis core of the [LogAnalyzer] class
    ([parseLogContent] and the methods it calls) together with the
    properties of the pipeline that the design document states.

    Modelling conventions.
    - A JavaScript string is the list of its UTF-16 code units ([jsstring]).
    - The four regular expressions of the source are written in a small
      regular-expression syntax ([atom]) and run by a greedy backtracking
      matcher ([matchSeq]), the way the engine runs them.
    - A [Date] is its time value: an integral number of milliseconds, or
      the invalid date, whose time value is NaN.  [new Date(string)] is
      implementation-defined for the formats the source feeds it, so the
      pipeline takes it as a parameter ([parseDate]).
    - A number is a rational or NaN.  The time value of a valid date is an
      integer of at most 8.64e15 in size, which a double holds exactly.
      The differences, sums and quotients of the detector are taken
      exactly, where the code computes them in binary64.  The two give the
      same records as long as the dates of a group lie less than 2^52 ms
      (some 142 000 years) apart: the differences and their sums are then
      integers below 2^53, and the rounding of a quotient is too small to
      change a comparison or the rounded average.  Every date written with
      a four-digit year is within this range.  For valid dates further
      apart the code rounds where this model does not, and the average
      interval of the code can differ from the one stated here.
    - Code that can throw returns a [completion]. *)

From Stdlib Require Import Ascii String DecimalString.
From Stdlib Require Import List Bool Arith NArith ZArith QArith Qabs Qround Lia.
From Stdlib Require Import Permutation Sorted.
Import ListNotations.

Close Scope Q_scope.
Open Scope nat_scope.
Open Scope list_scope.

(* ================================================================== *)
(** ** Strings *)

(** A UTF-16 code unit. *)
Definition char := N.

Definition jsstring := list char.

(** The string written by an ASCII literal of the source. *)
Definition lit (s : string) : jsstring :=
  map N_of_ascii (list_ascii_of_string s).

(** [a === b] on strings. *)
Fixpoint streq (a b : jsstring) : bool :=
  match a, b with
  | [], [] => true
  | x :: a', y :: b' => N.eqb x y && streq a' b'
  | _, _ => false
  end.

(** [s.startsWith(p)] *)
Fixpoint startsWith (s p : jsstring) : bool :=
  match p, s with
  | [], _ => true
  | x :: p', y :: s' => N.eqb x y && startsWith s' p'
  | _ :: _, [] => false
  end.

Definition LF : char := 10%N.

(** ECMAScript WhiteSpace and LineTerminator code points: the class [\s]
    of regular expressions and the characters [trim] strips. *)
Definition isWhiteSpace (c : char) : bool :=
  ((9 <=? c) && (c <=? 13) || (c =? 32) || (c =? 160) || (c =? 5760)
   || ((8192 <=? c) && (c <=? 8202)) || (c =? 8232) || (c =? 8233)
   || (c =? 8239) || (c =? 8287) || (c =? 12288) || (c =? 65279))%N.

(** The class [\d]. *)
Definition isDigit (c : char) : bool := ((48 <=? c) && (c <=? 57))%N.

Fixpoint dropWhile (p : char -> bool) (s : jsstring) : jsstring :=
  match s with
  | [] => []
  | c :: s' => if p c then dropWhile p s' else s
  end.

(** [s.trim()] *)
Definition trim (s : jsstring) : jsstring :=
  rev (dropWhile isWhiteSpace (rev (dropWhile isWhiteSpace s))).

(** [s.split('\n')]: the pieces of [s] between line feeds; never empty. *)
Fixpoint splitLinesAux (cur : jsstring) (s : jsstring) : list jsstring :=
  match s with
  | [] => [rev cur]
  | c :: s' =>
      if N.eqb c LF then rev cur :: splitLinesAux [] s'
      else splitLinesAux (c :: cur) s'
  end.

Definition splitLines (s : jsstring) : list jsstring := splitLinesAux [] s.

(* ================================================================== *)
(** ** Regular expressions *)

(** One quantified character class: [cls{lo,hi}], greedy; [hi = None] is
    unbounded.  A literal character is a class of one repeated once. *)
Record atom := Rep { cls : char -> bool; lo : nat; hi : option nat }.

Definition one (p : char -> bool) : atom := Rep p 1 (Some 1).
Definition chr (c : char) : atom := one (N.eqb c).
Definition digits (n : nat) : atom := Rep isDigit n (Some n).

Definition hasRoom (h : option nat) : bool :=
  match h with Some O => false | _ => true end.

Definition lessRoom (h : option nat) : option nat :=
  match h with Some n => Some (pred n) | None => None end.

(** The matcher of one atom followed by the continuation [k]: take as many
    characters as allowed first, give them back one at a time while the
    continuation fails.  The result lists the piece each atom consumed. *)
Fixpoint matchRep (p : char -> bool) (k : jsstring -> option (list jsstring))
    (l : nat) (h : option nat) (acc : jsstring) (s : jsstring)
    : option (list jsstring) :=
  let stop :=
    match l with
    | O => option_map (cons (rev acc)) (k s)
    | S _ => None
    end in
  match s with
  | c :: s' =>
      if p c && hasRoom h then
        match matchRep p k (pred l) (lessRoom h) (c :: acc) s' with
        | Some r => Some r
        | None => stop
        end
      else stop
  | [] => stop
  end.

(** A sequence of atoms matched at the start of [s]. *)
Fixpoint matchSeq (r : list atom) (s : jsstring) : option (list jsstring) :=
  match r with
  | [] => Some []
  | a :: r' => matchRep (cls a) (matchSeq r') (lo a) (hi a) [] s
  end.

(** A pattern with one capture group: [pre(grp)post]. *)
Record pattern := Pattern { pre : list atom; grp : list atom; post : list atom }.

Definition atoms (p : pattern) : list atom := pre p ++ grp p ++ post p.

(** [match[1]] of a successful match: what the atoms of the group consumed. *)
Definition capture (p : pattern) (pieces : list jsstring) : jsstring :=
  concat (firstn (length (grp p)) (skipn (length (pre p)) pieces)).

(** The pattern matched at the start of the string only (a leading [^]). *)
Definition matchAnchored (p : pattern) (s : jsstring) : option jsstring :=
  option_map (capture p) (matchSeq (atoms p) s).

(** [s.match(p)] for a pattern without flags: the leftmost match; its
    first group. *)
Fixpoint matchFirst (p : pattern) (s : jsstring) : option jsstring :=
  match matchAnchored p s with
  | Some g => Some g
  | None =>
      match s with
      | [] => None
      | _ :: s' => matchFirst p s'
      end
  end.

(** [s.split(sep)] for a regular expression: RegExp.prototype[@@split].
    [cur] holds (reversed) the characters since the end of the previous
    separator, [skip] the characters of a separator still to pass. *)
Fixpoint splitGo (sep : list atom) (s : jsstring) (skip : nat) (cur : jsstring)
    : list jsstring :=
  match s with
  | [] => [rev cur]
  | c :: s' =>
      match skip with
      | S k => splitGo sep s' k cur
      | O =>
          match option_map (fun ps => length (concat ps)) (matchSeq sep s) with
          | Some (S n) => rev cur :: splitGo sep s' n []
          | Some O =>
              match cur with
              | [] => splitGo sep s' 0 [c]
              | _ :: _ => rev cur :: splitGo sep s' 0 [c]
              end
          | None => splitGo sep s' 0 (c :: cur)
          end
      end
  end.

Definition splitRegex (sep : list atom) (s : jsstring) : list jsstring :=
  match s with
  | [] => match matchSeq sep [] with Some _ => [] | None => [[]] end
  | _ :: _ => splitGo sep s 0 []
  end.

(* ================================================================== *)
(** ** Numbers and dates *)

(** A JavaScript number of this program: a rational, or NaN. *)
Inductive number := Num (q : Q) | NaN.

Definition ofZ (z : Z) : number := Num (inject_Z z).
Definition ofNat (n : nat) : number := ofZ (Z.of_nat n).

(** [a + b], exact.  The sum of line 193 adds doubles: it is this sum as
    long as it stays below 2^53 in size, and rounds above. *)
Definition nadd (a b : number) : number :=
  match a, b with Num x, Num y => Num (x + y) | _, _ => NaN end.

Definition nsub (a b : number) : number :=
  match a, b with Num x, Num y => Num (x - y) | _, _ => NaN end.

(** [a / b], exact.  The divisors of this program are 1000 and array
    lengths above 2; a zero divisor (an infinity or NaN in JavaScript) gives
    NaN.  The quotients of lines 193 and 207 are doubles, rounded in the
    last bit: for a sum of intervals below 2^52 the rounded average
    [Math.round(avgInterval / 1000)] of the two is the same, above it can
    differ by one. *)
Definition ndiv (a b : number) : number :=
  match a, b with
  | Num x, Num y => if Qeq_bool y 0 then NaN else Num (x / y)
  | _, _ => NaN
  end.

(** [Math.abs] *)
Definition Math_abs (a : number) : number :=
  match a with Num x => Num (Qabs x) | NaN => NaN end.

Definition Qltb (x y : Q) : bool := negb (Qle_bool y x).

(** [a < b] and [a > b]: false as soon as one side is NaN. *)
Definition nlt (a b : number) : bool :=
  match a, b with Num x, Num y => Qltb x y | _, _ => false end.

Definition ngt (a b : number) : bool := nlt b a.

(** The value of [Math.round]: an integer or NaN. *)
Inductive rounded := Int (z : Z) | IntNaN.

(** [Math.round]: the nearest integer, halves upwards. *)
Definition Math_round (a : number) : rounded :=
  match a with
  | Num x => Int (Qfloor (x + (1 # 2)))
  | NaN => IntNaN
  end.

Definition numberOf (r : rounded) : number :=
  match r with Int z => ofZ z | IntNaN => NaN end.

(** The string a template literal puts for a rounded number. *)
Definition toString (r : rounded) : jsstring :=
  match r with
  | Int z => lit (NilZero.string_of_int (Z.to_int z))
  | IntNaN => lit "NaN"
  end.

(** A [Date]: its time value in milliseconds, or the invalid date. *)
Inductive date := Time (ms : Z) | InvalidDate.

(** [a - b] on dates: the difference of the time values, exact.  The code
    subtracts doubles: the difference is this one as long as it is below
    2^53 in size, and rounds for valid dates further apart. *)
Definition dateDiff (a b : date) : number :=
  match a, b with
  | Time x, Time y => ofZ (x - y)
  | _, _ => NaN
  end.

(* ================================================================== *)
(** ** Completions *)

Inductive error := TypeError.

(** The outcome of code that can throw. *)
Inductive completion (A : Type) :=
| Return (a : A)
| Throw (e : error).

Arguments Return {A} a.
Arguments Throw {A} e.

Definition bind {A B} (c : completion A) (f : A -> completion B) : completion B :=
  match c with
  | Return a => f a
  | Throw e => Throw e
  end.

Notation "x <- c ;; k" := (bind c (fun x => k))
  (at level 61, c at next level, right associativity).

(** [xs.forEach(x => ...)] threading the state the callback updates. *)
Fixpoint forEach {A S} (f : S -> A -> completion S) (xs : list A) (s : S)
    : completion S :=
  match xs with
  | [] => Return s
  | x :: xs' => s' <- f s x ;; forEach f xs' s'
  end.

(* ================================================================== *)
(** ** Records of the analysis *)

Record IPRecord := {
  ip : jsstring;
  isInternal : bool;
  requests : list jsstring
}.

Record Request := {
  timestamp : date;
  request : jsstring
}.

Record UserRecord := {
  userId : jsstring;
  requestCount : nat;
  isSuspicious : bool;
  reason : jsstring;
  avgInterval : option rounded   (* [None]: the property is absent *)
}.

Record Stats := {
  totalBlocks : nat;
  totalIPs : nat;
  internalIPs : nat;
  externalIPs : nat;
  suspiciousUsers : nat
}.

Record Analysis := {
  ipAnalysis : list IPRecord;
  userAnalysis : list UserRecord;
  isBreach : bool;
  stats : Stats
}.

(** Object literals as the engine sees them: property names in the order
    of the literal. *)
#[local] Unset Elimination Schemes.
Inductive jsvalue :=
| VBoolean (b : bool)
| VNumber (n : number)
| VString (s : jsstring)
| VArray (l : list jsvalue)
| VObject (props : list (string * jsvalue)).
#[local] Set Elimination Schemes.

(** [Object.keys] *)
Definition keys (v : jsvalue) : list string :=
  match v with
  | VObject props => map fst props
  | _ => []
  end.

(** [v[name]] on an object literal. *)
Definition field (name : string) (v : jsvalue) : option jsvalue :=
  match v with
  | VObject props =>
      option_map snd (find (fun kv => String.eqb (fst kv) name) props)
  | _ => None
  end.

(** The literal of lines 107-111. *)
Definition objectOfIP (r : IPRecord) : jsvalue :=
  VObject [("ip"%string, VString (ip r));
           ("isInternal"%string, VBoolean (isInternal r));
           ("requests"%string, VArray (map VString (requests r)))].

(** The literals of lines 172-177, 200-208 and 210-215. *)
Definition objectOfUser (r : UserRecord) : jsvalue :=
  VObject ([("userId"%string, VString (userId r));
            ("requestCount"%string, VNumber (ofNat (requestCount r)));
            ("isSuspicious"%string, VBoolean (isSuspicious r));
            ("reason"%string, VString (reason r))]
           ++ match avgInterval r with
              | Some a => [("avgInterval"%string, VNumber (numberOf a))]
              | None => []
              end).

(** The literal of lines 77-83. *)
Definition objectOfStats (s : Stats) : jsvalue :=
  VObject [("totalBlocks"%string, VNumber (ofNat (totalBlocks s)));
           ("totalIPs"%string, VNumber (ofNat (totalIPs s)));
           ("internalIPs"%string, VNumber (ofNat (internalIPs s)));
           ("externalIPs"%string, VNumber (ofNat (externalIPs s)));
           ("suspiciousUsers"%string, VNumber (ofNat (suspiciousUsers s)))].

(** The literal of lines 73-84. *)
Definition objectOfAnalysis (a : Analysis) : jsvalue :=
  VObject [("ipAnalysis"%string, VArray (map objectOfIP (ipAnalysis a)));
           ("userAnalysis"%string, VArray (map objectOfUser (userAnalysis a)));
           ("isBreach"%string, VBoolean (isBreach a));
           ("stats"%string, objectOfStats (stats a))].

(* ================================================================== *)
(** ** The patterns of the source *)

Definition dot : atom := chr 46%N.
Definition dash : atom := chr 45%N.
Definition colon : atom := chr 58%N.
Definition slash : atom := chr 47%N.
Definition space : atom := chr 32%N.
Definition lbracket : atom := chr 91%N.
Definition rbracket : atom := chr 93%N.

(** [/\n\s*\n/] *)
Definition blankLine : list atom :=
  [chr LF; Rep isWhiteSpace 0 None; chr LF].

(** [/^(\d{1,3}\.\d{1,3}\.\d{1,3}\.\d{1,3})/] *)
Definition ipPattern : pattern :=
  let octet := Rep isDigit 1 (Some 3) in
  Pattern [] [octet; dot; octet; dot; octet; dot; octet] [].

(** [/user_id=([^&\s]+)/] *)
Definition userIdPattern : pattern :=
  Pattern (map chr (lit "user_id="))
          [Rep (fun c => negb (N.eqb c 38 || isWhiteSpace c)) 1 None]
          [].

Definition clock : list atom :=
  [digits 2; colon; digits 2; colon; digits 2].

Definition isoDate : list atom :=
  [digits 4; dash; digits 2; dash; digits 2; space] ++ clock.

Definition slashDate : list atom :=
  [digits 2; slash; digits 2; slash; digits 4; space] ++ clock.

(** The list [patterns] of [extractTimestamp], in its order. *)
Definition patterns : list pattern :=
  [ Pattern [lbracket] isoDate [rbracket];
    Pattern [] isoDate [];
    Pattern [lbracket] slashDate [rbracket];
    Pattern [] clock [] ].

(* ================================================================== *)
(** ** The object [userRequests] *)

(** The own properties of [userRequests] in creation order.  The object is
    created by [{}], so it inherits from [Object.prototype]. *)
Definition object := list (jsstring * list Request).

(** The property names of [Object.prototype]; each holds a function or an
    object: a truthy value without a [push] method. *)
Definition objectPrototypeKeys : list jsstring :=
  map lit
    [ "constructor"; "hasOwnProperty"; "isPrototypeOf";
      "propertyIsEnumerable"; "toLocaleString"; "toString"; "valueOf";
      "__proto__"; "__defineGetter__"; "__defineSetter__";
      "__lookupGetter__"; "__lookupSetter__" ]%string.

Inductive lookup :=
| Own (rs : list Request)
| Inherited
| Undefined.

(** [userRequests[userId]] *)
Definition getProp (o : object) (k : jsstring) : lookup :=
  match find (fun kv => streq (fst kv) k) o with
  | Some kv => Own (snd kv)
  | None => if existsb (streq k) objectPrototypeKeys then Inherited else Undefined
  end.

(** [userRequests[userId].push(r)] on an own property. *)
Fixpoint pushTo (o : object) (k : jsstring) (r : Request) : object :=
  match o with
  | [] => []
  | (k', rs) :: o' =>
      if streq k' k then (k', rs ++ [r]) :: o' else (k', rs) :: pushTo o' k r
  end.

(** Lines 133-140: create the array when the lookup is falsy, then push.
    An inherited property is truthy and has no [push]: the call throws. *)
Definition recordRequest (o : object) (k : jsstring) (r : Request)
    : completion object :=
  match getProp o k with
  | Undefined => Return (pushTo (o ++ [(k, [])]) k r)
  | Own _ => Return (pushTo o k r)
  | Inherited => Throw TypeError
  end.

(** A property name that is an array index: the canonical decimal string
    of an integer below 2^32 - 1. *)
Definition digitValue (c : char) : N := (c - 48)%N.

Definition arrayIndex (k : jsstring) : option N :=
  match k with
  | [] => None
  | c :: k' =>
      if forallb isDigit k && (negb (N.eqb c 48) || match k' with [] => true | _ => false end)
      then
        let v := fold_left (fun a d => (10 * a + digitValue d)%N) k 0%N in
        if (v <? 4294967295)%N then Some v else None
      else None
  end.

Fixpoint insertIndexed (x : N * (jsstring * list Request))
    (l : list (N * (jsstring * list Request))) :=
  match l with
  | [] => [x]
  | y :: l' => if (fst x <=? fst y)%N then x :: l else y :: insertIndexed x l'
  end.

Definition indexedEntries (o : object) : list (N * (jsstring * list Request)) :=
  flat_map (fun kv => match arrayIndex (fst kv) with
                      | Some i => [(i, kv)]
                      | None => []
                      end) o.

(** [Object.entries]: array-index names in ascending order, then the
    other names in creation order. *)
Definition Object_entries (o : object) : list (jsstring * list Request) :=
  map snd (fold_right insertIndexed [] (indexedEntries o))
  ++ filter (fun kv => match arrayIndex (fst kv) with
                       | Some _ => false
                       | None => true
                       end) o.

(* ================================================================== *)
(** ** The pipeline *)

(** [splitIntoBlocks] *)
Definition splitIntoBlocks (content : jsstring) : list jsstring :=
  filter (fun block => 0 <? List.length block)
         (map trim (splitRegex blankLine content)).

(** The callback of [blocks.forEach] in [analyzeIPs].  [lines[0]] of an
    empty array would be [undefined], and [undefined.match] throws. *)
Definition analyzeIPs_block (ips : list IPRecord) (block : jsstring)
    : completion (list IPRecord) :=
  let lines := splitLines block in
  match lines with
  | [] => Throw TypeError
  | firstLine :: _ =>
      match matchAnchored ipPattern firstLine with
      | Some ip0 =>
          let isInternal0 := startsWith ip0 (lit "10.") in
          match find (fun item => streq (ip item) ip0) ips with
          | None =>
              Return (ips ++ [ {| ip := ip0;
                                  isInternal := isInternal0;
                                  requests :=
                                    filter (fun line => 0 <? List.length (trim line))
                                           (tl lines) |} ])
          | Some _ => Return ips
          end
      | None => Return ips
      end
  end.

(** [analyzeIPs] *)
Definition analyzeIPs (blocks : list jsstring) : completion (list IPRecord) :=
  forEach analyzeIPs_block blocks [].

(** The sort of line 182: [requests.sort((a, b) => a.timestamp - b.timestamp)].
    The sort is stable; a comparison that yields NaN counts as zero.  With
    an invalid date in the group the comparator is not consistent and the
    standard leaves the order to the engine: what is proved of such groups
    rests on [invalid_date_interval], which holds of every order. *)
Definition compareRequests (a b : Request) : number :=
  dateDiff (timestamp a) (timestamp b).

Fixpoint insertRequest (x : Request) (l : list Request) : list Request :=
  match l with
  | [] => [x]
  | y :: l' =>
      if ngt (compareRequests x y) (ofZ 0) then y :: insertRequest x l'
      else x :: l
  end.

Definition sortRequests (l : list Request) : list Request :=
  fold_right insertRequest [] l.

(** The loop of lines 185-189. *)
Fixpoint intervalsOf (l : list Request) : list number :=
  match l with
  | a :: (b :: _) as t => dateDiff (timestamp b) (timestamp a) :: intervalsOf t
  | _ => []
  end.

(** The callback of [Object.entries(userRequests).forEach] in
    [detectSuspiciousBehavior]: the record pushed for one user. *)
Definition detectSuspiciousBehavior_entry (userId0 : jsstring)
    (requests0 : list Request) : UserRecord :=
  if List.length requests0 <? 2 then
    {| userId := userId0;
       requestCount := List.length requests0;
       isSuspicious := false;
       reason := lit "Normal activity";
       avgInterval := None |}
  else
    let sorted := sortRequests requests0 in
    let intervals := intervalsOf sorted in
    if 2 <? List.length intervals then
      let avgInterval0 :=
        ndiv (fold_left nadd intervals (ofZ 0)) (ofNat (List.length intervals)) in
      let similarIntervals :=
        List.length
          (filter (fun interval =>
                     nlt (Math_abs (nsub interval avgInterval0)) (ofZ 2000))
                  intervals) in
      let isSuspicious0 :=
        ngt (ndiv (ofNat similarIntervals) (ofNat (List.length intervals)))
            (Num (7 # 10))
        && nlt avgInterval0 (ofZ 15000) in
      {| userId := userId0;
         requestCount := List.length sorted;
         isSuspicious := isSuspicious0;
         reason :=
           if isSuspicious0 then
             lit "Repeated API hits every "
             ++ toString (Math_round (ndiv avgInterval0 (ofZ 1000)))
             ++ lit "s"
           else lit "Normal activity";
         avgInterval := Some (Math_round (ndiv avgInterval0 (ofZ 1000))) |}
    else
      {| userId := userId0;
         requestCount := List.length sorted;
         isSuspicious := false;
         reason := lit "Insufficient data";
         avgInterval := None |}.

(** [detectSuspiciousBehavior] *)
Definition detectSuspiciousBehavior (userRequests : object) : list UserRecord :=
  map (fun entry => detectSuspiciousBehavior_entry (fst entry) (snd entry))
      (Object_entries userRequests).

(** [determineBreach] *)
Definition determineBreach (ipAnalysis0 : list IPRecord)
    (userAnalysis0 : list UserRecord) : bool :=
  let hasExternalIPs := existsb (fun ip0 => negb (isInternal ip0)) ipAnalysis0 in
  let hasSuspiciousUsers := existsb (fun user => isSuspicious user) userAnalysis0 in
  hasExternalIPs || hasSuspiciousUsers.

Section Pipeline.

(** [new Date(string)] of the engine. *)
Variable parseDate : jsstring -> date.

(** [extractTimestamp]: the date of the first pattern that matches, or
    [None] for [null]. *)
Definition extractTimestamp (line : jsstring) : option date :=
  (fix go (ps : list pattern) : option date :=
     match ps with
     | [] => None
     | p :: ps' =>
         match matchFirst p line with
         | Some g => Some (parseDate g)
         | None => go ps'
         end
     end) patterns.

(** The callback of [lines.forEach] in [analyzeUserBehavior].  A [Date]
    is an object, hence truthy even when invalid. *)
Definition analyzeUserBehavior_line (userRequests : object) (line : jsstring)
    : completion object :=
  let userMatch := matchFirst userIdPattern line in
  let timestamp0 := extractTimestamp line in
  match userMatch, timestamp0 with
  | Some userId0, Some ts =>
      recordRequest userRequests userId0
                    {| timestamp := ts; request := trim line |}
  | _, _ => Return userRequests
  end.

Definition analyzeUserBehavior_block (userRequests : object) (block : jsstring)
    : completion object :=
  forEach analyzeUserBehavior_line (splitLines block) userRequests.

(** The grouping loop of [analyzeUserBehavior] (lines 120-143). *)
Definition collectUserRequests (blocks : list jsstring) : completion object :=
  forEach analyzeUserBehavior_block blocks [].

(** [analyzeUserBehavior] *)
Definition analyzeUserBehavior (blocks : list jsstring)
    : completion (list UserRecord) :=
  userRequests <- collectUserRequests blocks ;;
  Return (detectSuspiciousBehavior userRequests).

(** [parseLogContent] *)
Definition parseLogContent (content : jsstring) : completion Analysis :=
  let blocks := splitIntoBlocks content in
  ipAnalysis0 <- analyzeIPs blocks ;;
  userAnalysis0 <- analyzeUserBehavior blocks ;;
  let isBreach0 := determineBreach ipAnalysis0 userAnalysis0 in
  Return {| ipAnalysis := ipAnalysis0;
            userAnalysis := userAnalysis0;
            isBreach := isBreach0;
            stats :=
              {| totalBlocks := List.length blocks;
                 totalIPs := List.length ipAnalysis0;
                 internalIPs :=
                   List.length (filter (fun ip0 => isInternal ip0) ipAnalysis0);
                 externalIPs :=
                   List.length (filter (fun ip0 => negb (isInternal ip0)) ipAnalysis0);
                 suspiciousUsers :=
                   List.length (filter (fun user => isSuspicious user) userAnalysis0)
              |} |}.

End Pipeline.

(** A sample engine for the examples: it reads [YYYY-MM-DD HH:MM:SS] as a
    time in UTC and every other string as an invalid date. *)
Definition digitsValue (s : jsstring) : Z :=
  Z.of_N (fold_left (fun a d => (10 * a + digitValue d)%N) s 0%N).

Definition daysFromCivil (y m d : Z) : Z :=
  let y' := if (m <=? 2)%Z then (y - 1)%Z else y in
  let era := (y' / 400)%Z in
  let yoe := (y' - era * 400)%Z in
  let mp := ((m + 9) mod 12)%Z in
  let doy := ((153 * mp + 2) / 5 + d - 1)%Z in
  let doe := (yoe * 365 + yoe / 4 - yoe / 100 + doy)%Z in
  (era * 146097 + doe - 719468)%Z.

Definition sampleDate (s : jsstring) : date :=
  match matchSeq isoDate s with
  | Some [y; _; m; _; d; _; hh; _; mm; _; ss] =>
      if (List.length (concat [y; [0%N]; m; [0%N]; d; [0%N]; hh; [0%N]; mm; [0%N]; ss])
          =? List.length s)
         && (1 <=? digitsValue m)%Z && (digitsValue m <=? 12)%Z
         && (1 <=? digitsValue d)%Z && (digitsValue d <=? 31)%Z
         && (digitsValue hh <=? 23)%Z && (digitsValue mm <=? 59)%Z
         && (digitsValue ss <=? 59)%Z
      then
        Time ((((daysFromCivil (digitsValue y) (digitsValue m) (digitsValue d) * 24
                 + digitsValue hh) * 60 + digitsValue mm) * 60 + digitsValue ss) * 1000)%Z
      else InvalidDate
  | _ => InvalidDate
  end.

(* ================================================================== *)
(** ** The vocabulary of the specification *)

(** Specification: the arithmetic mean of the intervals of a group. *)
Definition sumZ (ivs : list Z) : Z := fold_right Z.add 0%Z ivs.

Definition meanInterval (ivs : list Z) : Q :=
  (inject_Z (sumZ ivs) / inject_Z (Z.of_nat (List.length ivs)))%Q.

(** Specification: an interval is similar when it differs from the mean by
    less than 2000 ms. *)
Definition similar (ivs : list Z) (i : Z) : bool :=
  Qltb (Qabs (inject_Z i - meanInterval ivs)) (inject_Z 2000).

(** Specification: the fraction of similar intervals. *)
Definition similarRatio (ivs : list Z) : Q :=
  (inject_Z (Z.of_nat (List.length (filter (similar ivs) ivs)))
   / inject_Z (Z.of_nat (List.length ivs)))%Q.

(** Specification: [ratio > 0.7 AND mean < 15000 ms]. *)
Definition regularPolling (ivs : list Z) : Prop :=
  (7 # 10 < similarRatio ivs)%Q /\ (meanInterval ivs < inject_Z 15000)%Q.

(** Specification: [round(mean/1000)]. *)
Definition roundedSeconds (ivs : list Z) : Z :=
  Qfloor (meanInterval ivs / inject_Z 1000 + (1 # 2))%Q.

(** Specification: a blank-line separator is a line feed, a possibly empty
    run of white space, and a line feed. *)
Definition hasBlankLine (content : jsstring) : Prop :=
  exists a w b,
    Forall (fun c => isWhiteSpace c = true) w /\
    content = a ++ LF :: w ++ LF :: b.

(** A request with a valid date. *)
Definition at_ms (ms : Z) (line : string) : Request :=
  {| timestamp := Time ms; request := lit line |}.

(* ================================================================== *)
(** ** Auxiliary definitions of the proofs *)

(** The record [analyzeIPs] makes of a block whose first line carries the
    address [addr]. *)
Definition recordOf (addr : jsstring) (lines : list jsstring) : IPRecord :=
  {| ip := addr;
     isInternal := startsWith addr (lit "10.");
     requests := filter (fun line => 0 <? List.length (trim line)) (tl lines) |}.

(** The invariant of the loop of [analyzeIPs]. *)
Definition wellFormedIPs (ips : list IPRecord) : Prop :=
  NoDup (map ip ips) /\
  Forall (fun r => isInternal r = startsWith (ip r) (lit "10.")) ips.

(** The address a block begins with: the match of [ipPattern] on its first
    line. *)
Definition leadingAddress (block : jsstring) : option jsstring :=
  match splitLines block with
  | firstLine :: _ => matchAnchored ipPattern firstLine
  | [] => None
  end.

(** Deciding [hasBlankLine]: after a line feed, does a line feed follow
    white space only? *)
Fixpoint blankAhead (s : jsstring) : bool :=
  match s with
  | [] => false
  | c :: s' =>
      if N.eqb c LF then true
      else if isWhiteSpace c then blankAhead s' else false
  end.

Fixpoint hasBlankLineb (s : jsstring) : bool :=
  match s with
  | [] => false
  | c :: s' => (N.eqb c LF && blankAhead s') || hasBlankLineb s'
  end.

(** [k] names a property of [Object.prototype]. *)
Definition inherited (k : jsstring) : bool := existsb (streq k) objectPrototypeKeys.

(** No own property of [userRequests] shadows a property of the prototype. *)
Definition ownKeysFresh (o : object) : Prop :=
  Forall (fun kv => inherited (fst kv) = false) o.

(** A line that carries both a user identifier naming a property of
    [Object.prototype] and a timestamp. *)
Definition poisonous (line : jsstring) : bool :=
  match matchFirst userIdPattern line with
  | Some k =>
      inherited k
      && existsb (fun p => match matchFirst p line with Some _ => true | None => false end)
                 patterns
  | None => false
  end.

(** [a] is dated no later than [b], both dates being valid. *)
Definition notAfter (a b : Request) : Prop :=
  exists x y, timestamp a = Time x /\ timestamp b = Time y /\ (x <= y)%Z.

(** A request whose date is valid. *)
Definition validDate (r : Request) : Prop := exists x, timestamp r = Time x.

(** Sample inputs. *)
Definition polling : list Request :=
  [at_ms 0 "GET /api?user_id=bob"; at_ms 5000 "GET /api?user_id=bob";
   at_ms 10000 "GET /api?user_id=bob"; at_ms 15000 "GET /api?user_id=bob"].

(** The same requests, the second logged before the first. *)
Definition shuffledPolling : list Request :=
  [at_ms 5000 "GET /api?user_id=bob"; at_ms 0 "GET /api?user_id=bob";
   at_ms 10000 "GET /api?user_id=bob"; at_ms 15000 "GET /api?user_id=bob"].

Definition sampleLog : jsstring :=
  lit "10.0.0.1 - gateway" ++ [LF]
  ++ lit "[2024-01-15 10:30:00] GET /api?user_id=bob&page=1" ++ [LF]
  ++ lit "[2024-01-15 10:30:05] GET /api?user_id=bob&page=2" ++ [LF]
  ++ lit "[2024-01-15 10:30:10] GET /api?user_id=bob&page=3" ++ [LF]
  ++ lit "[2024-01-15 10:30:15] GET /api?user_id=bob&page=4" ++ [LF]
  ++ [LF]
  ++ lit "192.168.1.7 - office" ++ [LF]
  ++ lit "[2024-01-15 11:00:00] GET /home?user_id=alice".

Definition sampleAnalysis : Analysis :=
  {| ipAnalysis :=
       [ {| ip := lit "10.0.0.1"; isInternal := true;
            requests :=
              [ lit "[2024-01-15 10:30:00] GET /api?user_id=bob&page=1";
                lit "[2024-01-15 10:30:05] GET /api?user_id=bob&page=2";
                lit "[2024-01-15 10:30:10] GET /api?user_id=bob&page=3";
                lit "[2024-01-15 10:30:15] GET /api?user_id=bob&page=4" ] |};
         {| ip := lit "192.168.1.7"; isInternal := false;
            requests := [ lit "[2024-01-15 11:00:00] GET /home?user_id=alice" ] |} ];
     userAnalysis :=
       [ {| userId := lit "bob"; requestCount := 4; isSuspicious := true;
            reason := lit "Repeated API hits every 5s";
            avgInterval := Some (Int 5) |};
         {| userId := lit "alice"; requestCount := 1; isSuspicious := false;
            reason := lit "Normal activity"; avgInterval := None |} ];
     isBreach := true;
     stats := {| totalBlocks := 2; totalIPs := 2; internalIPs := 1;
                 externalIPs := 1; suspiciousUsers := 1 |} |}.

(** *** The vocabulary of the further properties *)

(** A piece of text that one atom can consume. *)
Definition fits (a : atom) (piece : jsstring) : Prop :=
  Forall (fun c => cls a c = true) piece /\
  lo a <= List.length piece /\
  match hi a with Some m => List.length piece <= m | None => True end.

(** A text in the language of a sequence of atoms. *)
Definition shaped (r : list atom) (g : jsstring) : Prop :=
  exists ps, g = concat ps /\ Forall2 fits r ps.

(** A character a user identifier may contain: neither [&] nor white space. *)
Definition idChar (c : char) : bool := negb (N.eqb c 38 || isWhiteSpace c).

(** One to three digits. *)
Definition octetText (d : jsstring) : Prop :=
  Forall (fun c => isDigit c = true) d /\ 1 <= List.length d <= 3.

(** Four groups of one to three digits joined by dots. *)
Definition dottedQuad (s : jsstring) : Prop :=
  exists a b c d,
    octetText a /\ octetText b /\ octetText c /\ octetText d /\
    s = a ++ lit "." ++ b ++ lit "." ++ c ++ lit "." ++ d.

(** [n] digits. *)
Definition digitText (n : nat) (d : jsstring) : Prop :=
  Forall (fun c => isDigit c = true) d /\ List.length d = n.

(** [HH:MM:SS] *)
Definition clockText (g : jsstring) : Prop :=
  exists h m s,
    digitText 2 h /\ digitText 2 m /\ digitText 2 s /\
    g = h ++ lit ":" ++ m ++ lit ":" ++ s.

(** [YYYY-MM-DD HH:MM:SS] *)
Definition isoText (g : jsstring) : Prop :=
  exists y m d t,
    digitText 4 y /\ digitText 2 m /\ digitText 2 d /\ clockText t /\
    g = y ++ lit "-" ++ m ++ lit "-" ++ d ++ lit " " ++ t.

(** [DD/MM/YYYY HH:MM:SS] *)
Definition slashText (g : jsstring) : Prop :=
  exists d m y t,
    digitText 2 d /\ digitText 2 m /\ digitText 4 y /\ clockText t /\
    g = d ++ lit "/" ++ m ++ lit "/" ++ y ++ lit " " ++ t.

(** A line that contains [HH:MM:SS] somewhere. *)
Definition hasClock (line : jsstring) : Prop :=
  exists a g b, line = a ++ g ++ b /\ clockText g.

(** A text that begins with a user token: [user_id=] and an identifier
    character. *)
Definition tokenAt (s : jsstring) : Prop :=
  exists c t, s = lit "user_id=" ++ c :: t /\ idChar c = true.

(** A line that contains [user_id=] followed by an identifier character. *)
Definition hasUserToken (line : jsstring) : Prop :=
  exists a c b, line = a ++ lit "user_id=" ++ c :: b /\ idChar c = true.

(** The identifiers of a list in the order of their first appearance. *)
Fixpoint firstSeen (ks : list jsstring) : list jsstring :=
  match ks with
  | [] => []
  | k :: ks' => k :: filter (fun k' => negb (streq k' k)) (firstSeen ks')
  end.

(** The requests recorded under [k], in order. *)
Definition groupOf (k : jsstring) (es : list (jsstring * Request)) : list Request :=
  map snd (filter (fun e => streq (fst e) k) es).

(** The object that groups the entries [es] by identifier. *)
Definition grouped (es : list (jsstring * Request)) : object :=
  map (fun k => (k, groupOf k es)) (firstSeen (map fst es)).

Section Entries.

Variable parseDate : jsstring -> date.

(** What a line contributes: its user identifier and its request, when
    both the identifier and a timestamp are found. *)
Definition lineEntry (line : jsstring) : option (jsstring * Request) :=
  match matchFirst userIdPattern line, extractTimestamp parseDate line with
  | Some k, Some ts => Some (k, {| timestamp := ts; request := trim line |})
  | _, _ => None
  end.

Definition linesEntries (lines : list jsstring) : list (jsstring * Request) :=
  flat_map (fun line => match lineEntry line with Some e => [e] | None => [] end) lines.

(** The contributions of all the lines of all the blocks, in order. *)
Definition entriesOf (blocks : list jsstring) : list (jsstring * Request) :=
  flat_map (fun block => linesEntries (splitLines block)) blocks.

End Entries.

(** The time value of a request with a valid date. *)
Definition timeOf (r : Request) : Z :=
  match timestamp r with Time x => x | InvalidDate => 0%Z end.

(** The successive differences of a list of times. *)
Fixpoint diffs (ts : list Z) : list Z :=
  match ts with
  | a :: (b :: _) as t => (b - a)%Z :: diffs t
  | _ => []
  end.

(** The characters of a text that are not white space. *)
Definition visible (s : jsstring) : jsstring :=
  filter (fun c => negb (isWhiteSpace c)) s.

(** A text that neither begins nor ends with white space and is not empty. *)
Definition trimmed (b : jsstring) : Prop :=
  exists c t, b = c :: t /\ isWhiteSpace c = false /\ isWhiteSpace (last t c) = false.

(** The numeric value of a property name that is an array index. *)
Definition indexValue (k : jsstring) : N :=
  match arrayIndex k with Some i => i | None => 0%N end.

Definition isIndex (k : jsstring) : bool :=
  match arrayIndex k with Some _ => true | None => false end.

(** The number of requests held in [userRequests]. *)
Definition heldRequests (o : object) : nat :=
  list_sum (map (fun kv => List.length (snd kv)) o).

(** [n] times at the period [d], from [t0] on. *)
Fixpoint ticks (t0 d : Z) (n : nat) : list Z :=
  match n with
  | O => []
  | S n' => t0 :: ticks (t0 + d) d n'
  end.

(** The pieces of the split that [splitIntoBlocks] keeps: trimmed, and not
    empty. *)
Definition keptBlocks (pieces : list jsstring) : list jsstring :=
  filter (fun block => 0 <? List.length block) (map trim pieces).

(* ================================================================== *)
(** * Properties *)

(** ** Strings *)

Lemma streq_eq (a b : jsstring) : streq a b = true <-> a = b.
Proof.
  revert b; induction a as [|x a IH]; intros [|y b]; simpl; split;
    try congruence; try reflexivity.
  - intros H. apply andb_true_iff in H as [Hx Hs].
    apply N.eqb_eq in Hx. apply IH in Hs. congruence.
  - intros H. injection H as -> ->.
    apply andb_true_iff; split; [apply N.eqb_refl | now apply IH].
Qed.

Lemma streq_refl (a : jsstring) : streq a a = true.
Proof. now apply streq_eq. Qed.

Lemma streq_neq (a b : jsstring) : streq a b = false <-> a <> b.
Proof.
  split.
  - intros H E. apply streq_eq in E. congruence.
  - intros H. destruct (streq a b) eqn:E; [|reflexivity].
    apply streq_eq in E. contradiction.
Qed.

Lemma existsb_streq (a : jsstring) (l : list jsstring) :
  existsb (streq a) l = true <-> In a l.
Proof.
  rewrite existsb_exists. split.
  - intros (x & Hx & Hs). apply streq_eq in Hs. now subst x.
  - intros H. exists a. split; [exact H | apply streq_refl].
Qed.

Lemma existsb_streq_false (a : jsstring) (l : list jsstring) :
  existsb (streq a) l = false <-> ~ In a l.
Proof.
  rewrite <- existsb_streq. now destruct (existsb (streq a) l).
Qed.

Lemma startsWith_prefix (s p : jsstring) :
  startsWith s p = true <-> exists rest, s = p ++ rest.
Proof.
  revert s; induction p as [|x p IH]; intros s; simpl.
  - split; [exists s; reflexivity | now destruct s].
  - destruct s as [|y s].
    + split; [discriminate | intros [rest H]; discriminate].
    + simpl. rewrite andb_true_iff, N.eqb_eq, IH. split.
      * intros [-> [rest ->]]. now exists rest.
      * intros [rest H]. injection H as -> ->. split; [reflexivity | now exists rest].
Qed.

Lemma splitLinesAux_nonempty (cur s : jsstring) : splitLinesAux cur s <> [].
Proof.
  revert cur; induction s as [|c s IH]; intros cur; simpl.
  - discriminate.
  - destruct (N.eqb c LF); [discriminate | apply IH].
Qed.

Lemma splitLines_nonempty (s : jsstring) : splitLines s <> [].
Proof. apply splitLinesAux_nonempty. Qed.

(** ** The detector *)

Lemma insertRequest_length (x : Request) (l : list Request) :
  List.length (insertRequest x l) = S (List.length l).
Proof.
  induction l as [|y l IH]; [reflexivity|].
  cbn [insertRequest].
  destruct (ngt (compareRequests x y) (ofZ 0)); cbn [List.length];
    [now rewrite IH | reflexivity].
Qed.

Lemma sortRequests_length (l : list Request) :
  List.length (sortRequests l) = List.length l.
Proof.
  induction l as [|x l IH]; simpl; [reflexivity|].
  now rewrite insertRequest_length, IH.
Qed.

Lemma insertRequest_perm (x : Request) (l : list Request) :
  Permutation (insertRequest x l) (x :: l).
Proof.
  induction l as [|y l IH]; [reflexivity|].
  cbn [insertRequest].
  destruct (ngt (compareRequests x y) (ofZ 0)); [|reflexivity].
  rewrite IH. apply perm_swap.
Qed.

Lemma sortRequests_perm (l : list Request) : Permutation (sortRequests l) l.
Proof.
  induction l as [|x l IH]; simpl; [reflexivity|].
  rewrite insertRequest_perm. now constructor.
Qed.

Lemma intervalsOf_length (l : list Request) :
  List.length (intervalsOf l) = pred (List.length l).
Proof.
  induction l as [|a [|b l] IH]; simpl in *; try reflexivity.
  now rewrite IH.
Qed.

Lemma intervals_of_sorted_length (l : list Request) :
  List.length (intervalsOf (sortRequests l)) = pred (List.length l).
Proof. now rewrite intervalsOf_length, sortRequests_length. Qed.

(** ** Numbers *)

Lemma Qltb_lt (x y : Q) : Qltb x y = true <-> (x < y)%Q.
Proof.
  unfold Qltb. rewrite negb_true_iff. split.
  - intros H. apply Qnot_le_lt. intros L. apply Qle_bool_iff in L. congruence.
  - intros H. destruct (Qle_bool y x) eqn:E; [|reflexivity].
    apply Qle_bool_iff in E. exfalso. exact (Qlt_not_le _ _ H E).
Qed.

#[local] Instance Qltb_comp : Proper (Qeq ==> Qeq ==> eq) Qltb.
Proof. intros a b H c d H'. unfold Qltb. now rewrite H, H'. Qed.

(** ** The groups of the detector *)

Lemma Object_entries_perm (o : object) : Permutation (Object_entries o) o.
Proof.
  unfold Object_entries, indexedEntries.
  induction o as [|kv o IH]; [reflexivity|].
  cbn [flat_map filter].
  destruct (arrayIndex (fst kv)) as [i|].
  - cbn [app fold_right].
    assert (P : forall x l, Permutation (insertIndexed x l) (x :: l)).
    { intros x l. induction l as [|y l IHl]; [reflexivity|].
      cbn [insertIndexed]. destruct (fst x <=? fst y)%N; [reflexivity|].
      rewrite IHl. apply perm_swap. }
    rewrite P. cbn [map snd app]. now constructor.
  - cbn [app]. rewrite <- Permutation_middle. now constructor.
Qed.

Lemma Object_entries_In (o : object) kv : In kv (Object_entries o) <-> In kv o.
Proof.
  split; apply Permutation_in;
    [apply Object_entries_perm | symmetry; apply Object_entries_perm].
Qed.

Lemma detectSuspiciousBehavior_In (o : object) (r : UserRecord) :
  In r (detectSuspiciousBehavior o) <->
  exists u rs, In (u, rs) o /\ r = detectSuspiciousBehavior_entry u rs.
Proof.
  unfold detectSuspiciousBehavior. rewrite in_map_iff. split.
  - intros [[u rs] [E H]]. exists u, rs. split; [now apply Object_entries_In | now symmetry].
  - intros (u & rs & H & ->). exists (u, rs). split; [reflexivity | now apply Object_entries_In].
Qed.

Lemma entry_requestCount (u : jsstring) (rs : list Request) :
  requestCount (detectSuspiciousBehavior_entry u rs) = List.length rs.
Proof.
  unfold detectSuspiciousBehavior_entry.
  destruct (List.length rs <? 2); [reflexivity|].
  destruct (2 <? List.length (intervalsOf (sortRequests rs)));
    cbn [requestCount]; apply sortRequests_length.
Qed.

Lemma entry_userId (u : jsstring) (rs : list Request) :
  userId (detectSuspiciousBehavior_entry u rs) = u.
Proof.
  unfold detectSuspiciousBehavior_entry.
  destruct (List.length rs <? 2); [reflexivity|].
  now destruct (2 <? List.length (intervalsOf (sortRequests rs))).
Qed.

Lemma entry_insufficient (u : jsstring) (rs : list Request) :
  2 <= List.length rs <= 3 ->
  detectSuspiciousBehavior_entry u rs =
  {| userId := u; requestCount := List.length rs; isSuspicious := false;
     reason := lit "Insufficient data"; avgInterval := None |}.
Proof.
  intros H. unfold detectSuspiciousBehavior_entry.
  destruct (Nat.ltb_spec (List.length rs) 2) as [L|_]; [lia|].
  rewrite intervals_of_sorted_length, sortRequests_length.
  destruct (Nat.ltb_spec 2 (pred (List.length rs))) as [L|_]; [lia|].
  reflexivity.
Qed.

(** C1 (as amended).  A user group of exactly two requests yields a record
    that is not suspicious, carries no average interval, and has the reason
    "Insufficient data", whatever the interval between the two requests. *)
Theorem two_requests_insufficient_data :
  forall (o : object) (u : jsstring) (rs : list Request),
    In (u, rs) o ->
    List.length rs = 2 ->
    In {| userId := u; requestCount := 2; isSuspicious := false;
          reason := lit "Insufficient data"; avgInterval := None |}
       (detectSuspiciousBehavior o).
Proof.
  intros o u rs Hin Hlen. apply detectSuspiciousBehavior_In.
  exists u, rs. split; [assumption|].
  rewrite entry_insufficient by lia. now rewrite Hlen.
Qed.

Lemma two_requests_insufficient_data_witness :
  In {| userId := lit "alice"; requestCount := 2; isSuspicious := false;
        reason := lit "Insufficient data"; avgInterval := None |}
     (detectSuspiciousBehavior
        [(lit "alice", [at_ms 0 "GET /a user_id=alice"; at_ms 60000 "GET /b user_id=alice"])]).
Proof.
  apply (two_requests_insufficient_data
           [(lit "alice", [at_ms 0 "GET /a user_id=alice"; at_ms 60000 "GET /b user_id=alice"])]
           (lit "alice")
           [at_ms 0 "GET /a user_id=alice"; at_ms 60000 "GET /b user_id=alice"]).
  - left. reflexivity.
  - reflexivity.
Defined.

Lemma two_requests_not_normal_activity :
  exists r,
    In r (detectSuspiciousBehavior
            [(lit "alice", [at_ms 0 "GET /a user_id=alice";
                            at_ms 60000 "GET /b user_id=alice"])])
    /\ requestCount r = 2
    /\ ~ (isSuspicious r = false /\ reason r = lit "Normal activity").
Proof.
  eexists. split; [left; reflexivity|]. split; [reflexivity|].
  intros [_ H]. discriminate H.
Qed.

(** X4.  A user group of exactly three requests has two intervals: its
    record is not suspicious and has the reason "Insufficient data". *)
Theorem three_requests_insufficient_data :
  forall (u : jsstring) (rs : list Request),
    List.length rs = 3 ->
    detectSuspiciousBehavior_entry u rs
    = {| userId := u; requestCount := 3; isSuspicious := false;
         reason := lit "Insufficient data"; avgInterval := None |}.
Proof.
  intros u rs H. rewrite entry_insufficient by lia. now rewrite H.
Qed.

Lemma three_requests_insufficient_data_witness :
  detectSuspiciousBehavior_entry (lit "carol")
    [at_ms 0 "user_id=carol"; at_ms 1000 "user_id=carol"; at_ms 90000 "user_id=carol"]
  = {| userId := lit "carol"; requestCount := 3; isSuspicious := false;
       reason := lit "Insufficient data"; avgInterval := None |}.
Proof.
  apply (three_requests_insufficient_data (lit "carol")
           [at_ms 0 "user_id=carol"; at_ms 1000 "user_id=carol";
            at_ms 90000 "user_id=carol"]).
  reflexivity.
Defined.

(** ** The regularity analysis *)

(** The sum of line 193 over valid intervals. *)
Lemma sum_of_intervals (ivs : list Z) (a : Q) :
  exists q, fold_left nadd (map ofZ ivs) (Num a) = Num q
            /\ (q == a + inject_Z (sumZ ivs))%Q.
Proof.
  revert a; induction ivs as [|i ivs IH]; intros a; cbn [map fold_left sumZ fold_right].
  - exists a. split; [reflexivity|]. unfold inject_Z. ring.
  - destruct (IH (a + inject_Z i)%Q) as (q & E & H).
    exists q. split; [exact E|]. rewrite H. fold (sumZ ivs).
    rewrite inject_Z_plus. ring.
Qed.

Lemma length_nonzero_Q (n : nat) :
  0 < n -> Qeq_bool (inject_Z (Z.of_nat n)) 0 = false.
Proof.
  intros H. destruct (Qeq_bool _ _) eqn:E; [|reflexivity].
  apply Qeq_bool_eq in E. unfold Qeq in E. simpl in E. lia.
Qed.

(** The average of line 193 is the mean of the specification. *)
Lemma average_of_intervals (ivs : list Z) :
  0 < List.length ivs ->
  exists m,
    ndiv (fold_left nadd (map ofZ ivs) (ofZ 0)) (ofNat (List.length (map ofZ ivs)))
    = Num m /\ (m == meanInterval ivs)%Q.
Proof.
  intros Hn. destruct (sum_of_intervals ivs (inject_Z 0)) as (q & E & H).
  change (ofZ 0) with (Num (inject_Z 0)). rewrite E, length_map. unfold ofNat, ofZ, ndiv.
  rewrite length_nonzero_Q by assumption.
  eexists; split; [reflexivity|].
  unfold meanInterval. rewrite H. unfold inject_Z at 1.
  field. intros Z0. apply Qeq_eq_bool in Z0.
  rewrite length_nonzero_Q in Z0 by assumption. discriminate.
Qed.

Lemma similar_filter (ivs : list Z) (m : Q) :
  (m == meanInterval ivs)%Q ->
  List.length
    (filter (fun interval => nlt (Math_abs (nsub interval (Num m))) (ofZ 2000))
            (map ofZ ivs))
  = List.length (filter (similar ivs) ivs).
Proof.
  intros H. rewrite filter_map_swap, length_map. f_equal.
  apply filter_ext. intros i. unfold similar, ofZ.
  cbn [nsub Math_abs nlt]. now rewrite H.
Qed.

(** The record of the regularity branch, for a group with valid dates. *)
Lemma entry_regularity (u : jsstring) (rs : list Request) (ivs : list Z) :
  intervalsOf (sortRequests rs) = map ofZ ivs ->
  2 < List.length ivs ->
  exists b : bool,
    (b = true <-> regularPolling ivs) /\
    detectSuspiciousBehavior_entry u rs =
    {| userId := u; requestCount := List.length rs; isSuspicious := b;
       reason := if b
                 then lit "Repeated API hits every "
                      ++ toString (Int (roundedSeconds ivs)) ++ lit "s"
                 else lit "Normal activity";
       avgInterval := Some (Int (roundedSeconds ivs)) |}.
Proof.
  intros Hiv Hn.
  assert (Hlen : List.length rs = S (List.length ivs)).
  { pose proof (intervals_of_sorted_length rs) as L.
    rewrite Hiv, length_map in L. lia. }
  unfold detectSuspiciousBehavior_entry.
  destruct (Nat.ltb_spec (List.length rs) 2) as [L|_]; [lia|].
  rewrite Hiv.
  destruct (Nat.ltb_spec 2 (List.length (map ofZ ivs))) as [_|L];
    [|rewrite length_map in L; lia].
  destruct (average_of_intervals ivs) as (m & Em & Hm); [lia|].
  rewrite Em, (similar_filter ivs m Hm), sortRequests_length.
  assert (Hr : Math_round (ndiv (Num m) (ofZ 1000)) = Int (roundedSeconds ivs)).
  { change (ndiv (Num m) (ofZ 1000)) with (Num (m / inject_Z 1000)).
    unfold Math_round, roundedSeconds. f_equal. apply Qfloor_comp. now rewrite Hm. }
  rewrite Hr. rewrite length_map.
  unfold ofNat, ofZ, ndiv. rewrite length_nonzero_Q by lia.
  cbn [ngt nlt].
  eexists. split; [|reflexivity].
  rewrite andb_true_iff, !Qltb_lt. unfold regularPolling, similarRatio.
  now rewrite Hm.
Qed.

Lemma nadd_NaN_fold (l : list number) : fold_left nadd l NaN = NaN.
Proof. induction l as [|x l IH]; [reflexivity | exact IH]. Qed.

Lemma sum_with_NaN (l : list number) (a : number) :
  In NaN l -> fold_left nadd l a = NaN.
Proof.
  revert a; induction l as [|x l IH]; intros a H; [destruct H|].
  destruct H as [H|H]; cbn [fold_left].
  - subst x. destruct a; apply nadd_NaN_fold.
  - now apply IH.
Qed.

Lemma intervalsOf_cons (a b : Request) (t : list Request) :
  intervalsOf (a :: b :: t)
  = dateDiff (timestamp b) (timestamp a) :: intervalsOf (b :: t).
Proof. reflexivity. Qed.

Lemma interval_of_invalid (l : list Request) (x : Request) :
  In x l -> timestamp x = InvalidDate -> 2 <= List.length l ->
  In NaN (intervalsOf l).
Proof.
  induction l as [|a [|b t] IH]; intros Hin Hx Hl; cbn [List.length] in Hl; try lia.
  rewrite intervalsOf_cons. destruct Hin as [->|Hin].
  - left. rewrite Hx. unfold dateDiff. now destruct (timestamp b).
  - destruct t as [|c t].
    + destruct Hin as [->|[]]. left. rewrite Hx. reflexivity.
    + right. apply IH; [exact Hin | exact Hx | cbn [List.length]; lia].
Qed.

(** A group of at least two requests with an invalid date has a NaN
    interval in whatever order the sort leaves it. *)
Lemma invalid_date_interval (rs sorted : list Request) :
  Permutation sorted rs ->
  (exists x, In x rs /\ timestamp x = InvalidDate) ->
  2 <= List.length rs ->
  In NaN (intervalsOf sorted).
Proof.
  intros P (x & Hx & Hd) Hl. apply (interval_of_invalid sorted x).
  - apply (Permutation_in x (Permutation_sym P) Hx).
  - exact Hd.
  - now rewrite (Permutation_length P).
Qed.

Lemma intervals_cases (l : list Request) :
  (exists ivs, intervalsOf l = map ofZ ivs) \/ In NaN (intervalsOf l).
Proof.
  induction l as [|a [|b t] IH].
  - left. now exists [].
  - left. now exists [].
  - rewrite intervalsOf_cons. destruct IH as [[ivs E]|H].
    + destruct (dateDiff (timestamp b) (timestamp a)) eqn:D.
      * left. unfold dateDiff in D.
        destruct (timestamp b), (timestamp a); try discriminate.
        injection D as <-. exists ((ms - ms0)%Z :: ivs). cbn [map]. now rewrite E.
      * right. now left.
    + right. now right.
Qed.

(** The record of the regularity branch, for a group with an invalid date. *)
Lemma entry_invalid (u : jsstring) (rs : list Request) :
  2 < List.length (intervalsOf (sortRequests rs)) ->
  In NaN (intervalsOf (sortRequests rs)) ->
  detectSuspiciousBehavior_entry u rs =
  {| userId := u; requestCount := List.length rs; isSuspicious := false;
     reason := lit "Normal activity"; avgInterval := Some IntNaN |}.
Proof.
  intros Hn Hnan. pose proof (intervals_of_sorted_length rs) as L.
  unfold detectSuspiciousBehavior_entry.
  destruct (Nat.ltb_spec (List.length rs) 2) as [L2|_]; [lia|].
  destruct (Nat.ltb_spec 2 (List.length (intervalsOf (sortRequests rs)))) as [_|L2]; [|lia].
  rewrite (sum_with_NaN _ _ Hnan), sortRequests_length.
  cbn [ndiv Math_round nlt]. now rewrite andb_false_r.
Qed.

(** C2 (as amended).  The record of a group carries [avgInterval] exactly
    when the group has at least four requests, that is more than two
    intervals; the value is then [round(mean/1000)], or NaN when a date of
    the group is invalid. *)
Theorem avgInterval_presence :
  forall (u : jsstring) (rs : list Request),
    let r := detectSuspiciousBehavior_entry u rs in
    (avgInterval r <> None <-> 4 <= List.length rs) /\
    (4 <= List.length rs ->
     (forall ivs, intervalsOf (sortRequests rs) = map ofZ ivs ->
                  avgInterval r = Some (Int (roundedSeconds ivs))) /\
     ((exists x, In x rs /\ timestamp x = InvalidDate) ->
      avgInterval r = Some IntNaN)).
Proof.
  intros u rs r. subst r.
  pose proof (intervals_of_sorted_length rs) as L.
  destruct (le_lt_dec 4 (List.length rs)) as [H4|H4].
  - assert (Hn : 2 < List.length (intervalsOf (sortRequests rs))) by lia.
    assert (P : (forall ivs, intervalsOf (sortRequests rs) = map ofZ ivs ->
                   avgInterval (detectSuspiciousBehavior_entry u rs)
                   = Some (Int (roundedSeconds ivs))) /\
                (In NaN (intervalsOf (sortRequests rs)) ->
                   avgInterval (detectSuspiciousBehavior_entry u rs) = Some IntNaN)).
    { split.
      - intros ivs Hiv.
        assert (Hl : 2 < List.length ivs) by now rewrite Hiv, length_map in Hn.
        now destruct (entry_regularity u rs ivs Hiv Hl) as (b & _ & ->).
      - intros Hnan. now rewrite (entry_invalid u rs Hn Hnan). }
    split.
    2:{ intros _. split; [exact (proj1 P)|]. intros Hinv. apply (proj2 P).
        apply (invalid_date_interval rs); [apply sortRequests_perm | exact Hinv | lia]. }
    split; [intros _; exact H4|]. intros _.
    destruct (intervals_cases (sortRequests rs)) as [[ivs E]|Hnan].
    + rewrite (proj1 P ivs E). discriminate.
    + rewrite (proj2 P Hnan). discriminate.
  - split; [|lia]. split; [|lia]. intros Hp. exfalso. apply Hp.
    unfold detectSuspiciousBehavior_entry.
    destruct (List.length rs <? 2); [reflexivity|].
    destruct (Nat.ltb_spec 2 (List.length (intervalsOf (sortRequests rs))));
      [lia | reflexivity].
Qed.

Lemma avgInterval_presence_witness :
  avgInterval (detectSuspiciousBehavior_entry (lit "bob") polling)
  = Some (Int (roundedSeconds [5000; 5000; 5000]%Z))
  /\ roundedSeconds [5000; 5000; 5000]%Z = 5%Z.
Proof.
  split; [|reflexivity].
  refine (proj1 (proj2 (avgInterval_presence (lit "bob") polling) _) [5000; 5000; 5000]%Z _).
  - vm_compute. lia.
  - reflexivity.
Defined.

Lemma three_requests_without_avgInterval :
  exists r,
    In r (detectSuspiciousBehavior
            [(lit "carol", [at_ms 0 "user_id=carol"; at_ms 5000 "user_id=carol";
                            at_ms 10000 "user_id=carol"])])
    /\ ~ (avgInterval r <> None <-> 3 <= requestCount r).
Proof.
  eexists. split; [left; reflexivity|].
  intros [_ H]. apply H; [cbn; lia | reflexivity].
Qed.

(** ** The order of a sorted group *)

Lemma compare_valid (a b : Request) (x y : Z) :
  timestamp a = Time x -> timestamp b = Time y ->
  ngt (compareRequests a b) (ofZ 0) = true <-> (y < x)%Z.
Proof.
  intros Ha Hb. unfold ngt, compareRequests, dateDiff, ofZ, nlt. rewrite Ha, Hb.
  rewrite Qltb_lt, <- Zlt_Qlt. lia.
Qed.

Lemma insertRequest_hd (x y : Request) (l : list Request) :
  notAfter y x -> HdRel notAfter y l -> HdRel notAfter y (insertRequest x l).
Proof.
  intros Hyx H. destruct l as [|z l]; cbn [insertRequest]; [now constructor|].
  destruct (ngt (compareRequests x z) (ofZ 0)); constructor; [|exact Hyx].
  now inversion H.
Qed.

Lemma insertRequest_sorted (x : Request) (l : list Request) :
  validDate x -> Forall validDate l ->
  Sorted notAfter l -> Sorted notAfter (insertRequest x l).
Proof.
  intros [tx Hx] Hv Hs. induction Hs as [|y l Hs IH Hhd]; cbn [insertRequest].
  - repeat constructor.
  - inversion Hv as [|? ? [ty Hy] Hv']; subst.
    destruct (ngt (compareRequests x y) (ofZ 0)) eqn:C.
    + apply (compare_valid x y tx ty Hx Hy) in C.
      constructor; [now apply IH|].
      apply insertRequest_hd; [|exact Hhd].
      exists ty, tx. repeat split; auto. lia.
    + constructor; [now constructor|]. constructor.
      exists tx, ty. repeat split; auto.
      destruct (Z.lt_ge_cases ty tx) as [L|G]; [|lia].
      apply (compare_valid x y tx ty Hx Hy) in L. congruence.
Qed.

Lemma insertRequest_valid (x : Request) (l : list Request) :
  validDate x -> Forall validDate l -> Forall validDate (insertRequest x l).
Proof.
  intros Hx Hl. apply (Permutation_Forall (Permutation_sym (insertRequest_perm x l))).
  now constructor.
Qed.

Lemma sortRequests_sorted (l : list Request) :
  Forall validDate l ->
  Sorted notAfter (sortRequests l) /\ Forall validDate (sortRequests l).
Proof.
  induction 1 as [|x l Hx Hl [IHs IHv]]; cbn [sortRequests fold_right].
  - split; constructor.
  - split; [now apply insertRequest_sorted | now apply insertRequest_valid].
Qed.

(** X3.  When every date of a group is valid, line 182 leaves the group in
    ascending order of time, so no interval is negative. *)
Theorem sorted_intervals_nonnegative :
  forall rs,
    Forall validDate rs ->
    exists ivs,
      intervalsOf (sortRequests rs) = map ofZ ivs /\
      Forall (fun i => (0 <= i)%Z) ivs.
Proof.
  intros rs Hv. destruct (sortRequests_sorted rs Hv) as [Hs _].
  induction Hs as [|a l Hs IH Hhd].
  - now exists [].
  - destruct l as [|b t]; [now exists []|].
    destruct IH as (ivs & E & Hpos).
    inversion Hhd as [|? ? (x & y & Ha & Hb & Hxy)]; subst.
    exists ((y - x)%Z :: ivs). rewrite intervalsOf_cons, E. split.
    + cbn [map]. f_equal. unfold dateDiff. now rewrite Ha, Hb.
    + constructor; [lia | exact Hpos].
Qed.

Lemma sorted_intervals_nonnegative_witness :
  exists ivs,
    intervalsOf (sortRequests [at_ms 9000 "c"; at_ms 0 "a"; at_ms 4000 "b"])
    = map ofZ ivs /\ Forall (fun i => (0 <= i)%Z) ivs.
Proof.
  apply (sorted_intervals_nonnegative [at_ms 9000 "c"; at_ms 0 "a"; at_ms 4000 "b"]).
  repeat constructor; eexists; reflexivity.
Defined.

(** [Object.entries] lists array-index names first: the record of
    user 7 comes before that of user 42 although 42 was seen first. *)
Example numeric_ids_reordered :
  map userId
      (detectSuspiciousBehavior
         [(lit "42", [at_ms 0 "user_id=42"]); (lit "zoe", [at_ms 1 "user_id=zoe"]);
          (lit "7", [at_ms 2 "user_id=7"])])
  = [lit "7"; lit "42"; lit "zoe"].
Proof. reflexivity. Qed.

(** Four requests at 0 s, 1 s, 40 s and 41 s: the mean is below
    15000 ms but no interval is within 2000 ms of it. *)
Example irregular_group_not_suspicious :
  detectSuspiciousBehavior
    [(lit "eve", [at_ms 0 "user_id=eve"; at_ms 1000 "user_id=eve";
                  at_ms 40000 "user_id=eve"; at_ms 41000 "user_id=eve"])]
  = [ {| userId := lit "eve"; requestCount := 4; isSuspicious := false;
         reason := lit "Normal activity"; avgInterval := Some (Int 14) |} ].
Proof. reflexivity. Qed.

(** ** Completions *)

Lemma forEach_app {A S} (f : S -> A -> completion S) (xs ys : list A) (s : S) :
  forEach f (xs ++ ys) s = s' <- forEach f xs s ;; forEach f ys s'.
Proof.
  revert s; induction xs as [|x xs IH]; intros s; cbn [app forEach bind].
  - reflexivity.
  - destruct (f s x) as [s'|e]; cbn [bind]; [apply IH | reflexivity].
Qed.

(** A loop whose callback never throws and keeps [P] returns a state in [P]. *)
Lemma forEach_invariant {A S} (f : S -> A -> completion S) (P : S -> Prop)
    (Q : A -> Prop) (xs : list A) :
  (forall s x, P s -> Q x -> exists s', f s x = Return s' /\ P s') ->
  Forall Q xs ->
  forall s, P s -> exists s', forEach f xs s = Return s' /\ P s'.
Proof.
  intros Hf HQ. induction HQ as [|x xs Hx _ IH]; intros s Hs; cbn [forEach].
  - now exists s.
  - destruct (Hf s x Hs Hx) as (s1 & -> & H1). cbn [bind]. now apply IH.
Qed.

(** ** The IP classifier *)

Lemma find_ip (addr : jsstring) (ips : list IPRecord) :
  match find (fun item => streq (ip item) addr) ips with
  | Some _ => In addr (map ip ips)
  | None => ~ In addr (map ip ips)
  end.
Proof.
  destruct (find _ ips) as [r|] eqn:E.
  - apply find_some in E as [Hin Hs]. apply streq_eq in Hs. subst addr.
    now apply in_map.
  - intros Hin. apply in_map_iff in Hin as (r & <- & Hr).
    pose proof (find_none _ _ E r Hr) as N. cbv beta in N.
    now rewrite streq_refl in N.
Qed.

(** What one block does to the records. *)
Lemma analyzeIPs_block_spec (ips : list IPRecord) (block : jsstring) :
  exists firstLine rest,
    splitLines block = firstLine :: rest /\
    analyzeIPs_block ips block =
    Return match matchAnchored ipPattern firstLine with
           | Some addr =>
               if existsb (streq addr) (map ip ips) then ips
               else ips ++ [recordOf addr (firstLine :: rest)]
           | None => ips
           end.
Proof.
  unfold analyzeIPs_block.
  destruct (splitLines block) as [|firstLine rest] eqn:E;
    [now apply splitLines_nonempty in E|].
  exists firstLine, rest. split; [reflexivity|].
  destruct (matchAnchored ipPattern firstLine) as [addr|]; [|reflexivity].
  pose proof (find_ip addr ips) as F.
  destruct (find _ ips).
  - apply existsb_streq in F. now rewrite F.
  - apply existsb_streq_false in F. now rewrite F.
Qed.

Lemma analyzeIPs_block_invariant (ips : list IPRecord) (block : jsstring) :
  wellFormedIPs ips ->
  exists ips', analyzeIPs_block ips block = Return ips' /\ wellFormedIPs ips'.
Proof.
  intros [Hnd Hint].
  destruct (analyzeIPs_block_spec ips block) as (firstLine & rest & _ & ->).
  eexists; split; [reflexivity|].
  destruct (matchAnchored ipPattern firstLine) as [addr|]; [|now split].
  destruct (existsb (streq addr) (map ip ips)) eqn:E; [now split|].
  split.
  - rewrite map_app. cbn [map recordOf ip].
    apply NoDup_app; [exact Hnd | repeat constructor; intros [] | ].
    intros a Ha [Ea|[]]. subst a.
    apply existsb_streq in Ha. congruence.
  - apply Forall_app. split; [exact Hint|]. now repeat constructor.
Qed.

Lemma analyzeIPs_wellFormed (blocks : list jsstring) :
  exists ips, analyzeIPs blocks = Return ips /\ wellFormedIPs ips.
Proof.
  apply (forEach_invariant analyzeIPs_block wellFormedIPs (fun _ => True)).
  - intros s x Hs _. now apply analyzeIPs_block_invariant.
  - apply Forall_forall. trivial.
  - split; constructor.
Qed.

Lemma analyzeIPs_snoc (blocks : list jsstring) (ips : list IPRecord) (block : jsstring) :
  analyzeIPs blocks = Return ips ->
  analyzeIPs (blocks ++ [block]) = analyzeIPs_block ips block.
Proof.
  intros H. unfold analyzeIPs in *. rewrite forEach_app, H. cbn [bind forEach].
  now destruct (analyzeIPs_block ips block).
Qed.

(** The records are those of the first blocks that begin with their
    addresses, and every leading address has its record. *)
Lemma analyzeIPs_first_blocks (blocks : list jsstring) :
  forall ips,
    analyzeIPs blocks = Return ips ->
    (forall r, In r ips ->
       exists before block after firstLine rest,
         blocks = before ++ block :: after /\
         splitLines block = firstLine :: rest /\
         matchAnchored ipPattern firstLine = Some (ip r) /\
         r = recordOf (ip r) (firstLine :: rest) /\
         Forall (fun b => leadingAddress b <> Some (ip r)) before) /\
    (forall block addr,
       In block blocks -> leadingAddress block = Some addr -> In addr (map ip ips)).
Proof.
  induction blocks as [|b blocks IH] using rev_ind; intros ips H.
  - injection H as <-. split; [intros r []|intros block addr []].
  - destruct (analyzeIPs_wellFormed blocks) as (ips0 & E0 & _).
    rewrite (analyzeIPs_snoc blocks ips0 b E0) in H.
    destruct (IH ips0 E0) as [Hrec Hall].
    destruct (analyzeIPs_block_spec ips0 b) as (firstLine & rest & Hl & Hb).
    rewrite Hb in H. injection H as <-.
    assert (Old : forall r, In r ips0 ->
              exists before block after firstLine rest,
                blocks ++ [b] = before ++ block :: after /\
                splitLines block = firstLine :: rest /\
                matchAnchored ipPattern firstLine = Some (ip r) /\
                r = recordOf (ip r) (firstLine :: rest) /\
                Forall (fun b => leadingAddress b <> Some (ip r)) before).
    { intros r Hr.
      destruct (Hrec r Hr) as (before & block & after & f & t & -> & H1 & H2 & H3 & H4).
      exists before, block, (after ++ [b]), f, t. repeat split; auto.
      now rewrite <- app_assoc. }
    assert (Lb : leadingAddress b = matchAnchored ipPattern firstLine)
      by (unfold leadingAddress; now rewrite Hl).
    destruct (matchAnchored ipPattern firstLine) as [addr|] eqn:M.
    + destruct (existsb (streq addr) (map ip ips0)) eqn:Ex.
      * split; [exact Old|]. intros block a Hin Ha.
        apply in_app_or in Hin as [Hin|[<-|[]]]; [now apply (Hall block)|].
        rewrite Lb in Ha. injection Ha as <-. now apply existsb_streq.
      * split.
        -- intros r Hr. apply in_app_or in Hr as [Hr|[<-|[]]]; [now apply Old|].
           exists blocks, b, [], firstLine, rest. cbn [recordOf ip]. repeat split; auto.
           apply Forall_forall. intros x Hx Hx'.
           apply (Hall x addr Hx) in Hx'. apply existsb_streq in Hx'. congruence.
        -- intros block a Hin Ha. rewrite map_app. apply in_or_app.
           apply in_app_or in Hin as [Hin|[<-|[]]]; [left; now apply (Hall block)|].
           rewrite Lb in Ha. injection Ha as <-. right. now left.
    + split; [exact Old|]. intros block a Hin Ha.
      apply in_app_or in Hin as [Hin|[<-|[]]]; [now apply (Hall block)|].
      rewrite Lb in Ha. discriminate.
Qed.

(** C5.  [analyzeIPs] always returns, and its records have pairwise
    different addresses.  A block whose leading address is already recorded
    changes nothing, and so does a block that does not begin with an
    address; a block with a new leading address appends the record of that
    block.  So every address that begins a block has a record, and the
    record of an address is that of the first block that begins with it,
    whatever blocks come between and after. *)
Theorem analyzeIPs_unique_addresses :
  (forall blocks, exists ips, analyzeIPs blocks = Return ips /\ NoDup (map ip ips))
  /\
  (forall blocks ips block firstLine rest addr,
      analyzeIPs blocks = Return ips ->
      splitLines block = firstLine :: rest ->
      matchAnchored ipPattern firstLine = Some addr ->
      (In addr (map ip ips) -> analyzeIPs (blocks ++ [block]) = Return ips) /\
      (~ In addr (map ip ips) ->
       analyzeIPs (blocks ++ [block])
       = Return (ips ++ [recordOf addr (firstLine :: rest)])))
  /\
  (forall blocks ips block firstLine rest,
      analyzeIPs blocks = Return ips ->
      splitLines block = firstLine :: rest ->
      matchAnchored ipPattern firstLine = None ->
      analyzeIPs (blocks ++ [block]) = Return ips)
  /\
  (forall blocks ips,
      analyzeIPs blocks = Return ips ->
      (forall r, In r ips ->
         exists before block after firstLine rest,
           blocks = before ++ block :: after /\
           splitLines block = firstLine :: rest /\
           matchAnchored ipPattern firstLine = Some (ip r) /\
           r = recordOf (ip r) (firstLine :: rest) /\
           Forall (fun b => leadingAddress b <> Some (ip r)) before) /\
      (forall block addr,
         In block blocks -> leadingAddress block = Some addr ->
         In addr (map ip ips))).
Proof.
  split; [|split; [|split]].
  - intros blocks. destruct (analyzeIPs_wellFormed blocks) as (ips & E & Hnd & _).
    now exists ips.
  - intros blocks ips block firstLine rest addr Hips Hlines Hm.
    rewrite (analyzeIPs_snoc blocks ips block Hips).
    destruct (analyzeIPs_block_spec ips block) as (f & r & Hl & ->).
    rewrite Hlines in Hl. injection Hl as <- <-. rewrite Hm.
    split; intros H.
    + apply existsb_streq in H. now rewrite H.
    + apply existsb_streq_false in H. now rewrite H.
  - intros blocks ips block firstLine rest Hips Hlines Hm.
    rewrite (analyzeIPs_snoc blocks ips block Hips).
    destruct (analyzeIPs_block_spec ips block) as (f & r & Hl & ->).
    rewrite Hlines in Hl. injection Hl as <- <-. now rewrite Hm.
  - intros blocks ips. apply analyzeIPs_first_blocks.
Qed.

Lemma analyzeIPs_unique_addresses_witness :
  analyzeIPs ([lit "10.0.0.1 first"; lit "no address"] ++ [lit "10.0.0.1 second"])
  = Return [recordOf (lit "10.0.0.1") [lit "10.0.0.1 first"]].
Proof.
  refine (proj1 (proj1 (proj2 analyzeIPs_unique_addresses)
                   [lit "10.0.0.1 first"; lit "no address"] _ (lit "10.0.0.1 second")
                   (lit "10.0.0.1 second") [] (lit "10.0.0.1") _ _ _) _).
  - reflexivity.
  - reflexivity.
  - reflexivity.
  - left. reflexivity.
Defined.

(** C6.  A record of [analyzeIPs] is internal exactly when its address
    begins with "10."; addresses in 172.16.x.x and 192.168.x.x, and
    addresses such as 100.x.x.x, are external. *)
Theorem internal_iff_prefix_10 :
  (forall blocks ips r,
      analyzeIPs blocks = Return ips -> In r ips ->
      (isInternal r = true <-> exists rest, ip r = lit "10." ++ rest))
  /\ analyzeIPs [lit "172.16.0.9 a"; lit "192.168.1.20 b"; lit "10.2.3.4 c";
                 lit "100.1.1.1 d"]
     = Return [ {| ip := lit "172.16.0.9"; isInternal := false; requests := [] |};
                {| ip := lit "192.168.1.20"; isInternal := false; requests := [] |};
                {| ip := lit "10.2.3.4"; isInternal := true; requests := [] |};
                {| ip := lit "100.1.1.1"; isInternal := false; requests := [] |} ].
Proof.
  split; [|reflexivity].
  intros blocks ips r Hips Hr.
  destruct (analyzeIPs_wellFormed blocks) as (ips' & E & _ & Hint).
  rewrite Hips in E. injection E as <-.
  rewrite Forall_forall in Hint. rewrite (Hint r Hr).
  apply startsWith_prefix.
Qed.

Lemma internal_iff_prefix_10_witness :
  isInternal (recordOf (lit "10.0.0.1") [lit "10.0.0.1 first"]) = true
  <-> exists rest, ip (recordOf (lit "10.0.0.1") [lit "10.0.0.1 first"]) = lit "10." ++ rest.
Proof.
  apply (proj1 internal_iff_prefix_10 [lit "10.0.0.1 first"]
           [recordOf (lit "10.0.0.1") [lit "10.0.0.1 first"]]).
  - reflexivity.
  - left. reflexivity.
Defined.

(** ** The matcher *)

(** What a successful match of one atom says about the string. *)
Lemma matchRep_sound (p : char -> bool) (k : jsstring -> option (list jsstring))
    (s : jsstring) :
  forall l h acc ps,
    matchRep p k l h acc s = Some ps ->
    exists piece rest ps',
      ps = (rev acc ++ piece) :: ps' /\ s = piece ++ rest /\
      Forall (fun c => p c = true) piece /\ l <= List.length piece /\
      k rest = Some ps'.
Proof.
  induction s as [|c s IH]; intros l h acc ps H; cbn [matchRep] in H.
  - destruct l; [|discriminate].
    destruct (k []) as [ps'|] eqn:K; [|discriminate]. injection H as <-.
    exists [], [], ps'. rewrite app_nil_r. repeat split; auto.
  - assert (Stop : match l with
                   | O => option_map (cons (rev acc)) (k (c :: s))
                   | S _ => None
                   end = Some ps ->
                   exists piece rest ps',
                     ps = (rev acc ++ piece) :: ps' /\ c :: s = piece ++ rest /\
                     Forall (fun c => p c = true) piece /\ l <= List.length piece /\
                     k rest = Some ps').
    { intros H'. destruct l; [|discriminate].
      destruct (k (c :: s)) as [ps'|] eqn:K; [|discriminate]. injection H' as <-.
      exists [], (c :: s), ps'. rewrite app_nil_r. repeat split; auto. }
    destruct (p c && hasRoom h) eqn:E; [|now apply Stop].
    destruct (matchRep p k (pred l) (lessRoom h) (c :: acc) s) as [r|] eqn:M;
      [|now apply Stop].
    injection H as <-. apply andb_true_iff in E as [Hp _].
    destruct (IH _ _ _ _ M) as (piece & rest & ps' & -> & -> & Hall & Hlen & K).
    exists (c :: piece), rest, ps'. cbn [rev] . rewrite <- app_assoc.
    repeat split; auto. cbn [List.length]. lia.
Qed.

(** A match of [/\n\s*\n/] begins with a blank-line separator. *)
Lemma blankLine_sound (s : jsstring) (ps : list jsstring) :
  matchSeq blankLine s = Some ps ->
  exists w b, Forall (fun c => isWhiteSpace c = true) w /\ s = LF :: w ++ LF :: b.
Proof.
  unfold blankLine. cbn [matchSeq cls lo hi chr one]. intros H.
  apply matchRep_sound in H as (p1 & r1 & ps1 & _ & -> & A1 & L1 & H).
  apply matchRep_sound in H as (p2 & r2 & ps2 & _ & -> & A2 & _ & H).
  apply matchRep_sound in H as (p3 & r3 & ps3 & _ & -> & A3 & L3 & _).
  assert (LFs : forall p, Forall (fun c => N.eqb LF c = true) p ->
                          Forall (fun c => isWhiteSpace c = true) p).
  { intros p. apply Forall_impl. intros c Hc. apply N.eqb_eq in Hc. now subst c. }
  destruct p1 as [|c1 p1]; [cbn in L1; lia|].
  destruct p3 as [|c3 p3]; [cbn in L3; lia|].
  inversion A1 as [|? ? E1 A1']; subst. inversion A3 as [|? ? E3 A3']; subst.
  apply N.eqb_eq in E1, E3. subst c1 c3.
  exists (p1 ++ p2), (p3 ++ r3). split.
  - apply Forall_app. split; [now apply LFs | exact A2].
  - cbn [app]. now rewrite <- !app_assoc.
Qed.

Lemma no_blankLine_match (content a b : jsstring) :
  ~ hasBlankLine content -> content = a ++ b -> matchSeq blankLine b = None.
Proof.
  intros Hno ->. destruct (matchSeq blankLine b) as [ps|] eqn:M; [|reflexivity].
  exfalso. apply Hno. apply blankLine_sound in M as (w & b' & Hw & ->).
  now exists a, w, b'.
Qed.

(** ** The block splitter *)

Lemma splitGo_no_match (sep : list atom) (s : jsstring) :
  forall cur,
    (forall a b, s = a ++ b -> matchSeq sep b = None) ->
    splitGo sep s 0 cur = [rev cur ++ s].
Proof.
  induction s as [|c s IH]; intros cur H; cbn [splitGo].
  - now rewrite app_nil_r.
  - rewrite (H [] (c :: s) eq_refl). cbn [option_map].
    rewrite IH.
    + cbn [rev]. now rewrite <- app_assoc.
    + intros a b ->. apply (H (c :: a) b). reflexivity.
Qed.

Lemma splitRegex_no_blankLine (content : jsstring) :
  ~ hasBlankLine content -> splitRegex blankLine content = [content].
Proof.
  intros Hno. destruct content as [|c s]; [reflexivity|].
  unfold splitRegex. apply (splitGo_no_match blankLine (c :: s) []).
  intros a b E. exact (no_blankLine_match (c :: s) a b Hno E).
Qed.

Lemma splitGo_Forall (P : char -> Prop) (sep : list atom) (s : jsstring) :
  forall skip cur,
    Forall P s -> Forall P cur ->
    Forall (Forall P) (splitGo sep s skip cur).
Proof.
  induction s as [|c s IH]; intros skip cur Hs Hc; cbn [splitGo].
  - repeat constructor. now apply Forall_rev.
  - inversion Hs as [|? ? Pc Ps]; subst.
    assert (R : Forall P (rev cur)) by now apply Forall_rev.
    destruct skip; [|now apply IH].
    destruct (option_map (fun ps => List.length (concat ps)) (matchSeq sep (c :: s)))
      as [[|n]|].
    + destruct cur; [apply IH | constructor; [exact R | apply IH]]; auto.
    + constructor; [exact R | apply IH]; auto.
    + apply IH; auto.
Qed.

Lemma splitRegex_Forall (P : char -> Prop) (sep : list atom) (s : jsstring) :
  Forall P s -> Forall (Forall P) (splitRegex sep s).
Proof.
  intros H. destruct s as [|c s]; cbn [splitRegex].
  - destruct (matchSeq sep []); repeat constructor.
  - now apply splitGo_Forall.
Qed.

Lemma dropWhile_nil (p : char -> bool) (s : jsstring) :
  dropWhile p s = [] <-> forallb p s = true.
Proof.
  induction s as [|c s IH]; cbn [dropWhile forallb]; [tauto|].
  destruct (p c); cbn [andb]; [exact IH | split; discriminate].
Qed.

Lemma trim_nil (s : jsstring) : trim s = [] <-> forallb isWhiteSpace s = true.
Proof.
  unfold trim. split.
  - intros H. apply (f_equal (@rev char)) in H. rewrite rev_involutive in H.
    cbn [rev] in H. apply dropWhile_nil in H.
    rewrite forallb_forall in H.
    destruct (dropWhile isWhiteSpace s) as [|c t] eqn:D; [now apply dropWhile_nil|].
    exfalso. assert (Hc : isWhiteSpace c = true)
      by (apply H; apply in_rev; rewrite rev_involutive; now left).
    clear H. induction s as [|x s IH]; cbn [dropWhile] in D; [discriminate|].
    destruct (isWhiteSpace x) eqn:X; [now apply IH|].
    injection D as -> ->. congruence.
  - intros H. apply dropWhile_nil in H. now rewrite H.
Qed.

Lemma splitIntoBlocks_whitespace (content : jsstring) :
  forallb isWhiteSpace content = true -> splitIntoBlocks content = [].
Proof.
  intros H. unfold splitIntoBlocks.
  assert (F : Forall (Forall (fun c => isWhiteSpace c = true))
                     (splitRegex blankLine content)).
  { apply splitRegex_Forall. apply Forall_forall. now apply forallb_forall. }
  induction F as [|piece pieces Hp _ IH]; [reflexivity|].
  cbn [map filter].
  replace (trim piece) with (@nil char); [exact IH|].
  symmetry. apply trim_nil. apply forallb_forall. now apply Forall_forall.
Qed.

Lemma splitIntoBlocks_no_blankLine (content : jsstring) :
  ~ hasBlankLine content ->
  splitIntoBlocks content
  = if forallb isWhiteSpace content then [] else [trim content].
Proof.
  intros Hno. unfold splitIntoBlocks.
  rewrite (splitRegex_no_blankLine content Hno). cbn [map filter].
  destruct (forallb isWhiteSpace content) eqn:W.
  - apply trim_nil in W. now rewrite W.
  - destruct (trim content) as [|c t] eqn:T; [|reflexivity].
    apply trim_nil in T. congruence.
Qed.

Lemma blankAhead_spec (s : jsstring) :
  blankAhead s = true <->
  exists w b, Forall (fun c => isWhiteSpace c = true) w /\ s = w ++ LF :: b.
Proof.
  induction s as [|c s IH]; cbn [blankAhead].
  - split; [discriminate|]. intros (w & b & _ & E). now destruct w.
  - destruct (N.eqb_spec c LF) as [->|Hc].
    + split; [|reflexivity]. intros _. now exists [], s.
    + destruct (isWhiteSpace c) eqn:W.
      * rewrite IH. split.
        -- intros (w & b & Hw & ->). exists (c :: w), b. split; [now constructor | reflexivity].
        -- intros (w & b & Hw & E). destruct w as [|x w]; injection E as -> ->.
           ++ contradiction.
           ++ inversion Hw; subst. now exists w, b.
      * split; [discriminate|]. intros (w & b & Hw & E).
        destruct w as [|x w]; injection E as -> ->; [contradiction|].
        inversion Hw; subst. congruence.
Qed.

Lemma hasBlankLineb_spec (s : jsstring) :
  hasBlankLineb s = true <-> hasBlankLine s.
Proof.
  unfold hasBlankLine. induction s as [|c s IH]; cbn [hasBlankLineb].
  - split; [discriminate|]. intros (a & w & b & _ & E). now destruct a.
  - rewrite orb_true_iff, andb_true_iff, N.eqb_eq, blankAhead_spec, IH. split.
    + intros [[-> (w & b & Hw & ->)]|(a & w & b & Hw & ->)].
      * now exists [], w, b.
      * now exists (c :: a), w, b.
    + intros (a & w & b & Hw & E). destruct a as [|x a]; injection E as -> ->.
      * left. split; [reflexivity | now exists w, b].
      * right. now exists a, w, b.
Qed.

(** C8.  Content without a blank-line separator makes exactly one block, its
    trimmed text, unless it is empty or white space only; such content
    makes no block, with or without separators.  The analysis of the empty
    input has no block, no IP record, no user record and no breach. *)
Theorem splitter_without_separator :
  (forall content,
      ~ hasBlankLine content ->
      splitIntoBlocks content
      = if forallb isWhiteSpace content then [] else [trim content])
  /\ (forall content,
         forallb isWhiteSpace content = true -> splitIntoBlocks content = [])
  /\ (forall parseDate,
         parseLogContent parseDate []
         = Return {| ipAnalysis := []; userAnalysis := []; isBreach := false;
                     stats := {| totalBlocks := 0; totalIPs := 0; internalIPs := 0;
                                 externalIPs := 0; suspiciousUsers := 0 |} |}).
Proof.
  split; [exact splitIntoBlocks_no_blankLine|].
  split; [exact splitIntoBlocks_whitespace | reflexivity].
Qed.

Lemma splitter_without_separator_witness :
  splitIntoBlocks (lit " 10.0.0.1 up ") = [lit "10.0.0.1 up"].
Proof.
  refine (proj1 splitter_without_separator (lit " 10.0.0.1 up ") _).
  intros H. apply hasBlankLineb_spec in H. vm_compute in H. discriminate.
Defined.

(** ** The pipeline *)

Lemma analyzeIPs_total (blocks : list jsstring) :
  exists ips, analyzeIPs blocks = Return ips.
Proof.
  destruct (analyzeIPs_wellFormed blocks) as (ips & E & _). now exists ips.
Qed.

(** The result of [parseLogContent], when it returns one. *)
Lemma parseLogContent_inv (parseDate : jsstring -> date) (content : jsstring)
    (r : Analysis) :
  parseLogContent parseDate content = Return r ->
  exists ips users,
    analyzeIPs (splitIntoBlocks content) = Return ips /\
    analyzeUserBehavior parseDate (splitIntoBlocks content) = Return users /\
    r = {| ipAnalysis := ips;
           userAnalysis := users;
           isBreach := determineBreach ips users;
           stats :=
             {| totalBlocks := List.length (splitIntoBlocks content);
                totalIPs := List.length ips;
                internalIPs := List.length (filter (fun i => isInternal i) ips);
                externalIPs := List.length (filter (fun i => negb (isInternal i)) ips);
                suspiciousUsers :=
                  List.length (filter (fun u => isSuspicious u) users) |} |}.
Proof.
  unfold parseLogContent. intros H.
  destruct (analyzeIPs (splitIntoBlocks content)) as [ips|e]; [|discriminate].
  cbn [bind] in H.
  destruct (analyzeUserBehavior parseDate (splitIntoBlocks content)) as [users|e];
    [|discriminate].
  cbn [bind] in H. injection H as <-. now exists ips, users.
Qed.

Lemma determineBreach_spec (ips : list IPRecord) (users : list UserRecord) :
  determineBreach ips users = true <->
  (exists i, In i ips /\ isInternal i = false) \/
  (exists u, In u users /\ isSuspicious u = true).
Proof.
  unfold determineBreach. rewrite orb_true_iff, !existsb_exists.
  split; intros [(x & Hx & H)|(x & Hx & H)]; [left|right|left|right];
    exists x; split; auto.
  - now apply negb_true_iff in H.
  - now apply negb_true_iff.
Qed.

Lemma filter_nonempty {A} (f : A -> bool) (l : list A) :
  0 < List.length (filter f l) <-> exists x, In x l /\ f x = true.
Proof.
  split.
  - destruct (filter f l) as [|x t] eqn:E; cbn [List.length]; [lia|]. intros _.
    exists x. apply filter_In. rewrite E. now left.
  - intros (x & Hx & Hf). assert (H : In x (filter f l)) by now apply filter_In.
    destruct (filter f l); [destruct H | cbn [List.length]; lia].
Qed.

Lemma sampleLog_analysis : parseLogContent sampleDate sampleLog = Return sampleAnalysis.
Proof. vm_compute. reflexivity. Qed.

(** C4.  The verdict of a returned analysis is a breach exactly when some
    IP record is external or some user record is suspicious.  It is a breach
    as soon as [stats.externalIPs] is positive, and it is not when every IP
    record is internal and no user record is suspicious. *)
Theorem breach_iff_external_or_suspicious :
  forall parseDate content r,
    parseLogContent parseDate content = Return r ->
    (isBreach r = true <->
     (exists i, In i (ipAnalysis r) /\ isInternal i = false) \/
     (exists u, In u (userAnalysis r) /\ isSuspicious u = true))
    /\ (0 < externalIPs (stats r) -> isBreach r = true)
    /\ ((forall i, In i (ipAnalysis r) -> isInternal i = true) ->
        (forall u, In u (userAnalysis r) -> isSuspicious u = false) ->
        isBreach r = false).
Proof.
  intros parseDate content r H.
  apply parseLogContent_inv in H as (ips & users & _ & _ & ->).
  cbn [isBreach ipAnalysis userAnalysis stats externalIPs].
  pose proof (determineBreach_spec ips users) as B.
  split; [exact B|]. split.
  - intros Hext. apply B. left.
    apply filter_nonempty in Hext as (i & Hi & Hn). exists i. split; [exact Hi|].
    now apply negb_true_iff in Hn.
  - intros Hint Hsus. apply not_true_is_false. intros T. apply B in T.
    destruct T as [(i & Hi & F)|(u & Hu & T)].
    + rewrite (Hint i Hi) in F. discriminate.
    + rewrite (Hsus u Hu) in T. discriminate.
Qed.

Lemma breach_iff_external_or_suspicious_witness :
  externalIPs (stats sampleAnalysis) = 1 /\ isBreach sampleAnalysis = true.
Proof.
  split; [reflexivity|].
  refine (proj1 (proj2 (breach_iff_external_or_suspicious sampleDate sampleLog
                          sampleAnalysis _)) _).
  - vm_compute. reflexivity.
  - vm_compute. lia.
Defined.

(** C10.  In a returned analysis, [totalIPs] is the number of IP records and
    the sum of [internalIPs] and [externalIPs]; [suspiciousUsers] is the
    number of user records marked suspicious; [totalBlocks] is the number
    of blocks of the input. *)
Theorem stats_consistent :
  forall parseDate content r,
    parseLogContent parseDate content = Return r ->
    totalIPs (stats r) = internalIPs (stats r) + externalIPs (stats r)
    /\ totalIPs (stats r) = List.length (ipAnalysis r)
    /\ internalIPs (stats r)
       = count_occ bool_dec (map isInternal (ipAnalysis r)) true
    /\ externalIPs (stats r)
       = count_occ bool_dec (map isInternal (ipAnalysis r)) false
    /\ suspiciousUsers (stats r)
       = count_occ bool_dec (map isSuspicious (userAnalysis r)) true
    /\ totalBlocks (stats r) = List.length (splitIntoBlocks content).
Proof.
  intros parseDate content r H.
  apply parseLogContent_inv in H as (ips & users & _ & _ & ->).
  cbn [stats ipAnalysis userAnalysis totalIPs internalIPs externalIPs
       suspiciousUsers totalBlocks].
  assert (C : forall {A} (f : A -> bool) (l : list A) (b : bool),
             List.length (filter (fun x => Bool.eqb (f x) b) l)
             = count_occ bool_dec (map f l) b).
  { intros A f l b. induction l as [|x l IH]; [reflexivity|].
    cbn [filter map count_occ].
    destruct (bool_dec (f x) b) as [E|E].
    - rewrite E, eqb_reflx. cbn [List.length]. now rewrite IH.
    - apply eqb_false_iff in E. now rewrite E. }
  repeat split.
  - symmetry. apply filter_length.
  - rewrite <- C. apply (f_equal (@List.length _)). apply filter_ext. intros i. now destruct (isInternal i).
  - rewrite <- C. apply (f_equal (@List.length _)). apply filter_ext. intros i. now destruct (isInternal i).
  - rewrite <- C. apply (f_equal (@List.length _)). apply filter_ext. intros u. now destruct (isSuspicious u).
Qed.

Lemma stats_consistent_witness :
  totalIPs (stats sampleAnalysis)
  = internalIPs (stats sampleAnalysis) + externalIPs (stats sampleAnalysis).
Proof.
  refine (proj1 (stats_consistent sampleDate sampleLog sampleAnalysis _)).
  vm_compute. reflexivity.
Defined.

(** C3 (as amended).  The object that [parseLogContent] returns has the
    properties [ipAnalysis], [userAnalysis], [isBreach] and [stats], and
    [stats] has the properties [totalBlocks], [totalIPs], [internalIPs],
    [externalIPs] and [suspiciousUsers]. *)
Theorem result_property_names :
  forall parseDate content r,
    parseLogContent parseDate content = Return r ->
    keys (objectOfAnalysis r)
    = ["ipAnalysis"; "userAnalysis"; "isBreach"; "stats"]%string
    /\ option_map keys (field "stats" (objectOfAnalysis r))
       = Some ["totalBlocks"; "totalIPs"; "internalIPs"; "externalIPs";
               "suspiciousUsers"]%string.
Proof. intros parseDate content r _. split; reflexivity. Qed.

Lemma result_property_names_witness :
  keys (objectOfAnalysis sampleAnalysis)
  = ["ipAnalysis"; "userAnalysis"; "isBreach"; "stats"]%string.
Proof.
  refine (proj1 (result_property_names sampleDate sampleLog sampleAnalysis _)).
  vm_compute. reflexivity.
Defined.

Lemma result_has_no_ipRecords :
  exists r,
    parseLogContent sampleDate sampleLog = Return r /\
    keys (objectOfAnalysis r)
    <> ["ipRecords"; "userRecords"; "isBreach"; "stats"]%string /\
    field "ipRecords" (objectOfAnalysis r) = None /\
    field "userRecords" (objectOfAnalysis r) = None.
Proof.
  exists sampleAnalysis. split; [vm_compute; reflexivity|].
  split; [discriminate | split; reflexivity].
Qed.

(** ** Failure of the grouping loop *)

Lemma pushTo_keys (o : object) (k : jsstring) (r : Request) :
  map fst (pushTo o k r) = map fst o.
Proof.
  induction o as [|[k' rs] o IH]; [reflexivity|]. cbn [pushTo].
  destruct (streq k' k); cbn [map fst]; [reflexivity | now rewrite IH].
Qed.

Lemma ownKeysFresh_keys (o o' : object) :
  map fst o' = map fst o -> ownKeysFresh o -> ownKeysFresh o'.
Proof.
  unfold ownKeysFresh. intros E H.
  apply (Forall_map fst (fun k => inherited k = false)).
  rewrite E. now apply Forall_map.
Qed.

Lemma getProp_inherited (o : object) (k : jsstring) :
  ownKeysFresh o -> inherited k = true -> getProp o k = Inherited.
Proof.
  intros Ho Hk. unfold getProp.
  destruct (find (fun kv => streq (fst kv) k) o) as [kv|] eqn:F.
  - apply find_some in F as [Hin Hs]. apply streq_eq in Hs.
    unfold ownKeysFresh in Ho. rewrite Forall_forall in Ho.
    specialize (Ho kv Hin). congruence.
  - fold (inherited k). now rewrite Hk.
Qed.

Lemma recordRequest_spec (o : object) (k : jsstring) (r : Request) :
  ownKeysFresh o ->
  if inherited k then recordRequest o k r = Throw TypeError
  else exists o', recordRequest o k r = Return o' /\ ownKeysFresh o'.
Proof.
  intros Ho. destruct (inherited k) eqn:Hk; unfold recordRequest.
  - now rewrite getProp_inherited.
  - unfold getProp. fold (inherited k). rewrite Hk.
    destruct (find (fun kv => streq (fst kv) k) o).
    + eexists; split; [reflexivity|].
      apply (ownKeysFresh_keys o); [apply pushTo_keys | exact Ho].
    + eexists; split; [reflexivity|].
      apply (ownKeysFresh_keys (o ++ [(k, [])])); [apply pushTo_keys|].
      apply Forall_app. split; [exact Ho | now repeat constructor].
Qed.

Section Failure.

Variable parseDate : jsstring -> date.

Lemma extractTimestamp_found (line : jsstring) :
  (exists d, extractTimestamp parseDate line = Some d) <->
  existsb (fun p => match matchFirst p line with Some _ => true | None => false end)
          patterns = true.
Proof.
  unfold extractTimestamp. induction patterns as [|p ps IH]; cbn [existsb].
  - split; [intros [d H]; discriminate | discriminate].
  - destruct (matchFirst p line) as [g|]; cbn [orb]; [|exact IH].
    split; [reflexivity | intros _; now eexists].
Qed.

(** A line in which the user token or the timestamp is absent is
    passed over: it neither throws nor changes the groups. *)
Theorem analyzeUserBehavior_line_absent (o : object) (line : jsstring) :
  matchFirst userIdPattern line = None \/ extractTimestamp parseDate line = None ->
  analyzeUserBehavior_line parseDate o line = Return o.
Proof.
  unfold analyzeUserBehavior_line. intros [-> | ->]; [reflexivity|].
  now destruct (matchFirst userIdPattern line).
Qed.

Lemma analyzeUserBehavior_line_spec (o : object) (line : jsstring) :
  ownKeysFresh o ->
  if poisonous line
  then analyzeUserBehavior_line parseDate o line = Throw TypeError
  else exists o', analyzeUserBehavior_line parseDate o line = Return o'
                  /\ ownKeysFresh o'.
Proof.
  intros Ho. unfold poisonous, analyzeUserBehavior_line.
  pose proof (extractTimestamp_found line) as T.
  destruct (matchFirst userIdPattern line) as [k|]; [|now exists o].
  destruct (extractTimestamp parseDate line) as [d|].
  - replace (existsb _ patterns) with true
      by (symmetry; apply T; now exists d).
    rewrite andb_true_r.
    exact (recordRequest_spec o k {| timestamp := d; request := trim line |} Ho).
  - replace (existsb _ patterns) with false.
    + rewrite andb_false_r. now exists o.
    + symmetry. apply not_true_is_false. intros E. apply T in E as [d E]. discriminate.
Qed.

Lemma analyzeUserBehavior_block_spec (o : object) (block : jsstring) :
  ownKeysFresh o ->
  if existsb poisonous (splitLines block)
  then analyzeUserBehavior_block parseDate o block = Throw TypeError
  else exists o', analyzeUserBehavior_block parseDate o block = Return o'
                  /\ ownKeysFresh o'.
Proof.
  unfold analyzeUserBehavior_block. generalize (splitLines block) as lines.
  intros lines; revert o; induction lines as [|line lines IH]; intros o Ho;
    cbn [existsb forEach].
  - now exists o.
  - pose proof (analyzeUserBehavior_line_spec o line Ho) as L.
    destruct (poisonous line); cbn [orb].
    + now rewrite L.
    + destruct L as (o' & -> & Ho'). cbn [bind]. now apply IH.
Qed.

Lemma collectUserRequests_spec (blocks : list jsstring) :
  if existsb (fun block => existsb poisonous (splitLines block)) blocks
  then collectUserRequests parseDate blocks = Throw TypeError
  else exists o, collectUserRequests parseDate blocks = Return o.
Proof.
  unfold collectUserRequests.
  assert (G : forall o, ownKeysFresh o ->
              if existsb (fun block => existsb poisonous (splitLines block)) blocks
              then forEach (analyzeUserBehavior_block parseDate) blocks o = Throw TypeError
              else exists o', forEach (analyzeUserBehavior_block parseDate) blocks o
                              = Return o').
  { induction blocks as [|block blocks IH]; intros o Ho; cbn [existsb forEach].
    - now exists o.
    - pose proof (analyzeUserBehavior_block_spec o block Ho) as B.
      destruct (existsb poisonous (splitLines block)); cbn [orb].
      + now rewrite B.
      + destruct B as (o' & -> & Ho'). cbn [bind]. now apply IH. }
  apply G. constructor.
Qed.

(** X1.  [parseLogContent] throws a TypeError exactly on the inputs with a
    poisonous line, and returns a result on every other input. *)
Theorem parseLogContent_spec (content : jsstring) :
  if existsb (fun block => existsb poisonous (splitLines block))
             (splitIntoBlocks content)
  then parseLogContent parseDate content = Throw TypeError
  else exists r, parseLogContent parseDate content = Return r.
Proof.
  unfold parseLogContent, analyzeUserBehavior.
  destruct (analyzeIPs_total (splitIntoBlocks content)) as (ips & ->). cbn [bind].
  pose proof (collectUserRequests_spec (splitIntoBlocks content)) as C.
  destruct (existsb _ (splitIntoBlocks content)).
  - now rewrite C.
  - destruct C as (o & ->). cbn [bind]. now eexists.
Qed.

End Failure.

Lemma analyzeUserBehavior_line_absent_witness :
  analyzeUserBehavior_line sampleDate [] (lit "[2024-01-15 10:30:45] GET /health")
  = Return [].
Proof.
  apply (analyzeUserBehavior_line_absent sampleDate []
           (lit "[2024-01-15 10:30:45] GET /health")).
  left. reflexivity.
Defined.

(** C9.  The analysis does not always complete: a line whose user
    identifier is [constructor], next to a timestamp, makes
    [parseLogContent] throw a TypeError, whatever the engine makes of
    the date. *)
Theorem parseLogContent_throws_on_prototype_name :
  forall parseDate,
    parseLogContent parseDate
      (lit "10.0.0.1 - gateway" ++ [LF]
       ++ lit "[2024-01-15 10:30:45] GET /api?user_id=constructor&page=1")
    = Throw TypeError.
Proof. intros parseDate. vm_compute. reflexivity. Qed.

(* ================================================================== *)
(** * Further properties of the pipeline *)

(** ** The matcher, in general *)

Lemma matchRep_bound (p : char -> bool) (k : jsstring -> option (list jsstring))
    (s : jsstring) :
  forall l h acc ps,
    matchRep p k l h acc s = Some ps ->
    exists piece rest ps',
      ps = (rev acc ++ piece) :: ps' /\ s = piece ++ rest /\
      Forall (fun c => p c = true) piece /\ l <= List.length piece /\
      match h with Some m => List.length piece <= m | None => True end /\
      k rest = Some ps'.
Proof.
  induction s as [|c s IH]; intros l h acc ps H; cbn [matchRep] in H.
  - destruct l; [|discriminate].
    destruct (k []) as [ps'|] eqn:K; [|discriminate]. injection H as <-.
    exists [], [], ps'. rewrite app_nil_r.
    repeat split; auto; destruct h; cbn [List.length]; auto with arith.
  - assert (Stop : match l with
                   | O => option_map (cons (rev acc)) (k (c :: s))
                   | S _ => None
                   end = Some ps ->
                   exists piece rest ps',
                     ps = (rev acc ++ piece) :: ps' /\ c :: s = piece ++ rest /\
                     Forall (fun c => p c = true) piece /\ l <= List.length piece /\
                     match h with Some m => List.length piece <= m | None => True end /\
                     k rest = Some ps').
    { intros H'. destruct l; [|discriminate].
      destruct (k (c :: s)) as [ps'|] eqn:K; [|discriminate]. injection H' as <-.
      exists [], (c :: s), ps'. rewrite app_nil_r.
      repeat split; auto; destruct h; cbn [List.length]; auto with arith. }
    destruct (p c && hasRoom h) eqn:E; [|now apply Stop].
    destruct (matchRep p k (pred l) (lessRoom h) (c :: acc) s) as [r|] eqn:M;
      [|now apply Stop].
    injection H as <-. apply andb_true_iff in E as [Hp Hroom].
    destruct (IH _ _ _ _ M) as (piece & rest & ps' & -> & -> & Hall & Hlen & Hhi & K).
    exists (c :: piece), rest, ps'. cbn [rev]. rewrite <- app_assoc.
    repeat split; auto; cbn [List.length]; [lia|].
    destruct h as [[|m]|]; cbn in *; try discriminate; auto. lia.
Qed.

(** A successful match cuts a prefix of the string into one piece per atom. *)
Lemma matchSeq_sound (r : list atom) :
  forall s ps,
    matchSeq r s = Some ps ->
    Forall2 fits r ps /\ exists rest, s = concat ps ++ rest.
Proof.
  induction r as [|a r IH]; intros s ps H; cbn [matchSeq] in H.
  - injection H as <-. split; [constructor | now exists s].
  - apply matchRep_bound in H as (piece & rest & ps' & -> & -> & Hall & Hlo & Hhi & K).
    destruct (IH _ _ K) as (F & rest' & ->). cbn [rev app concat]. split.
    + constructor; [now repeat split | exact F].
    + exists rest'. now rewrite app_assoc.
Qed.

(** The greedy choice: a piece that the atom accepts and cannot extend is
    the piece it takes, when the rest of the pattern matches after it. *)
Lemma matchRep_greedy (p : char -> bool) (k : jsstring -> option (list jsstring))
    (rest : jsstring) (ps : list jsstring) (piece : jsstring) :
  forall l h acc,
    Forall (fun c => p c = true) piece ->
    l <= List.length piece ->
    match h with Some m => List.length piece <= m | None => True end ->
    match rest with
    | [] => True
    | c :: _ => p c = false \/ h = Some (List.length piece)
    end ->
    k rest = Some ps ->
    matchRep p k l h acc (piece ++ rest) = Some ((rev acc ++ piece) :: ps).
Proof.
  induction piece as [|c piece IH]; intros l h acc Hall Hlo Hhi Hstop K.
  - cbn [List.length] in *. assert (l = 0) by lia. subst l.
    rewrite app_nil_r. cbn [app].
    destruct rest as [|c rest]; cbn [matchRep]; [now rewrite K|].
    destruct Hstop as [Hc| ->]; [rewrite Hc | rewrite andb_false_r]; now rewrite K.
  - inversion Hall as [|? ? Hc Hall']; subst. cbn [app matchRep]. rewrite Hc.
    assert (Hroom : hasRoom h = true).
    { destruct h as [[|m]|]; cbn [List.length] in Hhi; [lia | reflexivity | reflexivity]. }
    rewrite Hroom. cbn [andb].
    rewrite (IH (pred l) (lessRoom h) (c :: acc)); auto.
    + cbn [rev]. now rewrite <- app_assoc.
    + cbn [List.length] in Hlo. lia.
    + destruct h as [m|]; cbn [lessRoom List.length] in *; [lia | exact I].
    + destruct rest as [|c' rest']; [exact I|].
      destruct Hstop as [Hc'| ->]; [now left | right].
      cbn [lessRoom List.length pred]. reflexivity.
Qed.

(** The leftmost match. *)
Lemma matchFirst_sound (p : pattern) (s : jsstring) (g : jsstring) :
  matchFirst p s = Some g ->
  exists a b ps,
    s = a ++ b /\ matchSeq (atoms p) b = Some ps /\ g = capture p ps /\
    forall a1 a2, a = a1 ++ a2 -> a2 <> [] -> matchSeq (atoms p) (a2 ++ b) = None.
Proof.
  induction s as [|c s IH]; cbn [matchFirst]; unfold matchAnchored.
  - destruct (matchSeq (atoms p) []) as [ps|] eqn:M; cbn [option_map]; [|discriminate].
    intros H. injection H as <-. exists [], [], ps. repeat split; auto.
    intros a1 a2 E. now destruct a1, a2.
  - destruct (matchSeq (atoms p) (c :: s)) as [ps|] eqn:M; cbn [option_map].
    + intros H. injection H as <-. exists [], (c :: s), ps. repeat split; auto.
      intros a1 a2 E. now destruct a1, a2.
    + intros H. destruct (IH H) as (a & b & ps & -> & Hm & Hg & Hleft).
      exists (c :: a), b, ps. repeat split; auto.
      intros a1 a2 E Hne. destruct a1 as [|x a1]; cbn [app] in E.
      * subst a2. exact M.
      * injection E as -> ->. exact (Hleft a1 a2 eq_refl Hne).
Qed.

Lemma matchFirst_none (p : pattern) (s : jsstring) :
  matchFirst p s = None <-> forall a b, s = a ++ b -> matchSeq (atoms p) b = None.
Proof.
  induction s as [|c s IH]; cbn [matchFirst]; unfold matchAnchored.
  - destruct (matchSeq (atoms p) []) as [ps|] eqn:M; cbn [option_map]; split.
    + discriminate.
    + intros H. specialize (H [] [] eq_refl). congruence.
    + intros _ a b E. destruct a, b; try discriminate. exact M.
    + reflexivity.
  - destruct (matchSeq (atoms p) (c :: s)) as [ps|] eqn:M; cbn [option_map]; split.
    + discriminate.
    + intros H. specialize (H [] (c :: s) eq_refl). congruence.
    + intros H a b E. destruct a as [|x a]; cbn [app] in E.
      * subst b. exact M.
      * injection E as -> ->. apply (proj1 IH H a b eq_refl).
    + intros H. apply IH. intros a b ->. apply (H (c :: a) b eq_refl).
Qed.

Lemma fits_chr (c : char) (piece : jsstring) : fits (chr c) piece <-> piece = [c].
Proof.
  unfold fits, chr, one. cbn [cls lo hi]. split.
  - intros (Hall & Hlo & Hhi). destruct piece as [|x [|y piece]]; cbn [List.length] in *; try lia.
    inversion Hall as [|? ? E _]; subst. apply N.eqb_eq in E. now subst.
  - intros ->. repeat split; auto. repeat constructor. apply N.eqb_refl.
Qed.

Lemma fits_digits (n : nat) (piece : jsstring) : fits (digits n) piece <-> digitText n piece.
Proof.
  unfold fits, digits, digitText. cbn [cls lo hi]. split.
  - intros (Hall & Hlo & Hhi). split; [exact Hall | lia].
  - intros (Hall & <-). repeat split; auto.
Qed.

Lemma fits_literal (w : jsstring) (ps : list jsstring) :
  Forall2 fits (map chr w) ps -> concat ps = w.
Proof.
  revert ps; induction w as [|c w IH]; intros ps H; inversion H; subst; [reflexivity|].
  cbn [concat]. match goal with F : fits (chr c) _ |- _ => apply fits_chr in F; subst end.
  cbn [app]. f_equal. now apply IH.
Qed.

(** A literal text at the start of the string is matched character by
    character. *)
Lemma matchSeq_literal (w : jsstring) (r : list atom) (s : jsstring) (ps : list jsstring) :
  matchSeq r s = Some ps ->
  matchSeq (map chr w ++ r) (w ++ s) = Some (map (fun c => [c]) w ++ ps).
Proof.
  intros H. induction w as [|c w IH]; [exact H|].
  cbn [map app matchSeq chr one cls lo hi].
  apply (matchRep_greedy (N.eqb c) (matchSeq (map chr w ++ r)) (w ++ s)
           (map (fun c => [c]) w ++ ps) [c] 1 (Some 1) []).
  - repeat constructor. apply N.eqb_refl.
  - cbn; lia.
  - cbn; lia.
  - destruct (w ++ s); [exact I | now right].
  - exact IH.
Qed.

Lemma matchSeq_digits (n : nat) (r : list atom) (d s : jsstring) (ps : list jsstring) :
  digitText n d -> matchSeq r s = Some ps ->
  matchSeq (digits n :: r) (d ++ s) = Some (d :: ps).
Proof.
  intros [Hall Hlen] H. cbn [matchSeq digits cls lo hi].
  apply (matchRep_greedy isDigit (matchSeq r) s ps d n (Some n) []); auto.
  - lia.
  - lia.
  - destruct s; [exact I | right; now rewrite Hlen].
Qed.

Lemma clock_sound (ps : list jsstring) :
  Forall2 fits clock ps -> clockText (concat ps).
Proof.
  unfold clock, colon. intros H.
  repeat match goal with
         | F : Forall2 fits (_ :: _) _ |- _ => inversion F; subst; clear F
         | F : Forall2 fits [] _ |- _ => inversion F; subst; clear F
         | F : fits (chr _) _ |- _ => apply fits_chr in F; subst
         | F : fits (digits _) _ |- _ => apply fits_digits in F
         end.
  repeat match goal with D : digitText _ _ |- _ => destruct D end.
  cbn [concat]. rewrite app_nil_r. eexists _, _, _. unfold digitText.
  repeat split; assumption.
Qed.

Lemma clock_complete (g s : jsstring) :
  clockText g -> exists ps, matchSeq clock (g ++ s) = Some ps /\ concat ps = g.
Proof.
  intros (h & m & sec & Hh & Hm & Hs & ->). unfold clock, colon.
  eexists. split.
  - rewrite <- !app_assoc.
    apply matchSeq_digits; [exact Hh|].
    eapply (matchSeq_literal (lit ":")).
    apply matchSeq_digits; [exact Hm|].
    eapply (matchSeq_literal (lit ":")).
    apply matchSeq_digits; [exact Hs|]. reflexivity.
  - cbn. now rewrite app_nil_r.
Qed.

Lemma capture_spec (p : pattern) (ps : list jsstring) :
  Forall2 fits (atoms p) ps ->
  exists ps1 ps2 ps3,
    ps = ps1 ++ ps2 ++ ps3 /\ Forall2 fits (pre p) ps1 /\
    Forall2 fits (grp p) ps2 /\ Forall2 fits (post p) ps3 /\
    capture p ps = concat ps2.
Proof.
  unfold atoms, capture. intros H.
  apply Forall2_app_inv_l in H as (ps1 & ps23 & F1 & F23 & ->).
  apply Forall2_app_inv_l in F23 as (ps2 & ps3 & F2 & F3 & ->).
  exists ps1, ps2, ps3. repeat split; auto.
  rewrite (Forall2_length F1), (Forall2_length F2).
  rewrite skipn_app, skipn_all, Nat.sub_diag. cbn [skipn app].
  rewrite firstn_app, firstn_all, Nat.sub_diag. cbn [firstn]. now rewrite app_nil_r.
Qed.

(** What a match of a pattern says about the line: the capture is a part
    of the line and is in the language of the group. *)
Lemma matchFirst_capture (p : pattern) (line g : jsstring) :
  matchFirst p line = Some g ->
  exists a b, line = a ++ g ++ b /\ shaped (grp p) g.
Proof.
  intros H. apply matchFirst_sound in H as (a & b & ps & -> & M & -> & _).
  apply matchSeq_sound in M as (F & rest & ->).
  apply capture_spec in F as (ps1 & ps2 & ps3 & -> & _ & F2 & _ & ->).
  exists (a ++ concat ps1), (concat ps3 ++ rest). split.
  - rewrite !concat_app, <- !app_assoc. reflexivity.
  - now exists ps2.
Qed.

Lemma iso_sound (g : jsstring) : shaped isoDate g -> isoText g.
Proof.
  intros (ps & -> & H). unfold isoDate in H.
  apply Forall2_app_inv_l in H as (ps1 & ps2 & F1 & F2 & ->).
  apply clock_sound in F2. unfold dash, space in F1.
  repeat match goal with
         | F : Forall2 fits (_ :: _) _ |- _ => inversion F; subst; clear F
         | F : Forall2 fits [] _ |- _ => inversion F; subst; clear F
         | F : fits (chr _) _ |- _ => apply fits_chr in F; subst
         | F : fits (digits _) _ |- _ => apply fits_digits in F
         end.
  repeat match goal with D : digitText _ _ |- _ => destruct D end.
  rewrite concat_app. cbn [concat]. rewrite app_nil_r, <- !app_assoc.
  eexists _, _, _, _. unfold digitText. repeat split.
  all: assumption.
Qed.

Lemma slash_sound (g : jsstring) : shaped slashDate g -> slashText g.
Proof.
  intros (ps & -> & H). unfold slashDate in H.
  apply Forall2_app_inv_l in H as (ps1 & ps2 & F1 & F2 & ->).
  apply clock_sound in F2. unfold slash, space in F1.
  repeat match goal with
         | F : Forall2 fits (_ :: _) _ |- _ => inversion F; subst; clear F
         | F : Forall2 fits [] _ |- _ => inversion F; subst; clear F
         | F : fits (chr _) _ |- _ => apply fits_chr in F; subst
         | F : fits (digits _) _ |- _ => apply fits_digits in F
         end.
  repeat match goal with D : digitText _ _ |- _ => destruct D end.
  rewrite concat_app. cbn [concat]. rewrite app_nil_r, <- !app_assoc.
  eexists _, _, _, _. unfold digitText. repeat split.
  all: assumption.
Qed.

Lemma clock_shaped (g : jsstring) : shaped clock g -> clockText g.
Proof. intros (ps & -> & H). now apply clock_sound. Qed.

Lemma hasClock_part (line a g b : jsstring) :
  line = a ++ g ++ b -> hasClock g -> hasClock line.
Proof.
  intros -> (a' & g' & b' & -> & Hc). exists (a ++ a'), g', (b' ++ b).
  split; [now rewrite <- !app_assoc | exact Hc].
Qed.

Lemma clockText_hasClock (g : jsstring) : clockText g -> hasClock g.
Proof. intros H. exists [], g, []. split; [now rewrite app_nil_r | exact H]. Qed.

Lemma isoText_hasClock (g : jsstring) : isoText g -> hasClock g.
Proof.
  intros (y & m & d & t & _ & _ & _ & Ht & ->).
  exists (y ++ lit "-" ++ m ++ lit "-" ++ d ++ lit " "), t, [].
  split; [now rewrite app_nil_r, <- !app_assoc | exact Ht].
Qed.

Lemma slashText_hasClock (g : jsstring) : slashText g -> hasClock g.
Proof.
  intros (y & m & d & t & _ & _ & _ & Ht & ->).
  exists (y ++ lit "/" ++ m ++ lit "/" ++ d ++ lit " "), t, [].
  split; [now rewrite app_nil_r, <- !app_assoc | exact Ht].
Qed.

Section Timestamps.

Variable parseDate : jsstring -> date.

(** Whenever [extractTimestamp] finds a timestamp, the text it hands to
    [new Date] is a part of the line of one of three shapes:
    [YYYY-MM-DD HH:MM:SS], [DD/MM/YYYY HH:MM:SS] or [HH:MM:SS], digits
    only in the numeric places. *)
Lemma timestamp_shape :
  forall line d,
    extractTimestamp parseDate line = Some d ->
    exists a g b,
      line = a ++ g ++ b /\ d = parseDate g /\
      (isoText g \/ slashText g \/ clockText g).
Proof.
  intros line d. unfold extractTimestamp, patterns.
  repeat match goal with
         | |- context [matchFirst ?p line] =>
             let E := fresh "E" in
             destruct (matchFirst p line) as [g|] eqn:E;
             [ intros H; injection H as <-;
               apply matchFirst_capture in E as (a & b & -> & S); cbn [grp] in S;
               exists a, g, b; split; [reflexivity|]; split; [reflexivity|] | ]
         end.
  - left. now apply iso_sound.
  - left. now apply iso_sound.
  - right; left. now apply slash_sound.
  - right; right. now apply clock_shaped.
  - discriminate.
Qed.

(** [extractTimestamp] returns [null] exactly on the lines that contain
    no [HH:MM:SS]: two digits, a colon, two digits, a colon, two digits. *)
Lemma timestamp_absent_iff :
  forall line, extractTimestamp parseDate line = None <-> ~ hasClock line.
Proof.
  intros line. split.
  - intros H (a & g & b & -> & Hg).
    assert (M : matchFirst (Pattern [] clock []) (a ++ g ++ b) = None).
    { unfold extractTimestamp, patterns in H.
      repeat match type of H with
             | context [matchFirst ?p ?l] =>
                 destruct (matchFirst p l); [discriminate|]
             end.
      reflexivity. }
    pose proof (proj1 (matchFirst_none _ _) M a (g ++ b) eq_refl) as N.
    destruct (clock_complete g b Hg) as (ps & Hps & _).
    change (atoms (Pattern [] clock [])) with clock in N. congruence.
  - intros Hno. destruct (extractTimestamp parseDate line) as [d|] eqn:E; [|reflexivity].
    exfalso. apply Hno.
    apply timestamp_shape in E as (a & g & b & -> & _ & [Hg|[Hg|Hg]]).
    + apply (hasClock_part _ a g b eq_refl). now apply isoText_hasClock.
    + apply (hasClock_part _ a g b eq_refl). now apply slashText_hasClock.
    + apply (hasClock_part _ a g b eq_refl). now apply clockText_hasClock.
Qed.

End Timestamps.
Lemma matchRep_last_total (p : char -> bool) (s : jsstring) :
  forall acc, exists ps, matchRep p (matchSeq []) 0 None acc s = Some ps.
Proof.
  induction s as [|c s IH]; intros acc; cbn [matchRep pred lessRoom].
  - now eexists.
  - destruct (p c && hasRoom None); [|now eexists].
    destruct (IH (c :: acc)) as (ps & ->). now eexists.
Qed.

(** The last atom of a pattern, when unbounded, takes all it can. *)
Lemma matchRep_last_maximal (p : char -> bool) (s : jsstring) :
  forall l acc ps,
    matchRep p (matchSeq []) l None acc s = Some ps ->
    exists piece rest,
      ps = [rev acc ++ piece] /\ s = piece ++ rest /\
      Forall (fun c => p c = true) piece /\ l <= List.length piece /\
      match rest with [] => True | c :: _ => p c = false end.
Proof.
  induction s as [|c s IH]; intros l acc ps H; cbn [matchRep] in H.
  - destruct l; [|discriminate]. injection H as <-.
    exists [], []. rewrite app_nil_r. repeat split; auto.
  - destruct (p c) eqn:Pc; cbn [andb hasRoom lessRoom] in H.
    + destruct (matchRep p (matchSeq []) (pred l) None (c :: acc) s) as [r|] eqn:M.
      * injection H as <-.
        destruct (IH _ _ _ M) as (piece & rest & -> & -> & Hall & Hlen & Hmax).
        exists (c :: piece), rest. cbn [rev]. rewrite <- app_assoc.
        repeat split; auto. cbn [List.length]. lia.
      * destruct l; [|discriminate]. cbn [pred] in M.
        destruct (matchRep_last_total p s (c :: acc)) as (r & R). congruence.
    + destruct l; [|discriminate]. injection H as <-.
      exists [], (c :: s). rewrite app_nil_r. repeat split; auto.
Qed.

(** The longest prefix of a string within a class. *)
Lemma span_class (p : char -> bool) (s : jsstring) :
  exists piece rest,
    s = piece ++ rest /\ Forall (fun c => p c = true) piece /\
    match rest with [] => True | c :: _ => p c = false end.
Proof.
  induction s as [|c s (piece & rest & -> & Hall & Hmax)].
  - now exists [], [].
  - destruct (p c) eqn:Pc.
    + exists (c :: piece), rest. repeat split; auto.
    + exists [], (c :: piece ++ rest). repeat split; auto.
Qed.

Lemma userId_match_sound (b : jsstring) (ps : list jsstring) :
  matchSeq (atoms userIdPattern) b = Some ps ->
  exists id rest,
    b = lit "user_id=" ++ id ++ rest /\ capture userIdPattern ps = id /\
    id <> [] /\ Forall (fun c => idChar c = true) id /\
    match rest with [] => True | c :: _ => idChar c = false end.
Proof.
  intros M.
  change (atoms userIdPattern)
    with (map chr (lit "user_id=") ++ [Rep idChar 1 None]) in M.
  assert (G : forall w s ps,
             matchSeq (map chr w ++ [Rep idChar 1 None]) s = Some ps ->
             exists id rest,
               s = w ++ id ++ rest /\ ps = map (fun c => [c]) w ++ [id] /\
               id <> [] /\ Forall (fun c => idChar c = true) id /\
               match rest with [] => True | c :: _ => idChar c = false end).
  { induction w as [|c w IH]; intros s ps0 H.
    - cbn [map app matchSeq cls lo hi] in H.
      apply matchRep_last_maximal in H as (piece & rest & -> & -> & Hall & Hlen & Hmax).
      exists piece, rest. repeat split; auto.
      intros ->. cbn in Hlen. lia.
    - cbn [map app matchSeq] in H.
      apply matchRep_bound in H as (piece & rest & ps' & -> & -> & Hall & Hlo & Hhi & K).
      assert (F : fits (chr c) piece) by (repeat split; assumption).
      apply fits_chr in F. subst piece.
      destruct (IH _ _ K) as (id & rest' & -> & -> & Hne & Hid & Hmax).
      exists id, rest'. repeat split; auto. }
  destruct (G _ _ _ M) as (id & rest & -> & -> & Hne & Hall & Hmax).
  exists id, rest. repeat split; auto.
  unfold capture. cbn [pre grp userIdPattern].
  rewrite !length_map, skipn_app, length_map, Nat.sub_diag, skipn_all2 by (rewrite length_map; lia).
  cbn. now rewrite app_nil_r.
Qed.

(** The user identifier of a line is the text that follows the first
    [user_id=] that has an identifier character after it: it is not empty,
    contains neither [&] nor white space, and runs up to the next [&],
    white space or the end of the line. *)
Lemma userId_capture_spec :
  forall line id,
    matchFirst userIdPattern line = Some id ->
    exists a b,
      line = a ++ lit "user_id=" ++ id ++ b /\
      id <> [] /\ Forall (fun c => idChar c = true) id /\
      match b with [] => True | c :: _ => idChar c = false end /\
      forall a1 a2, a = a1 ++ a2 -> a2 <> [] ->
                    ~ exists c t, a2 ++ lit "user_id=" ++ id ++ b = lit "user_id=" ++ c :: t
                                  /\ idChar c = true.
Proof.
  intros line id H.
  apply matchFirst_sound in H as (a & b & ps & -> & M & -> & Hleft).
  destruct (userId_match_sound b ps M) as (id & rest & -> & Hc & Hne & Hall & Hmax).
  exists a, rest. rewrite Hc. repeat split; auto.
  intros a1 a2 E Hne2 (c & t & Et & Hc').
  specialize (Hleft a1 a2 E Hne2). rewrite Et in Hleft.
  destruct (span_class idChar (c :: t)) as (piece & rest' & Es & Hp & Hm).
  rewrite Es in Hleft.
  change (atoms userIdPattern)
    with (map chr (lit "user_id=") ++ [Rep idChar 1 None]) in Hleft.
  rewrite (matchSeq_literal (lit "user_id=") [Rep idChar 1 None] (piece ++ rest')
             [piece]) in Hleft; [discriminate|].
  cbn [matchSeq cls lo hi].
  apply (matchRep_greedy idChar (matchSeq []) rest' [] piece 1 None []); auto.
  - destruct piece as [|x piece]; [|cbn; lia].
    cbn [app] in Es. subst rest'. congruence.
  - destruct rest'; [exact I | now left].
Qed.

(** A line has no user identifier exactly when no [user_id=] in it is
    followed by an identifier character. *)
Lemma userId_absent_iff :
  forall line, matchFirst userIdPattern line = None <-> ~ hasUserToken line.
Proof.
  intros line. split.
  - intros H (a & c & t & -> & Hc).
    pose proof (proj1 (matchFirst_none _ _) H a _ eq_refl) as N.
    destruct (span_class idChar (c :: t)) as (piece & rest' & Es & Hp & Hm).
    rewrite Es in N.
    change (atoms userIdPattern)
      with (map chr (lit "user_id=") ++ [Rep idChar 1 None]) in N.
    rewrite (matchSeq_literal (lit "user_id=") [Rep idChar 1 None] (piece ++ rest')
               [piece]) in N; [discriminate|].
    cbn [matchSeq cls lo hi].
    apply (matchRep_greedy idChar (matchSeq []) rest' [] piece 1 None []); auto.
    + destruct piece as [|x piece]; [|cbn; lia].
      cbn [app] in Es. subst rest'. congruence.
    + destruct rest'; [exact I | now left].
  - intros Hno. destruct (matchFirst userIdPattern line) as [id|] eqn:E; [|reflexivity].
    exfalso. apply Hno.
    apply userId_capture_spec in E as (a & b & -> & Hne & Hall & _).
    destruct id as [|c id]; [contradiction|]. inversion Hall; subst.
    exists a, c, (id ++ b). split; [reflexivity | assumption].
Qed.

Lemma firstSeen_In (k : jsstring) (ks : list jsstring) :
  In k (firstSeen ks) <-> In k ks.
Proof.
  induction ks as [|x ks IH]; cbn [firstSeen In]; [tauto|].
  rewrite filter_In, IH, negb_true_iff, streq_neq. split.
  - intros [H|[H _]]; auto.
  - intros [H|H]; auto. destruct (list_eq_dec N.eq_dec x k); auto.
Qed.

Lemma firstSeen_NoDup (ks : list jsstring) : NoDup (firstSeen ks).
Proof.
  induction ks as [|x ks IH]; cbn [firstSeen]; constructor.
  - rewrite filter_In, negb_true_iff, streq_neq. tauto.
  - now apply NoDup_filter.
Qed.

Lemma firstSeen_snoc (ks : list jsstring) (k : jsstring) :
  firstSeen (ks ++ [k])
  = if existsb (streq k) ks then firstSeen ks else firstSeen ks ++ [k].
Proof.
  induction ks as [|x ks IH]; [reflexivity|].
  cbn [app firstSeen existsb]. rewrite IH.
  destruct (streq k x) eqn:Kx; cbn [orb].
  - apply streq_eq in Kx. subst x.
    destruct (existsb (streq k) ks); [reflexivity|].
    rewrite filter_app. cbn [filter]. rewrite streq_refl. cbn [negb].
    now rewrite app_nil_r.
  - destruct (existsb (streq k) ks); [reflexivity|].
    rewrite filter_app. cbn [filter]. rewrite Kx. reflexivity.
Qed.

Lemma groupOf_snoc (k' : jsstring) (es : list (jsstring * Request))
    (k : jsstring) (r : Request) :
  groupOf k' (es ++ [(k, r)]) = groupOf k' es ++ (if streq k k' then [r] else []).
Proof.
  unfold groupOf. rewrite filter_app, map_app. cbn [filter fst].
  now destruct (streq k k').
Qed.

Lemma find_grouped (g : jsstring -> list Request) (ks : list jsstring) (k : jsstring) :
  find (fun kv => streq (fst kv) k) (map (fun k' => (k', g k')) ks)
  = if existsb (streq k) ks then Some (k, g k) else None.
Proof.
  induction ks as [|x ks IH]; [reflexivity|]. cbn [map find fst existsb].
  destruct (streq x k) eqn:E.
  - apply streq_eq in E. subst x. now rewrite streq_refl.
  - assert (E' : streq k x = false).
    { apply streq_neq. apply streq_neq in E. congruence. }
    rewrite E'. exact IH.
Qed.

Lemma pushTo_grouped (g : jsstring -> list Request) (ks : list jsstring)
    (k : jsstring) (r : Request) :
  NoDup ks ->
  pushTo (map (fun k' => (k', g k')) ks) k r
  = map (fun k' => (k', g k' ++ (if streq k k' then [r] else []))) ks.
Proof.
  induction 1 as [|x ks Hx Hnd IH]; [reflexivity|]. cbn [map pushTo].
  destruct (streq x k) eqn:E.
  - apply streq_eq in E. subst x. rewrite streq_refl. f_equal.
    apply map_ext_in. intros k' Hk'.
    assert (N : streq k k' = false) by (apply streq_neq; intros ->; contradiction).
    now rewrite N, app_nil_r.
  - assert (E' : streq k x = false).
    { apply streq_neq. apply streq_neq in E. congruence. }
    rewrite E', app_nil_r, IH. reflexivity.
Qed.

Lemma groupOf_absent (k : jsstring) (es : list (jsstring * Request)) :
  ~ In k (map fst es) -> groupOf k es = [].
Proof.
  unfold groupOf. induction es as [|e es IH]; intros H; [reflexivity|].
  cbn [filter]. destruct (streq (fst e) k) eqn:E.
  - apply streq_eq in E. exfalso. apply H. left. exact E.
  - apply IH. intros Hin. apply H. now right.
Qed.

(** Recording one more request keeps the object the grouping of the
    entries seen so far. *)
Lemma recordRequest_grouped (es : list (jsstring * Request)) (k : jsstring)
    (r : Request) (o' : object) :
  recordRequest (grouped es) k r = Return o' -> o' = grouped (es ++ [(k, r)]).
Proof.
  unfold recordRequest, getProp, grouped.
  rewrite find_grouped.
  replace (map fst (es ++ [(k, r)])) with (map fst es ++ [k]) by now rewrite map_app.
  rewrite firstSeen_snoc.
  pose proof (firstSeen_NoDup (map fst es)) as Hnd.
  assert (Hin : existsb (streq k) (firstSeen (map fst es))
                = existsb (streq k) (map fst es)).
  { destruct (existsb (streq k) (map fst es)) eqn:E.
    - apply existsb_streq. apply firstSeen_In. now apply existsb_streq.
    - apply existsb_streq_false. rewrite firstSeen_In. now apply existsb_streq_false. }
  rewrite Hin. destruct (existsb (streq k) (map fst es)) eqn:E.
  - intros H. injection H as <-. rewrite pushTo_grouped by assumption.
    apply map_ext. intros k'. now rewrite groupOf_snoc.
  - destruct (existsb (streq k) objectPrototypeKeys); [discriminate|].
    intros H. injection H as <-.
    assert (G0 : groupOf k es = [])
      by (apply groupOf_absent; now apply existsb_streq_false).
    replace [(k, @nil Request)] with (map (fun k0 => (k0, groupOf k0 es)) [k])
      by (cbn [map]; now rewrite G0).
    rewrite <- map_app.
    rewrite pushTo_grouped.
    + apply map_ext. intros k'. now rewrite groupOf_snoc.
    + apply NoDup_app; [exact Hnd | repeat constructor; intros [] |].
      intros a Ha [Ea|[]]. subst a. apply (proj1 (firstSeen_In _ _)) in Ha.
      apply existsb_streq_false in E. contradiction.
Qed.
Section Grouping.

Variable parseDate : jsstring -> date.

Lemma analyzeUserBehavior_line_entry (o : object) (line : jsstring) :
  analyzeUserBehavior_line parseDate o line =
  match lineEntry parseDate line with
  | Some e => recordRequest o (fst e) (snd e)
  | None => Return o
  end.
Proof.
  unfold analyzeUserBehavior_line, lineEntry.
  destruct (matchFirst userIdPattern line); [|reflexivity].
  now destruct (extractTimestamp parseDate line).
Qed.

Lemma lines_grouped (lines : list jsstring) :
  forall es o',
    forEach (analyzeUserBehavior_line parseDate) lines (grouped es) = Return o' ->
    o' = grouped (es ++ linesEntries parseDate lines).
Proof.
  induction lines as [|line lines IH]; intros es o' H; cbn [forEach linesEntries flat_map] in *.
  - injection H as <-. now rewrite app_nil_r.
  - rewrite analyzeUserBehavior_line_entry in H.
    destruct (lineEntry parseDate line) as [[k r]|]; cbn [fst snd app] in *.
    + destruct (recordRequest (grouped es) k r) as [o1|] eqn:R; [|discriminate].
      cbn [bind] in H. apply recordRequest_grouped in R. subst o1.
      apply IH in H. now rewrite <- app_assoc in H.
    + cbn [bind] in H. now apply IH.
Qed.

Lemma blocks_grouped (blocks : list jsstring) :
  forall es o',
    forEach (analyzeUserBehavior_block parseDate) blocks (grouped es) = Return o' ->
    o' = grouped (es ++ entriesOf parseDate blocks).
Proof.
  induction blocks as [|block blocks IH]; intros es o' H; cbn [forEach entriesOf flat_map] in *.
  - injection H as <-. now rewrite app_nil_r.
  - unfold analyzeUserBehavior_block at 1 in H.
    destruct (forEach (analyzeUserBehavior_line parseDate) (splitLines block) (grouped es))
      as [o1|] eqn:L; [|discriminate].
    cbn [bind] in H. apply lines_grouped in L. subst o1.
    apply IH in H. now rewrite <- app_assoc in H.
Qed.

(** When the grouping loop of [analyzeUserBehavior] completes,
    [userRequests] holds one property per user identifier, in the order of
    first appearance, and under each identifier the requests of exactly the
    lines with that identifier and a timestamp, in the order of the log. *)
Lemma collect_grouped :
  forall blocks o,
    collectUserRequests parseDate blocks = Return o ->
    o = grouped (entriesOf parseDate blocks).
Proof.
  intros blocks o H. exact (blocks_grouped blocks [] o H).
Qed.

End Grouping.

Lemma list_sum_cons (x : nat) (l : list nat) : list_sum (x :: l) = x + list_sum l.
Proof. reflexivity. Qed.

Lemma grouped_lengths (es : list (jsstring * Request)) :
  list_sum (map (fun kv => List.length (snd kv)) (grouped es)) = List.length es.
Proof.
  induction es as [|[k r] es IH] using rev_ind; [reflexivity|].
  unfold grouped in *.
  replace (map fst (es ++ [(k, r)])) with (map fst es ++ [k]) by now rewrite map_app.
  rewrite firstSeen_snoc, length_app. cbn [List.length].
  rewrite map_map in *. cbn [snd] in *.
  pose proof (firstSeen_NoDup (map fst es)) as Hnd.
  assert (S : forall ks, NoDup ks ->
                list_sum (map (fun x => List.length (groupOf x (es ++ [(k, r)]))) ks)
                = list_sum (map (fun x => List.length (groupOf x es)) ks)
                  + (if existsb (streq k) ks then 1 else 0)).
  { induction 1 as [|x ks Hx Hks IHks]; [reflexivity|].
    cbn [map existsb]. rewrite !list_sum_cons, IHks, groupOf_snoc, length_app.
    destruct (streq k x) eqn:E; cbn [orb List.length].
    - apply streq_eq in E. subst x. apply existsb_streq_false in Hx. rewrite Hx. lia.
    - lia. }
  destruct (existsb (streq k) (map fst es)) eqn:E.
  - rewrite S by assumption.
    replace (existsb (streq k) (firstSeen (map fst es))) with true; [lia|].
    symmetry. apply existsb_streq, firstSeen_In. now apply existsb_streq.
  - rewrite map_app, list_sum_app. cbn [map]. rewrite list_sum_cons.
    rewrite S by assumption.
    replace (existsb (streq k) (firstSeen (map fst es))) with false.
    + rewrite groupOf_snoc, streq_refl, length_app, groupOf_absent
        by now apply existsb_streq_false.
      cbn [List.length]. rewrite IH. cbn. lia.
    + symmetry. apply existsb_streq_false. rewrite firstSeen_In.
      now apply existsb_streq_false.
Qed.

Lemma groupOf_nonempty (k : jsstring) (es : list (jsstring * Request)) :
  In k (map fst es) -> groupOf k es <> [].
Proof.
  unfold groupOf. intros H. apply in_map_iff in H as (e & <- & He).
  assert (I : In e (filter (fun e0 => streq (fst e0) (fst e)) es))
    by (apply filter_In; split; [exact He | apply streq_refl]).
  destruct (filter _ es); [destruct I | discriminate].
Qed.

(** The user records of a returned analysis account for the lines of
    the log: no two records have the same [userId], every record counts at
    least one request, and the counts add up to the number of lines that
    carry both a user identifier and a timestamp. *)
Lemma user_records_account :
  forall parseDate content r,
    parseLogContent parseDate content = Return r ->
    NoDup (map userId (userAnalysis r)) /\
    Forall (fun u => 1 <= requestCount u) (userAnalysis r) /\
    list_sum (map requestCount (userAnalysis r))
    = List.length (entriesOf parseDate (splitIntoBlocks content)).
Proof.
  intros parseDate content r H.
  apply parseLogContent_inv in H as (ips & users & _ & Hu & ->). cbn [userAnalysis].
  unfold analyzeUserBehavior in Hu.
  destruct (collectUserRequests parseDate (splitIntoBlocks content)) as [o|] eqn:C;
    [|discriminate].
  cbn [bind] in Hu. injection Hu as <-.
  apply collect_grouped in C. subst o.
  set (es := entriesOf parseDate (splitIntoBlocks content)).
  pose proof (Object_entries_perm (grouped es)) as P.
  unfold detectSuspiciousBehavior. rewrite !map_map.
  repeat split.
  - erewrite map_ext by (intros; apply entry_userId).
    apply (Permutation_NoDup (l := map fst (grouped es))).
    + apply Permutation_map. now symmetry.
    + unfold grouped. rewrite map_map. cbn [fst]. rewrite map_id.
      apply firstSeen_NoDup.
  - apply Forall_forall. intros u Hin. apply in_map_iff in Hin as ([k rs] & <- & Hin).
    rewrite entry_requestCount. cbn [snd].
    apply (Permutation_in _ P) in Hin. unfold grouped in Hin.
    apply in_map_iff in Hin as (k' & E & Hk). injection E as -> <-.
    apply (proj1 (firstSeen_In _ _)) in Hk. apply groupOf_nonempty in Hk.
    destruct (groupOf k es); [contradiction | cbn; lia].
  - erewrite map_ext by (intros; apply entry_requestCount).
    rewrite <- (grouped_lengths es).
    apply Permutation_list_sum, Permutation_map. exact P.
Qed.

Lemma validDate_dec (rs : list Request) :
  Forall validDate rs \/ exists x, In x rs /\ timestamp x = InvalidDate.
Proof.
  induction rs as [|r rs [IH|(x & Hx & Hi)]].
  - left. constructor.
  - destruct (timestamp r) as [t|] eqn:E.
    + left. constructor; [now exists t | exact IH].
    + right. exists r. split; [now left | exact E].
  - right. exists x. split; [now right | exact Hi].
Qed.

Lemma valid_timestamp (r : Request) : validDate r -> timestamp r = Time (timeOf r).
Proof. intros [x E]. unfold timeOf. now rewrite E. Qed.

Lemma intervalsOf_valid (l : list Request) :
  Forall validDate l -> intervalsOf l = map ofZ (diffs (map timeOf l)).
Proof.
  induction l as [|a [|b t] IH]; intros H; try reflexivity.
  inversion H as [|? ? Ha H']; subst. inversion H' as [|? ? Hb _]; subst.
  rewrite intervalsOf_cons, (IH H'). cbn [map diffs]. f_equal.
  unfold dateDiff. now rewrite (valid_timestamp a Ha), (valid_timestamp b Hb).
Qed.

Lemma sorted_times (rs : list Request) :
  Forall validDate rs -> StronglySorted Z.le (map timeOf (sortRequests rs)).
Proof.
  intros Hv. destruct (sortRequests_sorted rs Hv) as [Hs Hv'].
  apply Sorted_StronglySorted; [intros x y z; apply Z.le_trans|].
  induction Hs as [|a l Hs IH Hhd]; cbn [map]; constructor.
  - apply IH. now inversion Hv'.
  - destruct Hhd as [|b l (x & y & Ha & Hb & Hxy)]; cbn [map]; constructor.
    unfold timeOf. now rewrite Ha, Hb.
Qed.

(** Two ascending lists with the same elements are equal. *)
Lemma sorted_unique (l l' : list Z) :
  StronglySorted Z.le l -> StronglySorted Z.le l' -> Permutation l l' -> l = l'.
Proof.
  intros Hl. revert l'. induction Hl as [|a l Hl IH Ha]; intros l' Hl' P.
  - apply Permutation_nil in P. now subst.
  - destruct Hl' as [|b l' Hl' Hb]; [apply Permutation_sym, Permutation_nil in P; discriminate|].
    assert (a = b).
    { rewrite Forall_forall in Ha, Hb.
      assert (Iab : In a (b :: l')) by (apply (Permutation_in _ P); now left).
      assert (Iba : In b (a :: l)) by (apply (Permutation_in _ (Permutation_sym P)); now left).
      destruct Iab as [E|Iab]; [now symmetry|]. destruct Iba as [E|Iba]; [exact E|].
      specialize (Ha b Iba). specialize (Hb a Iab). lia. }
    subst b. f_equal. apply IH; [exact Hl'|]. now apply Permutation_cons_inv in P.
Qed.

Lemma entry_ext (u : jsstring) (rs rs' : list Request) :
  List.length rs = List.length rs' ->
  intervalsOf (sortRequests rs) = intervalsOf (sortRequests rs') ->
  detectSuspiciousBehavior_entry u rs = detectSuspiciousBehavior_entry u rs'.
Proof.
  intros Hl Hi. unfold detectSuspiciousBehavior_entry.
  now rewrite Hi, !sortRequests_length, Hl.
Qed.

Lemma entry_short (u : jsstring) (rs : list Request) :
  List.length rs < 2 ->
  detectSuspiciousBehavior_entry u rs =
  {| userId := u; requestCount := List.length rs; isSuspicious := false;
     reason := lit "Normal activity"; avgInterval := None |}.
Proof.
  intros H. unfold detectSuspiciousBehavior_entry.
  now destruct (Nat.ltb_spec (List.length rs) 2) as [_|L]; [|lia].
Qed.

(** X13.  The record of a user does not depend on the order in which the
    requests of the user appear in the log. *)
Theorem entry_order_independent :
  forall u rs rs',
    Permutation rs rs' ->
    detectSuspiciousBehavior_entry u rs = detectSuspiciousBehavior_entry u rs'.
Proof.
  intros u rs rs' P. pose proof (Permutation_length P) as Hl.
  destruct (le_lt_dec 4 (List.length rs)) as [H4|H4].
  - destruct (validDate_dec rs) as [Hv|Hinv].
    + apply entry_ext; [exact Hl|].
      assert (Hv' : Forall validDate rs') by exact (Permutation_Forall P Hv).
      rewrite !intervalsOf_valid
        by (apply (Permutation_Forall (Permutation_sym (sortRequests_perm _))); assumption).
      do 2 f_equal. apply sorted_unique; try now apply sorted_times.
      apply Permutation_map.
      rewrite (sortRequests_perm rs), (sortRequests_perm rs'). exact P.
    + assert (Hinv' : exists x, In x rs' /\ timestamp x = InvalidDate).
      { destruct Hinv as (x & Hx & Hi). exists x. split; [|exact Hi].
        exact (Permutation_in _ P Hx). }
      rewrite !entry_invalid.
      * now rewrite Hl.
      * rewrite intervals_of_sorted_length. lia.
      * apply (invalid_date_interval rs'); [apply sortRequests_perm | exact Hinv' | lia].
      * rewrite intervals_of_sorted_length. lia.
      * apply (invalid_date_interval rs); [apply sortRequests_perm | exact Hinv | lia].
  - destruct (le_lt_dec 2 (List.length rs)) as [H2|H2].
    + rewrite !entry_insufficient by lia. now rewrite Hl.
    + rewrite !entry_short by lia. now rewrite Hl.
Qed.
Lemma last_cons_default (ts : list Z) :
  forall a b, last (b :: ts) a = last ts b.
Proof.
  induction ts as [|c ts IH]; intros a b; [reflexivity|].
  change (last (b :: c :: ts) a) with (last (c :: ts) a).
  now rewrite (IH a c), (IH b c).
Qed.

Lemma diffs_sum (a : Z) (ts : list Z) :
  sumZ (diffs (a :: ts)) = (last ts a - a)%Z.
Proof.
  revert a; induction ts as [|b ts IH]; intros a.
  - cbn. lia.
  - change (diffs (a :: b :: ts)) with ((b - a)%Z :: diffs (b :: ts)).
    unfold sumZ in *. cbn [fold_right]. rewrite IH, last_cons_default. lia.
Qed.

Lemma diffs_length (ts : list Z) : List.length (diffs ts) = pred (List.length ts).
Proof.
  induction ts as [|a [|b ts] IH]; try reflexivity.
  change (diffs (a :: b :: ts)) with ((b - a)%Z :: diffs (b :: ts)).
  cbn [List.length] in *. now rewrite IH.
Qed.

Lemma sorted_bounds (a : Z) (ts : list Z) :
  StronglySorted Z.le (a :: ts) ->
  forall x, In x (a :: ts) -> (a <= x <= last ts a)%Z.
Proof.
  revert a; induction ts as [|b ts IH]; intros a Hs x Hx.
  - destruct Hx as [<-|[]]. cbn. lia.
  - inversion Hs as [|? ? Hs' Ha]; subst.
    pose proof (IH b Hs') as Hb.
    assert (Hab : (a <= b)%Z) by (inversion Ha; assumption).
    assert (Hlast : last (b :: ts) a = last ts b) by apply last_cons_default.
    rewrite Hlast. destruct Hx as [<-|Hx].
    + specialize (Hb b (or_introl eq_refl)). lia.
    + specialize (Hb x Hx). lia.
Qed.

Lemma mean_below (ivs : list Z) (c : Z) :
  0 < List.length ivs ->
  (meanInterval ivs < inject_Z c)%Q <->
  (sumZ ivs < c * Z.of_nat (List.length ivs))%Z.
Proof.
  intros Hn. unfold meanInterval.
  set (n := Z.of_nat (List.length ivs)). assert (Hpos : (0 < n)%Z) by (subst n; lia).
  assert (Hq : (0 < inject_Z n)%Q) by (rewrite Zlt_Qlt in Hpos; exact Hpos).
  rewrite <- (Qmult_lt_r _ _ (inject_Z n) Hq).
  unfold Qdiv. rewrite <- Qmult_assoc, (Qmult_comm (/ inject_Z n)), Qmult_inv_r, Qmult_1_r
    by (intros E; rewrite E in Hq; now apply Qlt_irrefl in Hq).
  rewrite <- inject_Z_mult, <- Zlt_Qlt. reflexivity.
Qed.

Lemma mean_nonneg (ivs : list Z) :
  Forall (fun i => (0 <= i)%Z) ivs -> (0 <= meanInterval ivs)%Q.
Proof.
  intros H. unfold meanInterval.
  assert (Hs : (0 <= sumZ ivs)%Z).
  { unfold sumZ. induction H; cbn [fold_right]; lia. }
  destruct ivs as [|i ivs'].
  - cbn. discriminate.
  - apply Qle_shift_div_l.
    + rewrite <- (Zlt_Qlt 0). cbn [List.length]. lia.
    + rewrite Qmult_0_l. now rewrite <- (Zle_Qle 0).
Qed.

Lemma diffs_nonneg (ts : list Z) :
  StronglySorted Z.le ts -> Forall (fun i => (0 <= i)%Z) (diffs ts).
Proof.
  induction 1 as [|a ts Hs IH Ha]; [constructor|].
  destruct ts as [|b ts]; [constructor|].
  change (diffs (a :: b :: ts)) with ((b - a)%Z :: diffs (b :: ts)).
  constructor; [|exact IH]. inversion Ha; subst. lia.
Qed.

(** What a suspicious verdict says about the group. *)
Lemma suspicious_inv (u : jsstring) (rs : list Request) :
  isSuspicious (detectSuspiciousBehavior_entry u rs) = true ->
  4 <= List.length rs /\ Forall validDate rs /\
  exists ivs,
    intervalsOf (sortRequests rs) = map ofZ ivs /\
    ivs = diffs (map timeOf (sortRequests rs)) /\
    regularPolling ivs /\
    detectSuspiciousBehavior_entry u rs =
    {| userId := u; requestCount := List.length rs; isSuspicious := true;
       reason := lit "Repeated API hits every "
                 ++ toString (Int (roundedSeconds ivs)) ++ lit "s";
       avgInterval := Some (Int (roundedSeconds ivs)) |}.
Proof.
  intros H.
  assert (H4 : 4 <= List.length rs).
  { destruct (le_lt_dec 4 (List.length rs)) as [L|L]; [exact L|]. exfalso.
    destruct (le_lt_dec 2 (List.length rs)) as [L2|L2].
    - rewrite entry_insufficient in H by lia. discriminate.
    - rewrite entry_short in H by lia. discriminate. }
  pose proof (intervals_of_sorted_length rs) as L.
  assert (Hv : Forall validDate rs).
  { destruct (validDate_dec rs) as [Hv|Hinv]; [exact Hv|]. exfalso.
    rewrite entry_invalid in H; [discriminate | lia |].
    apply (invalid_date_interval rs); [apply sortRequests_perm | exact Hinv | lia]. }
  split; [exact H4|]. split; [exact Hv|].
  assert (Hv' : Forall validDate (sortRequests rs))
    by (apply (Permutation_Forall (Permutation_sym (sortRequests_perm _))); assumption).
  exists (diffs (map timeOf (sortRequests rs))).
  pose proof (intervalsOf_valid _ Hv') as E.
  split; [exact E|]. split; [reflexivity|].
  assert (Hn : 2 < List.length (diffs (map timeOf (sortRequests rs)))).
  { rewrite diffs_length, length_map, sortRequests_length. lia. }
  destruct (entry_regularity u rs _ E Hn) as (b & Hb & Er).
  rewrite Er in H. cbn [isSuspicious] in H. subst b.
  split; [now apply Hb | exact Er].
Qed.

(** X6.  A suspicious record comes from at least four requests, all with
    valid dates; its [avgInterval] is a whole number of seconds from 0 to
    15, and its reason quotes that number. *)
Theorem suspicious_record_bounds :
  forall u rs,
    isSuspicious (detectSuspiciousBehavior_entry u rs) = true ->
    4 <= List.length rs /\ Forall validDate rs /\
    exists n : Z,
      (0 <= n <= 15)%Z /\
      avgInterval (detectSuspiciousBehavior_entry u rs) = Some (Int n) /\
      reason (detectSuspiciousBehavior_entry u rs)
      = lit "Repeated API hits every " ++ toString (Int n) ++ lit "s".
Proof.
  intros u rs H.
  destruct (suspicious_inv u rs H) as (H4 & Hv & ivs & E & Ed & [_ Hmean] & Er).
  split; [exact H4|]. split; [exact Hv|].
  exists (roundedSeconds ivs). rewrite Er. cbn [avgInterval reason].
  split; [|split; reflexivity].
  assert (Hpos : Forall (fun i => (0 <= i)%Z) ivs)
    by (subst ivs; apply diffs_nonneg; now apply sorted_times).
  pose proof (mean_nonneg ivs Hpos) as M0.
  unfold roundedSeconds.
  set (x := (meanInterval ivs / inject_Z 1000 + (1 # 2))%Q).
  assert (X0 : (0 <= x)%Q).
  { subst x. apply (Qle_trans _ (meanInterval ivs / inject_Z 1000)).
    - apply Qle_shift_div_l; [reflexivity | now rewrite Qmult_0_l].
    - rewrite <- (Qplus_0_r (meanInterval ivs / inject_Z 1000)) at 1.
      apply Qplus_le_r. discriminate. }
  assert (X16 : (x < inject_Z 16)%Q).
  { subst x. apply (Qlt_le_trans _ (inject_Z 15 + (1 # 2))).
    - apply Qplus_lt_l. apply Qlt_shift_div_r; [reflexivity|].
      exact Hmean.
    - discriminate. }
  split.
  - change 0%Z with (Qfloor (inject_Z 0)). apply Qfloor_resp_le. exact X0.
  - assert (F : (inject_Z (Qfloor x) < inject_Z 16)%Q)
      by (apply (Qle_lt_trans _ x); [apply Qfloor_le | exact X16]).
    rewrite <- Zlt_Qlt in F. lia.
Qed.

(** X14.  In a suspicious group any two requests are less than 15 seconds
    times the number of intervals apart. *)
Theorem suspicious_group_span :
  forall u rs a b,
    isSuspicious (detectSuspiciousBehavior_entry u rs) = true ->
    In a rs -> In b rs ->
    exists ta tb,
      timestamp a = Time ta /\ timestamp b = Time tb /\
      (Z.abs (ta - tb) < 15000 * Z.of_nat (List.length rs - 1))%Z.
Proof.
  intros u rs a b H Ha Hb.
  destruct (suspicious_inv u rs H) as (H4 & Hv & ivs & E & Ed & [_ Hmean] & _).
  rewrite Forall_forall in Hv.
  exists (timeOf a), (timeOf b).
  split; [apply valid_timestamp; now apply Hv|].
  split; [apply valid_timestamp; now apply Hv|].
  assert (Hs : StronglySorted Z.le (map timeOf (sortRequests rs)))
    by (apply sorted_times; now apply Forall_forall).
  assert (Hin : forall x, In x rs -> In (timeOf x) (map timeOf (sortRequests rs))).
  { intros x Hx. apply in_map.
    exact (Permutation_in _ (Permutation_sym (sortRequests_perm rs)) Hx). }
  assert (Hlen : List.length (map timeOf (sortRequests rs)) = List.length rs)
    by now rewrite length_map, sortRequests_length.
  destruct (map timeOf (sortRequests rs)) as [|t0 ts] eqn:Et;
    [cbn in Hlen; lia|].
  pose proof (sorted_bounds t0 ts Hs _ (Hin a Ha)) as Ba.
  pose proof (sorted_bounds t0 ts Hs _ (Hin b Hb)) as Bb.
  assert (Hn : 0 < List.length ivs).
  { subst ivs. rewrite diffs_length. cbn [List.length] in *. lia. }
  apply (mean_below ivs 15000 Hn) in Hmean.
  assert (Hl : List.length ivs = List.length rs - 1).
  { subst ivs. rewrite diffs_length. cbn [List.length] in *. lia. }
  rewrite Hl in Hmean. subst ivs. rewrite diffs_sum in Hmean. lia.
Qed.

Lemma dropWhile_split (p : char -> bool) (s : jsstring) :
  exists l, s = l ++ dropWhile p s /\ Forall (fun c => p c = true) l.
Proof.
  induction s as [|c s (l & E & Hl)]; cbn [dropWhile].
  - now exists [].
  - destruct (p c) eqn:Pc.
    + exists (c :: l). split; [cbn [app]; now f_equal | now constructor].
    + now exists [].
Qed.

Lemma dropWhile_head (p : char -> bool) (s : jsstring) (c : char) (t : jsstring) :
  dropWhile p s = c :: t -> p c = false.
Proof.
  induction s as [|x s IH]; cbn [dropWhile]; [discriminate|].
  destruct (p x) eqn:Px; [exact IH|]. intros H. injection H as -> _. exact Px.
Qed.

(** [trim] removes white space at both ends and nothing else. *)
Lemma trim_split (s : jsstring) :
  exists l r,
    s = l ++ trim s ++ r /\
    Forall (fun c => isWhiteSpace c = true) l /\
    Forall (fun c => isWhiteSpace c = true) r.
Proof.
  unfold trim. destruct (dropWhile_split isWhiteSpace s) as (l & E & Hl).
  destruct (dropWhile_split isWhiteSpace (rev (dropWhile isWhiteSpace s))) as (r & E' & Hr).
  exists l, (rev r). repeat split; [|exact Hl | now apply Forall_rev].
  rewrite E at 1. f_equal.
  rewrite <- (rev_involutive (dropWhile isWhiteSpace s)) at 1.
  rewrite E' at 1. now rewrite rev_app_distr.
Qed.

Lemma trim_trimmed (s : jsstring) : trim s <> [] -> trimmed (trim s).
Proof.
  unfold trim. intros Hne.
  destruct (dropWhile isWhiteSpace s) as [|c d] eqn:D; [now destruct Hne|].
  pose proof (dropWhile_head _ _ _ _ D) as Hc.
  destruct (dropWhile isWhiteSpace (rev (c :: d))) as [|x t] eqn:D'; [now destruct Hne|].
  pose proof (dropWhile_head _ _ _ _ D') as Hx.
  destruct (dropWhile_split isWhiteSpace (rev (c :: d))) as (l & E & Hl).
  rewrite D' in E.
  assert (R : exists t', rev (x :: t) = c :: t' /\ last t' c = x).
  { apply (f_equal (@rev char)) in E. rewrite rev_involutive, rev_app_distr in E.
    cbn [rev] in E |- *. destruct (rev t) as [|y rt].
    - exists []. cbn [app] in E |- *. injection E as -> _. now split.
    - cbn [app] in E. injection E as -> _. exists (rt ++ [x]).
      split; [reflexivity | apply last_last]. }
  destruct R as (t' & -> & Hlast).
  exists c, t'. repeat split; auto. now rewrite Hlast.
Qed.

Lemma visible_app (a b : jsstring) : visible (a ++ b) = visible a ++ visible b.
Proof. apply filter_app. Qed.

Lemma visible_whitespace (w : jsstring) :
  Forall (fun c => isWhiteSpace c = true) w -> visible w = [].
Proof.
  induction 1 as [|c w Hc _ IH]; [reflexivity|].
  unfold visible in *. cbn [filter]. now rewrite Hc.
Qed.

Lemma visible_trim (s : jsstring) : visible (trim s) = visible s.
Proof.
  destruct (trim_split s) as (l & r & E & Hl & Hr).
  rewrite E at 2. rewrite !visible_app, (visible_whitespace l Hl), (visible_whitespace r Hr).
  now rewrite app_nil_r.
Qed.

(** A match of [/\n\s*\n/] consumes white space only, at least two
    characters of it. *)
Lemma blankLine_consumes (s : jsstring) (ps : list jsstring) :
  matchSeq blankLine s = Some ps ->
  Forall (fun c => isWhiteSpace c = true) (concat ps) /\
  2 <= List.length (concat ps) /\ exists rest, s = concat ps ++ rest.
Proof.
  intros M. apply matchSeq_sound in M as (F & rest & ->). unfold blankLine in F.
  repeat match goal with
         | F : Forall2 fits (_ :: _) _ |- _ => inversion F; subst; clear F
         | F : Forall2 fits [] _ |- _ => inversion F; subst; clear F
         | F : fits (chr _) _ |- _ => apply fits_chr in F; subst
         end.
  match goal with F : fits _ ?w |- _ => destruct F as (Hw & _ & _); cbn [cls] in Hw end.
  cbn [concat]. rewrite app_nil_r. repeat split.
  - constructor; [reflexivity|]. apply Forall_app. split; [exact Hw|]. now repeat constructor.
  - cbn [app List.length]. rewrite length_app. cbn [List.length]. lia.
  - now exists rest.
Qed.

Lemma blankLine_complete (w b : jsstring) :
  Forall (fun c => isWhiteSpace c = true) w ->
  exists ps, matchSeq blankLine (LF :: w ++ LF :: b) = Some ps.
Proof.
  intros Hw.
  assert (K2 : forall t, exists ps, matchSeq [chr LF] (LF :: t) = Some ps).
  { intros t. eexists. cbn [matchSeq chr one cls lo hi].
    apply (matchRep_greedy (N.eqb LF) (matchSeq []) t [] [LF] 1 (Some 1) []).
    - now repeat constructor.
    - cbn; lia.
    - cbn; lia.
    - destruct t; [exact I | now right].
    - reflexivity. }
  assert (K1 : forall acc, exists ps,
             matchRep isWhiteSpace (matchSeq [chr LF]) 0 None acc (w ++ LF :: b) = Some ps).
  { induction Hw as [|c w Hc _ IH]; intros acc; cbn [app matchRep pred lessRoom hasRoom].
    - change (isWhiteSpace LF) with true. cbn [andb].
      destruct (matchRep isWhiteSpace (matchSeq [chr LF]) 0 None (LF :: acc) b) as [r|];
        [now eexists|].
      destruct (K2 b) as (ps & ->). now eexists.
    - rewrite Hc. cbn [andb]. destruct (IH (c :: acc)) as (ps & ->). now eexists. }
  destruct (K1 []) as (ps & K).
  eexists. unfold blankLine. cbn [matchSeq chr one cls lo hi].
  apply (matchRep_greedy (N.eqb LF) _ (w ++ LF :: b) ps [LF] 1 (Some 1) []).
  - now repeat constructor.
  - cbn; lia.
  - cbn; lia.
  - destruct (w ++ LF :: b); [exact I | now right].
  - exact K.
Qed.

(** The pieces of the split hold all the visible characters, in order. *)
Lemma splitGo_visible (s : jsstring) :
  forall skip cur,
    Forall (fun c => isWhiteSpace c = true) (firstn skip s) ->
    concat (map visible (splitGo blankLine s skip cur)) = visible (rev cur) ++ visible s.
Proof.
  induction s as [|c s IH]; intros skip cur Hskip; cbn [splitGo].
  - cbn [map concat]. reflexivity.
  - destruct skip as [|k].
    + destruct (matchSeq blankLine (c :: s)) as [ps|] eqn:M; cbn [option_map].
      * destruct (blankLine_consumes _ _ M) as (Hws & Hlen & rest & E).
        destruct (concat ps) as [|x cs] eqn:C; [cbn in Hlen; lia|].
        cbn [List.length app] in *. injection E as -> ->.
        inversion Hws as [|? ? Hx Hcs]; subst.
        cbn [map concat]. rewrite IH.
        -- change (visible (x :: cs ++ rest)) with
             (filter (fun c => negb (isWhiteSpace c)) (x :: cs ++ rest)).
           cbn [filter]. rewrite Hx. reflexivity.
        -- rewrite firstn_app, firstn_all, Nat.sub_diag. cbn [firstn].
           now rewrite app_nil_r.
      * rewrite IH by constructor. cbn [rev]. rewrite visible_app.
        rewrite <- app_assoc. f_equal. symmetry. apply (visible_app [c] s).
    + cbn [firstn] in Hskip. inversion Hskip as [|? ? Hc Hk]; subst.
      rewrite IH by exact Hk.
      change (visible (c :: s)) with (filter (fun c => negb (isWhiteSpace c)) (c :: s)).
      cbn [filter]. now rewrite Hc.
Qed.

(** X15.  Splitting into blocks loses white space only: the characters of
    the blocks that are not white space are those of the content, in the
    same order. *)
Theorem splitIntoBlocks_keeps_visible :
  forall content,
    concat (map visible (splitIntoBlocks content)) = visible content.
Proof.
  intros content. unfold splitIntoBlocks.
  assert (P : concat (map visible (splitRegex blankLine content)) = visible content).
  { destruct content as [|c s]; [reflexivity|].
    unfold splitRegex. now rewrite splitGo_visible by constructor. }
  rewrite <- P. generalize (splitRegex blankLine content) as pieces.
  induction pieces as [|p pieces IH]; [reflexivity|].
  cbn [map filter concat]. rewrite <- (visible_trim p).
  destruct (trim p) as [|c t] eqn:T.
  - cbn [List.length Nat.ltb Nat.leb]. exact IH.
  - cbn [List.length Nat.ltb Nat.leb map concat]. f_equal. exact IH.
Qed.
Lemma hasBlankLine_part (s l r : jsstring) :
  hasBlankLine s -> hasBlankLine (l ++ s ++ r).
Proof.
  intros (a & w & b & Hw & ->). exists (l ++ a), w, (b ++ r). split; [exact Hw|].
  rewrite <- !app_assoc. cbn [app]. rewrite <- !app_assoc. reflexivity.
Qed.

(** No match of the separator begins inside a piece of the split. *)
Lemma splitGo_no_blankLine (s : jsstring) :
  forall skip cur,
    (skip = 0 ->
     forall a b, rev cur = a ++ b -> b <> [] -> matchSeq blankLine (b ++ s) = None) ->
    (skip <> 0 -> cur = []) ->
    Forall (fun piece => ~ hasBlankLine piece) (splitGo blankLine s skip cur).
Proof.
  assert (Emit : forall cur s,
             (forall a b, rev cur = a ++ b -> b <> [] ->
                          matchSeq blankLine (b ++ s) = None) ->
             ~ hasBlankLine (rev cur)).
  { intros cur s0 I (a & w & b & Hw & E).
    specialize (I a (LF :: w ++ LF :: b) E ltac:(discriminate)).
    destruct (blankLine_complete w (b ++ s0) Hw) as (ps & M).
    cbn [app] in I. rewrite <- !app_assoc in I. cbn [app] in I. congruence. }
  assert (Nil : ~ hasBlankLine []).
  { intros (a & w & b & _ & E). now destruct a. }
  induction s as [|c s IH]; intros skip cur I0 I1; cbn [splitGo].
  - constructor; [|constructor]. destruct skip as [|k].
    + apply (Emit cur []). now apply I0.
    + rewrite I1 by discriminate. exact Nil.
  - destruct skip as [|k].
    + specialize (I0 eq_refl).
      destruct (matchSeq blankLine (c :: s)) as [ps|] eqn:M; cbn [option_map].
      * destruct (blankLine_consumes _ _ M) as (_ & Hlen & _).
        destruct (List.length (concat ps)) as [|n]; [lia|].
        constructor; [now apply (Emit cur (c :: s))|].
        apply IH; [|reflexivity]. intros _ a b E Hb. now destruct a, b.
      * apply IH; [|intros N; now destruct N]. intros _ a b E Hb.
        cbn [rev] in E.
        destruct (exists_last Hb) as (b0 & x & ->).
        rewrite app_assoc in E. apply app_inj_tail in E as [E ->].
        rewrite <- app_assoc. cbn [app].
        destruct b0 as [|y b0]; [exact M|].
        apply (I0 a (y :: b0)); [now symmetry | discriminate].
    + rewrite (I1 ltac:(discriminate)). apply IH; [|reflexivity].
      intros _ a b E Hb. now destruct a, b.
Qed.

(** Every block of [splitIntoBlocks] is non-empty, neither begins nor
    ends with white space, and contains no blank-line separator. *)
Lemma blocks_wellformed :
  forall content,
    Forall (fun block => trimmed block /\ ~ hasBlankLine block)
           (splitIntoBlocks content).
Proof.
  intros content. unfold splitIntoBlocks.
  assert (P : Forall (fun piece => ~ hasBlankLine piece) (splitRegex blankLine content)).
  { destruct content as [|c s].
    - unfold splitRegex. destruct (matchSeq blankLine []); repeat constructor.
      intros (a & w & b & _ & E). now destruct a.
    - unfold splitRegex. apply splitGo_no_blankLine; [|congruence].
      intros _ a b E Hb. now destruct a, b. }
  induction P as [|p pieces Hp _ IH]; [constructor|].
  cbn [map filter]. destruct (trim p) as [|c t] eqn:T; cbn [List.length Nat.ltb Nat.leb].
  - exact IH.
  - constructor; [|exact IH]. rewrite <- T. split.
    + apply trim_trimmed. now rewrite T.
    + intros H. apply Hp. destruct (trim_split p) as (l & r & E & _ & _).
      rewrite E. now apply hasBlankLine_part.
Qed.

(** ** Where an IP record comes from *)

Lemma splitLinesAux_hd (s : jsstring) :
  forall cur f rest,
    splitLinesAux cur s = f :: rest -> exists t, rev cur ++ s = f ++ t.
Proof.
  induction s as [|c s IH]; intros cur f rest H; cbn [splitLinesAux] in H.
  - injection H as <- _. now exists [].
  - destruct (N.eqb c LF).
    + injection H as <- _. now exists (c :: s).
    + apply IH in H as (t & E). exists t. rewrite <- E. cbn [rev].
      now rewrite <- app_assoc.
Qed.

Lemma ipPattern_sound (line addr : jsstring) :
  matchAnchored ipPattern line = Some addr ->
  dottedQuad addr /\ exists rest, line = addr ++ rest.
Proof.
  unfold matchAnchored. destruct (matchSeq (atoms ipPattern) line) as [ps|] eqn:M;
    [|discriminate].
  cbn [option_map]. intros H. injection H as <-.
  apply matchSeq_sound in M as (F & rest & ->).
  destruct (capture_spec ipPattern ps F) as (ps1 & ps2 & ps3 & -> & F1 & F2 & F3 & ->).
  cbn [pre post ipPattern] in F1, F3. inversion F1; subst. inversion F3; subst.
  cbn [app]. rewrite app_nil_r. split; [|now exists rest].
  cbn [grp ipPattern] in F2. unfold dot in F2.
  repeat match goal with
         | F : Forall2 fits (_ :: _) _ |- _ => inversion F; subst; clear F
         | F : Forall2 fits [] _ |- _ => inversion F; subst; clear F
         | F : fits (chr _) _ |- _ => apply fits_chr in F; subst
         | F : fits (Rep isDigit 1 (Some 3)) _ |- _ =>
             destruct F as (? & ? & ?); cbn [cls lo hi] in *
         end.
  cbn [concat]. rewrite app_nil_r.
  eexists _, _, _, _. unfold octetText. repeat split. all: assumption.
Qed.

(** Every IP record comes from a block of the input: its address is
    four groups of one to three digits joined by dots, the block begins
    with it, and its requests are the lines of that block after the first
    that are not blank.  There are at most as many records as blocks. *)
Lemma ip_origin :
  forall blocks ips,
    analyzeIPs blocks = Return ips ->
    List.length ips <= List.length blocks /\
    Forall (fun r =>
              dottedQuad (ip r) /\
              exists block rest,
                In block blocks /\ block = ip r ++ rest /\
                requests r
                = filter (fun line => 0 <? List.length (trim line))
                         (tl (splitLines block)))
           ips.
Proof.
  intros blocks.
  assert (G : forall seen ips0,
             List.length ips0 <= List.length seen ->
             Forall (fun r =>
                       dottedQuad (ip r) /\
                       exists block rest,
                         In block (seen ++ blocks) /\ block = ip r ++ rest /\
                         requests r
                         = filter (fun line => 0 <? List.length (trim line))
                                  (tl (splitLines block))) ips0 ->
             forall ips,
               forEach analyzeIPs_block blocks ips0 = Return ips ->
               List.length ips <= List.length (seen ++ blocks) /\
               Forall (fun r =>
                         dottedQuad (ip r) /\
                         exists block rest,
                           In block (seen ++ blocks) /\ block = ip r ++ rest /\
                           requests r
                           = filter (fun line => 0 <? List.length (trim line))
                                    (tl (splitLines block))) ips).
  { induction blocks as [|block blocks IH]; intros seen ips0 Hlen Hall ips H;
      cbn [forEach] in H.
    - injection H as <-. rewrite app_nil_r in *. now split.
    - destruct (analyzeIPs_block_spec ips0 block) as (f & rest & Hl & E).
      rewrite E in H. cbn [bind] in H.
      replace (seen ++ block :: blocks) with ((seen ++ [block]) ++ blocks) in *
        by now rewrite <- app_assoc.
      apply (IH (seen ++ [block])) in H; [exact H | |].
      + destruct (matchAnchored ipPattern f) as [j|]; [|rewrite length_app; cbn; lia].
        destruct (existsb (streq j) (map ip ips0)); rewrite !length_app; cbn; lia.
      + destruct (matchAnchored ipPattern f) as [addr|] eqn:M; [|exact Hall].
        destruct (existsb (streq addr) (map ip ips0)); [exact Hall|].
        apply Forall_app. split; [exact Hall|]. constructor; [|constructor].
        apply ipPattern_sound in M as (Hq & rest' & ->).
        cbn [recordOf ip requests]. split; [exact Hq|].
        destruct (splitLinesAux_hd block [] _ _ Hl) as (t & Et). cbn [rev app] in Et.
        exists block, (rest' ++ t). repeat split.
        * apply in_or_app. left. apply in_or_app. right. now left.
        * rewrite Et. now rewrite <- app_assoc.
        * now rewrite Hl. }
  intros ips H. exact (G [] [] (le_n 0) (Forall_nil _) ips H).
Qed.
(** ** The order of the user records *)

Lemma insertIndexed_perm x l : Permutation (insertIndexed x l) (x :: l).
Proof.
  induction l as [|y l IH]; [reflexivity|]. cbn [insertIndexed].
  destruct (fst x <=? fst y)%N; [reflexivity|]. rewrite IH. apply perm_swap.
Qed.

Lemma insertIndexed_sorted x l :
  Sorted (fun a b => (fst a <= fst b)%N) l ->
  Sorted (fun a b => (fst a <= fst b)%N) (insertIndexed x l).
Proof.
  induction 1 as [|y l Hs IH Hhd]; cbn [insertIndexed]; [repeat constructor|].
  destruct (N.leb_spec (fst x) (fst y)) as [L|L].
  - repeat constructor; assumption.
  - constructor; [exact IH|].
    destruct l as [|z l]; cbn [insertIndexed].
    + constructor. lia.
    + destruct (N.leb_spec (fst x) (fst z)); constructor; [lia|]. now inversion Hhd.
Qed.

Lemma indexedEntries_spec (o : object) :
  Forall (fun ikv => arrayIndex (fst (snd ikv)) = Some (fst ikv)) (indexedEntries o)
  /\ map snd (indexedEntries o) = filter (fun kv => isIndex (fst kv)) o.
Proof.
  unfold indexedEntries, isIndex. induction o as [|kv o [IH1 IH2]]; [split; constructor|].
  cbn [flat_map filter]. destruct (arrayIndex (fst kv)) as [i|] eqn:E; cbn [app map].
  - split; [constructor; [exact E | exact IH1] | now f_equal].
  - now split.
Qed.

(** The order of [Object.entries]. *)
Lemma Object_entries_order (o : object) :
  exists numeric,
    Object_entries o = numeric ++ filter (fun kv => negb (isIndex (fst kv))) o /\
    Permutation numeric (filter (fun kv => isIndex (fst kv)) o) /\
    Sorted (fun a b => (indexValue (fst a) <= indexValue (fst b))%N) numeric.
Proof.
  unfold Object_entries.
  exists (map snd (fold_right insertIndexed [] (indexedEntries o))).
  destruct (indexedEntries_spec o) as [Hidx Hmap].
  assert (P0 : forall l, Permutation (fold_right insertIndexed [] l) l).
  { induction l as [|x l IH]; [reflexivity|]. cbn [fold_right].
    apply (Permutation_trans (insertIndexed_perm _ _)). now apply perm_skip. }
  assert (S0 : forall l, Sorted (fun a b => (fst a <= fst b)%N)
                                (fold_right insertIndexed [] l)).
  { induction l as [|x l IH]; [constructor|]. cbn [fold_right].
    now apply insertIndexed_sorted. }
  pose proof (P0 (indexedEntries o)) as P. pose proof (S0 (indexedEntries o)) as S.
  clear P0 S0.
  repeat split.
  - f_equal. apply filter_ext. intros kv. unfold isIndex.
    now destruct (arrayIndex (fst kv)).
  - rewrite <- Hmap. now apply Permutation_map.
  - assert (Hidx' : Forall (fun ikv => arrayIndex (fst (snd ikv)) = Some (fst ikv))
                           (fold_right insertIndexed [] (indexedEntries o)))
      by exact (Permutation_Forall (Permutation_sym P) Hidx).
    clear - S Hidx'. revert Hidx'.
    induction S as [|x l Hs IH Hhd]; intros Hidx'; cbn [map]; constructor.
    + apply IH. now inversion Hidx'.
    + inversion Hidx' as [|? ? Hx Hl]; subst.
      destruct Hhd as [|y l Hxy]; cbn [map]; constructor.
      inversion Hl as [|? ? Hy _]; subst. unfold indexValue. now rewrite Hx, Hy.
Qed.

(** X5.  The user records of a returned analysis come in this order:
    first the identifiers that are array indices ("7", "42"), by ascending
    numeric value, then the other identifiers in the order of their first
    appearance in the log. *)
Theorem user_records_order :
  forall parseDate content r,
    parseLogContent parseDate content = Return r ->
    let ids := firstSeen (map fst (entriesOf parseDate (splitIntoBlocks content))) in
    exists numeric,
      map userId (userAnalysis r) = numeric ++ filter (fun k => negb (isIndex k)) ids /\
      Permutation numeric (filter isIndex ids) /\
      Sorted (fun a b => (indexValue a <= indexValue b)%N) numeric.
Proof.
  intros parseDate content r H ids.
  apply parseLogContent_inv in H as (ips & users & _ & Hu & ->). cbn [userAnalysis].
  unfold analyzeUserBehavior in Hu.
  destruct (collectUserRequests parseDate (splitIntoBlocks content)) as [o|] eqn:C;
    [|discriminate].
  cbn [bind] in Hu. injection Hu as <-.
  apply collect_grouped in C.
  destruct (Object_entries_order o) as (numeric & E & P & S).
  exists (map fst numeric).
  assert (K : map fst o = ids).
  { subst o ids. unfold grouped. rewrite map_map. cbn [fst]. apply map_id. }
  assert (F : forall f (l : object),
             map fst (filter (fun kv => f (fst kv)) l) = filter f (map fst l)).
  { intros f l. induction l as [|kv l IH]; [reflexivity|]. cbn [filter map].
    destruct (f (fst kv)); cbn [map]; [f_equal|]; apply IH. }
  repeat split.
  - unfold detectSuspiciousBehavior. rewrite map_map.
    erewrite map_ext by (intros; apply entry_userId).
    rewrite E, map_app. f_equal.
    rewrite (F (fun k => negb (isIndex k)) o). now rewrite K.
  - rewrite <- K, <- (F isIndex o). now apply Permutation_map.
  - clear - S. induction S as [|x l Hs IH Hhd]; cbn [map]; constructor; [exact IH|].
    destruct Hhd; cbn [map]; constructor. assumption.
Qed.

(** X20.  The statistics of a returned analysis are bounded by the log:
    there are at most as many IP records as blocks, at most as many
    suspicious users as user records, and every suspicious user stands for
    at least four of the lines that carry a user identifier and a
    timestamp. *)
Theorem stats_bounds :
  forall parseDate content r,
    parseLogContent parseDate content = Return r ->
    totalIPs (stats r) <= totalBlocks (stats r) /\
    suspiciousUsers (stats r) <= List.length (userAnalysis r) /\
    4 * suspiciousUsers (stats r)
    <= List.length (entriesOf parseDate (splitIntoBlocks content)).
Proof.
  intros parseDate content r H.
  destruct (user_records_account parseDate content r H) as (_ & _ & Hsum).
  apply parseLogContent_inv in H as (ips & users & Hi & Hu & ->).
  cbn [stats totalIPs totalBlocks suspiciousUsers userAnalysis] in *.
  split; [exact (proj1 (ip_origin _ _ Hi))|].
  split; [apply filter_length_le|].
  rewrite <- Hsum.
  assert (S4 : Forall (fun u => isSuspicious u = true -> 4 <= requestCount u) users).
  { unfold analyzeUserBehavior in Hu.
    destruct (collectUserRequests parseDate (splitIntoBlocks content)) as [o|];
      [|discriminate].
    cbn [bind] in Hu. injection Hu as <-. apply Forall_forall. intros u Hin.
    apply detectSuspiciousBehavior_In in Hin as (k & rs & _ & ->). intros Hs.
    rewrite entry_requestCount. exact (proj1 (suspicious_inv k rs Hs)). }
  clear - S4. induction S4 as [|u users Hu _ IH]; [reflexivity|].
  cbn [filter map]. rewrite list_sum_cons.
  destruct (isSuspicious u) eqn:E; cbn [List.length]; [specialize (Hu eq_refl)|]; lia.
Qed.
(** ** Lines that contribute *)

Lemma pushTo_held (o : object) (k : jsstring) (r : Request) :
  heldRequests (pushTo o k r)
  = heldRequests o + (if existsb (fun kv => streq (fst kv) k) o then 1 else 0).
Proof.
  unfold heldRequests. induction o as [|[k' rs] o IH]; [reflexivity|].
  cbn [pushTo existsb fst]. destruct (streq k' k); cbn [map snd orb].
  - rewrite !list_sum_cons, length_app. cbn [List.length]. lia.
  - rewrite !list_sum_cons, IH. lia.
Qed.

Lemma recordRequest_adds (o o' : object) (k : jsstring) (r : Request) :
  recordRequest o k r = Return o' -> heldRequests o' = S (heldRequests o).
Proof.
  unfold recordRequest, getProp.
  destruct (find (fun kv => streq (fst kv) k) o) as [kv|] eqn:F.
  - intros H. injection H as <-. rewrite pushTo_held.
    replace (existsb (fun kv0 => streq (fst kv0) k) o) with true; [lia|].
    symmetry. apply existsb_exists. exists kv. now apply find_some in F.
  - destruct (existsb (streq k) objectPrototypeKeys); [discriminate|].
    intros H. injection H as <-. rewrite pushTo_held, existsb_app. cbn [existsb fst].
    rewrite streq_refl, orb_true_r. unfold heldRequests.
    rewrite map_app, list_sum_app. cbn. lia.
Qed.

Section Contribution.

Variable parseDate : jsstring -> date.

(** X2.  A line leaves the groups of [analyzeUserBehavior] as they are
    exactly when it lacks a user token ([user_id=] followed by an
    identifier character) or lacks [HH:MM:SS]; every other line adds one
    request to the groups, or throws. *)
Theorem line_contributes_iff :
  forall o line,
    (analyzeUserBehavior_line parseDate o line = Return o
     <-> ~ (hasUserToken line /\ hasClock line))
    /\ (forall o', analyzeUserBehavior_line parseDate o line = Return o' ->
                   o' = o \/ heldRequests o' = S (heldRequests o)).
Proof.
  intros o line.
  pose proof (userId_absent_iff line) as U.
  pose proof (timestamp_absent_iff parseDate line) as T.
  unfold analyzeUserBehavior_line.
  destruct (matchFirst userIdPattern line) as [k|] eqn:Ek.
  - destruct (extractTimestamp parseDate line) as [d|] eqn:Ed.
    + assert (Hu : hasUserToken line).
      { apply userId_capture_spec in Ek as (a & b & -> & Hne & Hall & _).
        destruct k as [|c k]; [contradiction|]. inversion Hall; subst.
        exists a, c, (k ++ b). split; [reflexivity | assumption]. }
      assert (Hc : hasClock line).
      { apply timestamp_shape in Ed as (a & g & b & -> & _ & [Hg|[Hg|Hg]]).
        - apply (hasClock_part _ a g b eq_refl). now apply isoText_hasClock.
        - apply (hasClock_part _ a g b eq_refl). now apply slashText_hasClock.
        - apply (hasClock_part _ a g b eq_refl). now apply clockText_hasClock. }
      split.
      * split; [|intros N; exfalso; apply N; now split].
        intros R. apply recordRequest_adds in R. lia.
      * intros o' R. right. now apply recordRequest_adds in R.
    + split; [|intros o' H; left; now injection H].
      split; [|reflexivity]. intros _ [_ Hc]. now apply (proj1 T).
  - split; [|intros o' H; left; now injection H].
    split; [|reflexivity]. intros _ [Hu _]. now apply (proj1 U).
Qed.

End Contribution.

(** ** Blocks are stable *)

Lemma trim_fixed (b : jsstring) : trimmed b -> trim b = b.
Proof.
  intros (c & t & -> & Hc & Hl). unfold trim. cbn [dropWhile]. rewrite Hc.
  assert (R : dropWhile isWhiteSpace (rev (c :: t)) = rev (c :: t)).
  { destruct (rev (c :: t)) as [|x rt] eqn:E; [reflexivity|].
    assert (X : x = last t c).
    { apply (f_equal (@rev char)) in E. rewrite rev_involutive in E. cbn [rev] in E.
      destruct (exists_last (l := c :: t) ltac:(discriminate)) as (l' & y & Ey).
      rewrite Ey in E. apply app_inj_tail in E as [_ ->].
      destruct l' as [|z l']; cbn [app] in Ey.
      - injection Ey as -> ->. reflexivity.
      - injection Ey as -> ->. now rewrite last_last. }
    cbn [dropWhile]. now rewrite X, Hl. }
  rewrite R. apply rev_involutive.
Qed.

(** X17.  Blocks are stable: splitting a block of [splitIntoBlocks] again
    gives that block alone. *)
Theorem splitIntoBlocks_stable :
  forall content block,
    In block (splitIntoBlocks content) -> splitIntoBlocks block = [block].
Proof.
  intros content block Hin.
  pose proof (blocks_wellformed content) as F. rewrite Forall_forall in F.
  destruct (F block Hin) as [Ht Hnb].
  rewrite (splitIntoBlocks_no_blankLine block Hnb), (trim_fixed block Ht).
  destruct Ht as (c & t & -> & Hc & _). cbn [forallb]. now rewrite Hc.
Qed.

(** ** Addresses that are recognised *)

Lemma matchSeq_octet (r : list atom) (d s : jsstring) (ps : list jsstring) :
  octetText d ->
  match s with [] => True | x :: _ => isDigit x = false \/ List.length d = 3 end ->
  matchSeq r s = Some ps ->
  matchSeq (Rep isDigit 1 (Some 3) :: r) (d ++ s) = Some (d :: ps).
Proof.
  intros [Hall Hlen] Hstop H. cbn [matchSeq cls lo hi].
  apply (matchRep_greedy isDigit (matchSeq r) s ps d 1 (Some 3) []); auto; try lia.
  destruct s; [exact I|]. destruct Hstop as [Hx| ->]; [now left | now right].
Qed.

(** X19.  A first line that begins with four groups of one to three digits
    joined by dots gives that text as the address, whatever the values of
    the groups; the address ends where the digits of the fourth group end,
    or after its third digit. *)
Theorem ip_address_recognised :
  forall a b c d rest,
    octetText a -> octetText b -> octetText c -> octetText d ->
    match rest with [] => True | x :: _ => isDigit x = false \/ List.length d = 3 end ->
    matchAnchored ipPattern (a ++ lit "." ++ b ++ lit "." ++ c ++ lit "." ++ d ++ rest)
    = Some (a ++ lit "." ++ b ++ lit "." ++ c ++ lit "." ++ d).
Proof.
  intros a b c d rest Ha Hb Hc Hd Hstop. unfold matchAnchored.
  assert (M : matchSeq (atoms ipPattern)
                (a ++ lit "." ++ b ++ lit "." ++ c ++ lit "." ++ d ++ rest)
              = Some [a; lit "."; b; lit "."; c; lit "."; d]).
  { change (atoms ipPattern)
      with [Rep isDigit 1 (Some 3); dot; Rep isDigit 1 (Some 3); dot;
            Rep isDigit 1 (Some 3); dot; Rep isDigit 1 (Some 3)].
    apply matchSeq_octet; [exact Ha | now left |].
    apply (matchSeq_literal (lit ".") _ _ _).
    apply matchSeq_octet; [exact Hb | now left |].
    apply (matchSeq_literal (lit ".") _ _ _).
    apply matchSeq_octet; [exact Hc | now left |].
    apply (matchSeq_literal (lit ".") [Rep isDigit 1 (Some 3)] (d ++ rest) [d]).
    rewrite <- (app_nil_r rest) at 1.
    apply matchSeq_octet; [exact Hd | | ].
    - rewrite app_nil_r. exact Hstop.
    - rewrite app_nil_r. reflexivity. }
  rewrite M. cbn. now rewrite app_nil_r.
Qed.
(** ** Periodic requests *)

Lemma sortRequests_sorted_id (rs : list Request) :
  Sorted notAfter rs -> sortRequests rs = rs.
Proof.
  induction 1 as [|a l Hs IH Hhd]; [reflexivity|].
  cbn [sortRequests fold_right]. fold (sortRequests l). rewrite IH.
  destruct Hhd as [|b l (x & y & Ha & Hb & Hxy)]; [reflexivity|].
  cbn [insertRequest].
  destruct (ngt (compareRequests a b) (ofZ 0)) eqn:C; [|reflexivity].
  apply (compare_valid a b x y Ha Hb) in C. lia.
Qed.

Lemma ticks_sorted (rs : list Request) :
  forall t0 d n,
    (0 <= d)%Z -> map timestamp rs = map Time (ticks t0 d n) ->
    Sorted notAfter rs /\ Forall validDate rs /\ map timeOf rs = ticks t0 d n.
Proof.
  induction rs as [|a rs IH]; intros t0 d n Hd E.
  - destruct n; [|discriminate]. repeat split; constructor.
  - destruct n as [|n]; [discriminate|]. cbn [map ticks] in E. injection E as Ea E.
    destruct (IH _ _ _ Hd E) as (Hs & Hv & Ht). repeat split.
    + constructor; [exact Hs|]. destruct rs as [|b rs]; constructor.
      destruct n as [|n]; [discriminate|]. cbn [map ticks] in E. injection E as Eb _.
      exists t0, (t0 + d)%Z. repeat split; auto. lia.
    + constructor; [now exists t0 | exact Hv].
    + cbn [map ticks]. f_equal; [|exact Ht]. unfold timeOf. now rewrite Ea.
Qed.

Lemma diffs_ticks (t0 d : Z) (n : nat) : diffs (ticks t0 d (S n)) = repeat d n.
Proof.
  revert t0; induction n as [|n IH]; intros t0; [reflexivity|].
  change (ticks t0 d (S (S n))) with (t0 :: t0 + d :: ticks (t0 + d + d) d n)%Z.
  change (diffs (t0 :: t0 + d :: ticks (t0 + d + d) d n)%Z)
    with ((t0 + d - t0)%Z :: diffs (ticks (t0 + d) d (S n))).
  rewrite IH. cbn [repeat]. f_equal. lia.
Qed.

Lemma sumZ_repeat (d : Z) (n : nat) : sumZ (repeat d n) = (Z.of_nat n * d)%Z.
Proof.
  unfold sumZ. induction n as [|n IH]; [reflexivity|].
  cbn [repeat fold_right]. rewrite IH. lia.
Qed.

Lemma mean_repeat (d : Z) (n : nat) :
  0 < n -> (meanInterval (repeat d n) == inject_Z d)%Q.
Proof.
  intros Hn. unfold meanInterval. rewrite sumZ_repeat, repeat_length, inject_Z_mult.
  field. intros E. unfold Qeq in E. simpl in E. lia.
Qed.

Lemma regular_repeat (d : Z) (n : nat) :
  0 < n -> regularPolling (repeat d n) <-> (d < 15000)%Z.
Proof.
  intros Hn. unfold regularPolling.
  pose proof (mean_repeat d n Hn) as M.
  assert (S : filter (similar (repeat d n)) (repeat d n) = repeat d n).
  { apply forallb_filter_id. apply forallb_forall. intros i Hi.
    apply repeat_spec in Hi. subst i. unfold similar. apply Qltb_lt.
    rewrite M. setoid_replace (inject_Z d - inject_Z d)%Q with 0%Q by ring.
    reflexivity. }
  unfold similarRatio. rewrite S, repeat_length, M, <- Zlt_Qlt.
  split; [tauto|]. intros H. split; [|exact H].
  setoid_replace (inject_Z (Z.of_nat n) / inject_Z (Z.of_nat n))%Q with 1%Q.
  - reflexivity.
  - field. intros E. unfold Qeq in E. simpl in E. lia.
Qed.

(** X21.  Requests at a constant period: a group of at least four requests
    spaced [d] milliseconds apart is suspicious exactly when [d] is below
    15000, and its [avgInterval] is [d/1000] rounded. *)
Theorem periodic_group :
  forall u rs t0 d n,
    (0 <= d)%Z -> 3 <= n ->
    map timestamp rs = map Time (ticks t0 d (S n)) ->
    (isSuspicious (detectSuspiciousBehavior_entry u rs) = true <-> (d < 15000)%Z) /\
    avgInterval (detectSuspiciousBehavior_entry u rs)
    = Some (Int (Qfloor (inject_Z d / inject_Z 1000 + (1 # 2)))).
Proof.
  intros u rs t0 d n Hd Hn E.
  destruct (ticks_sorted rs t0 d (S n) Hd E) as (Hs & Hv & Ht).
  assert (Hi : intervalsOf (sortRequests rs) = map ofZ (repeat d n)).
  { rewrite (sortRequests_sorted_id rs Hs), (intervalsOf_valid rs Hv), Ht.
    now rewrite diffs_ticks. }
  assert (Hl : 2 < List.length (repeat d n)) by (rewrite repeat_length; lia).
  destruct (entry_regularity u rs _ Hi Hl) as (b & Hb & ->).
  cbn [isSuspicious avgInterval]. split.
  - rewrite Hb. apply regular_repeat. lia.
  - do 2 f_equal. unfold roundedSeconds. apply Qfloor_comp.
    now rewrite (mean_repeat d n) by lia.
Qed.

(** ** The properties of the timestamps, identifiers, groups and blocks *)

(** X7.  Whenever [extractTimestamp] finds a timestamp, the text it hands to
    [new Date] is a part of the line of one of three shapes:
    [YYYY-MM-DD HH:MM:SS], [DD/MM/YYYY HH:MM:SS] or [HH:MM:SS], with digits
    in the numeric places. *)
Theorem extractTimestamp_shape :
  forall parseDate line d,
    extractTimestamp parseDate line = Some d ->
    exists a g b,
      line = a ++ g ++ b /\ d = parseDate g /\
      (isoText g \/ slashText g \/ clockText g).
Proof. exact timestamp_shape. Qed.

Lemma extractTimestamp_shape_witness :
  exists a g b,
    lit "x [2024-01-15 10:30:45] y" = a ++ g ++ b /\
    Time 1705314645000 = sampleDate g /\
    (isoText g \/ slashText g \/ clockText g).
Proof.
  apply (extractTimestamp_shape sampleDate (lit "x [2024-01-15 10:30:45] y")
           (Time 1705314645000)).
  vm_compute. reflexivity.
Defined.

(** X8.  [extractTimestamp] returns [null] exactly on the lines that contain
    no [HH:MM:SS]: two digits, a colon, two digits, a colon, two digits. *)
Theorem extractTimestamp_null_iff :
  forall parseDate line,
    extractTimestamp parseDate line = None <-> ~ hasClock line.
Proof. exact timestamp_absent_iff. Qed.

(** X9.  The user identifier of a line is the text that follows the first
    [user_id=] that has an identifier character after it: it is not empty,
    contains neither [&] nor white space, and runs up to the next [&],
    white space or the end of the line; no user token begins before it. *)
Theorem userId_capture :
  forall line id,
    matchFirst userIdPattern line = Some id ->
    exists a b,
      line = a ++ lit "user_id=" ++ id ++ b /\
      id <> [] /\ Forall (fun c => idChar c = true) id /\
      match b with [] => True | c :: _ => idChar c = false end /\
      forall a1 a2, a = a1 ++ a2 -> a2 <> [] ->
                    ~ tokenAt (a2 ++ lit "user_id=" ++ id ++ b).
Proof. exact userId_capture_spec. Qed.

Lemma userId_capture_witness :
  exists a b,
    lit "GET /a?user_id=&user_id=bob&x=1" = a ++ lit "user_id=" ++ lit "bob" ++ b /\
    lit "bob" <> [] /\ Forall (fun c => idChar c = true) (lit "bob") /\
    match b with [] => True | c :: _ => idChar c = false end /\
    forall a1 a2, a = a1 ++ a2 -> a2 <> [] ->
                  ~ tokenAt (a2 ++ lit "user_id=" ++ lit "bob" ++ b).
Proof.
  apply (userId_capture (lit "GET /a?user_id=&user_id=bob&x=1") (lit "bob")).
  vm_compute. reflexivity.
Defined.

(** X10.  A line has no user identifier exactly when no [user_id=] in it is
    followed by an identifier character. *)
Theorem userId_null_iff :
  forall line, matchFirst userIdPattern line = None <-> ~ hasUserToken line.
Proof. exact userId_absent_iff. Qed.

(** X11.  When the grouping loop of [analyzeUserBehavior] completes,
    [userRequests] holds one property per user identifier, in the order of
    first appearance, and under each identifier the requests of exactly the
    lines with that identifier and a timestamp, in the order of the log. *)
Theorem collectUserRequests_groups :
  forall parseDate blocks o,
    collectUserRequests parseDate blocks = Return o ->
    o = grouped (entriesOf parseDate blocks).
Proof. exact collect_grouped. Qed.

Lemma collectUserRequests_groups_witness :
  [(lit "bob", [ {| timestamp := Time 1705314600000;
                    request := lit "2024-01-15 10:30:00 user_id=bob" |};
                 {| timestamp := Time 1705314605000;
                    request := lit "2024-01-15 10:30:05 user_id=bob" |} ]);
   (lit "al", [ {| timestamp := InvalidDate; request := lit "10:30:02 user_id=al" |} ])]
  = grouped (entriesOf sampleDate
               [lit "2024-01-15 10:30:00 user_id=bob" ++ [LF] ++ lit "10:30:02 user_id=al";
                lit "no user here" ++ [LF] ++ lit " 2024-01-15 10:30:05 user_id=bob "]).
Proof.
  apply (collectUserRequests_groups sampleDate).
  vm_compute. reflexivity.
Defined.

(** X12.  The user records of a returned analysis account for the lines of
    the log: no two records have the same [userId], every record counts at
    least one request, and the counts add up to the number of lines that
    carry both a user identifier and a timestamp. *)
Theorem user_records_account_for_lines :
  forall parseDate content r,
    parseLogContent parseDate content = Return r ->
    NoDup (map userId (userAnalysis r)) /\
    Forall (fun u => 1 <= requestCount u) (userAnalysis r) /\
    list_sum (map requestCount (userAnalysis r))
    = List.length (entriesOf parseDate (splitIntoBlocks content)).
Proof. exact user_records_account. Qed.

Lemma user_records_account_for_lines_witness :
  NoDup (map userId (userAnalysis sampleAnalysis)) /\
  Forall (fun u => 1 <= requestCount u) (userAnalysis sampleAnalysis) /\
  list_sum (map requestCount (userAnalysis sampleAnalysis))
  = List.length (entriesOf sampleDate (splitIntoBlocks sampleLog)).
Proof.
  apply (user_records_account_for_lines sampleDate sampleLog sampleAnalysis).
  vm_compute. reflexivity.
Defined.

(** X16.  Every block of [splitIntoBlocks] is non-empty, neither begins nor
    ends with white space, and contains no blank-line separator. *)
Theorem splitIntoBlocks_blocks :
  forall content,
    Forall (fun block => trimmed block /\ ~ hasBlankLine block)
           (splitIntoBlocks content).
Proof. exact blocks_wellformed. Qed.

(** X18.  Every IP record comes from a block of the input: its address is
    four groups of one to three digits joined by dots, the block begins
    with it, and its requests are the lines of that block after the first
    that are not blank.  There are at most as many records as blocks. *)
Theorem ip_record_origin :
  forall blocks ips,
    analyzeIPs blocks = Return ips ->
    List.length ips <= List.length blocks /\
    Forall (fun r =>
              dottedQuad (ip r) /\
              exists block rest,
                In block blocks /\ block = ip r ++ rest /\
                requests r
                = filter (fun line => 0 <? List.length (trim line))
                         (tl (splitLines block)))
           ips.
Proof. exact ip_origin. Qed.

Lemma ip_record_origin_witness :
  List.length [recordOf (lit "10.0.0.1") [lit "10.0.0.1 first"]]
  <= List.length [lit "10.0.0.1 first"; lit "10.0.0.1 second"] /\
  Forall (fun r =>
            dottedQuad (ip r) /\
            exists block rest,
              In block [lit "10.0.0.1 first"; lit "10.0.0.1 second"] /\
              block = ip r ++ rest /\
              requests r
              = filter (fun line => 0 <? List.length (trim line))
                       (tl (splitLines block)))
         [recordOf (lit "10.0.0.1") [lit "10.0.0.1 first"]].
Proof.
  apply (ip_record_origin [lit "10.0.0.1 first"; lit "10.0.0.1 second"]).
  vm_compute. reflexivity.
Defined.

(** ** Instances on the sample logs *)

Lemma user_records_order_witness :
  exists numeric,
    map userId (userAnalysis sampleAnalysis)
    = numeric
      ++ filter (fun k => negb (isIndex k))
                (firstSeen (map fst (entriesOf sampleDate (splitIntoBlocks sampleLog)))) /\
    Permutation numeric
      (filter isIndex
              (firstSeen (map fst (entriesOf sampleDate (splitIntoBlocks sampleLog))))) /\
    Sorted (fun a b => (indexValue a <= indexValue b)%N) numeric.
Proof.
  apply (user_records_order sampleDate sampleLog sampleAnalysis).
  vm_compute. reflexivity.
Defined.

Lemma suspicious_record_bounds_witness :
  4 <= List.length polling /\ Forall validDate polling /\
  exists n : Z,
    (0 <= n <= 15)%Z /\
    avgInterval (detectSuspiciousBehavior_entry (lit "bob") polling) = Some (Int n) /\
    reason (detectSuspiciousBehavior_entry (lit "bob") polling)
    = lit "Repeated API hits every " ++ toString (Int n) ++ lit "s".
Proof.
  apply (suspicious_record_bounds (lit "bob") polling).
  vm_compute. reflexivity.
Defined.

Lemma suspicious_group_span_witness :
  exists ta tb,
    timestamp (at_ms 15000 "GET /api?user_id=bob") = Time ta /\
    timestamp (at_ms 0 "GET /api?user_id=bob") = Time tb /\
    (Z.abs (ta - tb) < 15000 * Z.of_nat (List.length polling - 1))%Z.
Proof.
  apply (suspicious_group_span (lit "bob") polling).
  - vm_compute. reflexivity.
  - right. right. right. left. reflexivity.
  - left. reflexivity.
Defined.

Lemma entry_order_independent_witness :
  detectSuspiciousBehavior_entry (lit "bob")
    [at_ms 5000 "b"; at_ms 0 "a"; at_ms 10000 "c"; at_ms 15000 "d"]
  = detectSuspiciousBehavior_entry (lit "bob")
      [at_ms 0 "a"; at_ms 5000 "b"; at_ms 10000 "c"; at_ms 15000 "d"].
Proof.
  apply (entry_order_independent (lit "bob")).
  apply perm_swap.
Defined.

Lemma splitIntoBlocks_stable_witness :
  splitIntoBlocks (lit "192.168.1.7 - office" ++ [LF]
                   ++ lit "[2024-01-15 11:00:00] GET /home?user_id=alice")
  = [lit "192.168.1.7 - office" ++ [LF]
     ++ lit "[2024-01-15 11:00:00] GET /home?user_id=alice"].
Proof.
  apply (splitIntoBlocks_stable sampleLog).
  vm_compute. right. left. reflexivity.
Defined.

Lemma ip_address_recognised_witness :
  matchAnchored ipPattern
    (lit "999" ++ lit "." ++ lit "0" ++ lit "." ++ lit "12" ++ lit "." ++ lit "345"
     ++ lit "6 - gateway")
  = Some (lit "999" ++ lit "." ++ lit "0" ++ lit "." ++ lit "12" ++ lit "." ++ lit "345").
Proof.
  apply (ip_address_recognised (lit "999") (lit "0") (lit "12") (lit "345")
           (lit "6 - gateway")).
  - split; [repeat constructor | cbn; lia].
  - split; [repeat constructor | cbn; lia].
  - split; [repeat constructor | cbn; lia].
  - split; [repeat constructor | cbn; lia].
  - right. reflexivity.
Defined.

Lemma stats_bounds_witness :
  totalIPs (stats sampleAnalysis) <= totalBlocks (stats sampleAnalysis) /\
  suspiciousUsers (stats sampleAnalysis) <= List.length (userAnalysis sampleAnalysis) /\
  4 * suspiciousUsers (stats sampleAnalysis)
  <= List.length (entriesOf sampleDate (splitIntoBlocks sampleLog)).
Proof.
  apply (stats_bounds sampleDate sampleLog sampleAnalysis).
  vm_compute. reflexivity.
Defined.

Lemma periodic_group_witness :
  (isSuspicious (detectSuspiciousBehavior_entry (lit "bob") polling) = true
   <-> (5000 < 15000)%Z) /\
  avgInterval (detectSuspiciousBehavior_entry (lit "bob") polling)
  = Some (Int (Qfloor (inject_Z 5000 / inject_Z 1000 + (1 # 2)))).
Proof.
  apply (periodic_group (lit "bob") polling 0 5000 3).
  - lia.
  - lia.
  - reflexivity.
Defined.

(** ** Blocks of joined logs *)

Lemma keptBlocks_cons (p : jsstring) (l : list jsstring) :
  keptBlocks (p :: l) = keptBlocks [p] ++ keptBlocks l.
Proof.
  unfold keptBlocks. cbn [map filter]. now destruct (0 <? List.length (trim p)).
Qed.

Lemma dropWhile_ws_app (w p : jsstring) :
  Forall (fun c => isWhiteSpace c = true) w -> dropWhile isWhiteSpace (w ++ p) = dropWhile isWhiteSpace p.
Proof.
  induction 1 as [|c w Hc _ IH]; [reflexivity|]. cbn [app dropWhile]. now rewrite Hc.
Qed.

Lemma dropWhile_app_keep (a b : jsstring) :
  dropWhile isWhiteSpace a <> [] ->
  dropWhile isWhiteSpace (a ++ b) = dropWhile isWhiteSpace a ++ b.
Proof.
  induction a as [|c a IH]; cbn [app dropWhile]; [congruence|].
  destruct (isWhiteSpace c); [exact IH | reflexivity].
Qed.

Lemma trim_ws_l (w p : jsstring) : Forall (fun c => isWhiteSpace c = true) w -> trim (w ++ p) = trim p.
Proof. intros Hw. unfold trim. now rewrite dropWhile_ws_app. Qed.

Lemma trim_ws_r (p w : jsstring) : Forall (fun c => isWhiteSpace c = true) w -> trim (p ++ w) = trim p.
Proof.
  intros Hw. unfold trim.
  destruct (dropWhile isWhiteSpace p) as [|c d] eqn:D.
  - apply dropWhile_nil in D. rewrite forallb_forall in D.
    assert (E : dropWhile isWhiteSpace (p ++ w) = []).
    { apply dropWhile_nil, forallb_forall. intros x Hx.
      apply in_app_or in Hx as [Hx|Hx]; [now apply D|].
      rewrite Forall_forall in Hw. now apply Hw. }
    now rewrite E.
  - rewrite dropWhile_app_keep by (rewrite D; discriminate). rewrite D.
    rewrite rev_app_distr. rewrite dropWhile_ws_app by now apply Forall_rev.
    reflexivity.
Qed.

Lemma keptBlocks_ws_r (p w : jsstring) :
  Forall (fun c => isWhiteSpace c = true) w -> keptBlocks [p ++ w] = keptBlocks [p].
Proof. intros Hw. unfold keptBlocks. cbn [map]. now rewrite trim_ws_r. Qed.

Lemma keptBlocks_ws_l (w p : jsstring) :
  Forall (fun c => isWhiteSpace c = true) w -> keptBlocks [w ++ p] = keptBlocks [p].
Proof. intros Hw. unfold keptBlocks. cbn [map]. now rewrite trim_ws_l. Qed.

Lemma keptBlocks_ws (w : jsstring) : Forall (fun c => isWhiteSpace c = true) w -> keptBlocks [w] = [].
Proof.
  intros Hw. rewrite <- (app_nil_l w), keptBlocks_ws_r by exact Hw. reflexivity.
Qed.

(** What [cur] holds goes in front of the first piece. *)
Lemma splitGo_cur (s : jsstring) :
  forall skip cur front,
    splitGo blankLine s skip (cur ++ front)
    = match splitGo blankLine s skip cur with
      | p :: ps => (rev front ++ p) :: ps
      | [] => []
      end.
Proof.
  induction s as [|c s IH]; intros skip cur front; cbn [splitGo].
  - now rewrite rev_app_distr.
  - destruct skip as [|k]; [|apply IH].
    destruct (matchSeq blankLine (c :: s)) as [ps|] eqn:M; cbn [option_map].
    + destruct (blankLine_consumes _ _ M) as (_ & Hlen & _).
      destruct (List.length (concat ps)) as [|n]; [lia|].
      now rewrite rev_app_distr.
    + apply (IH 0 (c :: cur) front).
Qed.

Lemma splitGo_front (s front : jsstring) :
  Forall (fun c => isWhiteSpace c = true) front ->
  keptBlocks (splitGo blankLine s 0 front) = keptBlocks (splitGo blankLine s 0 []).
Proof.
  intros Hf. change front with ([] ++ front) at 1. rewrite (splitGo_cur s 0 [] front).
  destruct (splitGo blankLine s 0 []) as [|p ps]; [reflexivity|].
  rewrite keptBlocks_cons, (keptBlocks_cons p ps). f_equal.
  apply keptBlocks_ws_l. now apply Forall_rev.
Qed.

(** A run of white space gives no block. *)
Lemma splitGo_ws (w : jsstring) :
  Forall (fun c => isWhiteSpace c = true) w ->
  forall skip cur, keptBlocks (splitGo blankLine w skip cur) = keptBlocks [rev cur].
Proof.
  induction 1 as [|c w Hc Hw IH]; intros skip cur; cbn [splitGo]; [reflexivity|].
  destruct skip as [|k]; [|apply IH].
  destruct (matchSeq blankLine (c :: w)) as [ps|] eqn:M; cbn [option_map].
  - destruct (blankLine_consumes _ _ M) as (_ & Hlen & _).
    destruct (List.length (concat ps)) as [|n]; [lia|].
    rewrite keptBlocks_cons, IH. cbn [rev]. now rewrite app_nil_r.
  - rewrite IH. cbn [rev]. apply keptBlocks_ws_r. now repeat constructor.
Qed.

Lemma ws_prefix_length (w a y rest : jsstring) (d : char) :
  isWhiteSpace d = false -> Forall (fun c => isWhiteSpace c = true) a -> w ++ d :: y = a ++ rest ->
  List.length a <= List.length w.
Proof.
  intros Hd Ha. revert w. induction Ha as [|c a Hc _ IH]; intros w E; cbn [List.length]; [lia|].
  destruct w as [|x w]; cbn [app] in E.
  - injection E as -> _. congruence.
  - injection E as _ E. cbn [List.length]. apply IH in E. lia.
Qed.

(** White space in front of a text, passed or not, gives no block and does
    not change the blocks of the text. *)
Lemma splitGo_lead (w : jsstring) :
  Forall (fun c => isWhiteSpace c = true) w ->
  forall y skip cur,
    (match y with [] => True | d :: _ => isWhiteSpace d = false end) ->
    skip <= List.length w -> Forall (fun c => isWhiteSpace c = true) cur ->
    keptBlocks (splitGo blankLine (w ++ y) skip cur)
    = keptBlocks (splitGo blankLine y 0 []).
Proof.
  induction 1 as [|c w Hc Hw IH]; intros y skip cur Hy Hs Hcur.
  - cbn [List.length] in Hs. assert (skip = 0) by lia. subst skip.
    cbn [app]. now apply splitGo_front.
  - cbn [app splitGo]. destruct skip as [|k].
    + destruct (matchSeq blankLine (c :: w ++ y)) as [ps|] eqn:M; cbn [option_map].
      * destruct (blankLine_consumes _ _ M) as (Hall & Hlen & rest & E).
        assert (Hle : List.length (concat ps) <= List.length (c :: w)).
        { destruct y as [|d y].
          - rewrite app_nil_r in E. apply (f_equal (@List.length char)) in E.
            rewrite length_app in E. lia.
          - apply (ws_prefix_length (c :: w) (concat ps) y rest d Hy Hall E). }
        destruct (List.length (concat ps)) as [|n]; [lia|].
        rewrite keptBlocks_cons, keptBlocks_ws by now apply Forall_rev.
        cbn [app]. apply IH; auto. cbn [List.length] in Hle. lia.
      * apply IH; auto with arith.
    + apply IH; auto. cbn [List.length] in Hs. lia.
Qed.

Lemma ws_span (y : jsstring) :
  exists w y0, y = w ++ y0 /\ Forall (fun c => isWhiteSpace c = true) w /\
               match y0 with [] => True | d :: _ => isWhiteSpace d = false end.
Proof.
  induction y as [|c y (w & y0 & -> & Hw & Hy)]; [now exists [], []|].
  destruct (isWhiteSpace c) eqn:Hc.
  - exists (c :: w), y0. repeat split; auto.
  - exists [], (c :: w ++ y0). repeat split; auto.
Qed.

(** The same for any text behind the white space. *)
Lemma splitGo_lead_any (w y : jsstring) (skip : nat) (cur : jsstring) :
  Forall (fun c => isWhiteSpace c = true) w -> skip <= List.length w -> Forall (fun c => isWhiteSpace c = true) cur ->
  keptBlocks (splitGo blankLine (w ++ y) skip cur)
  = keptBlocks (splitGo blankLine y 0 []).
Proof.
  intros Hw Hs Hcur. destruct (ws_span y) as (w' & y0 & -> & Hw' & Hy).
  rewrite app_assoc.
  rewrite (splitGo_lead (w ++ w')), (splitGo_lead w' Hw' y0 0 []); auto with arith.
  - apply Forall_app; auto.
  - rewrite length_app. lia.
Qed.

(** A run of white space that holds a blank line ends the block before
    it. *)
Lemma splitGo_junction (w : jsstring) :
  Forall (fun c => isWhiteSpace c = true) w ->
  forall y cur,
    hasBlankLine w ->
    keptBlocks (splitGo blankLine (w ++ y) 0 cur)
    = keptBlocks [rev cur] ++ keptBlocks (splitGo blankLine y 0 []).
Proof.
  induction 1 as [|c w Hc Hw IH]; intros y cur Hb.
  - destruct Hb as (a & v & b & _ & E). now destruct a.
  - cbn [app splitGo].
    destruct (matchSeq blankLine (c :: w ++ y)) as [ps|] eqn:M; cbn [option_map].
    + destruct (blankLine_consumes _ _ M) as (Hall & Hlen & rest & E).
      destruct (concat ps) as [|x cs] eqn:C; [cbn in Hlen; lia|].
      cbn [List.length]. rewrite keptBlocks_cons. f_equal.
      cbn [app] in E. injection E as _ E.
      destruct (ws_span y) as (w' & y0 & -> & Hw' & Hy).
      rewrite app_assoc.
      rewrite (splitGo_lead (w ++ w')), (splitGo_lead w' Hw' y0 0 []); auto with arith.
      * apply Forall_app; auto.
      * inversion Hall as [|? ? _ Hcs]; subst.
        destruct y0 as [|d y0].
        -- rewrite app_nil_r in E. rewrite E, length_app. lia.
        -- rewrite app_assoc in E.
           apply (ws_prefix_length (w ++ w') cs y0 rest d Hy Hcs E).
    + destruct Hb as (a & v & b & Hv & E). destruct a as [|x a].
      * cbn [app] in E. injection E as -> ->.
        destruct (blankLine_complete v (b ++ y) Hv) as (ps & M').
        rewrite <- app_assoc in M. cbn [app] in M. congruence.
      * cbn [app] in E. injection E as -> ->.
        rewrite IH by (now exists a, v, b). f_equal.
        cbn [rev]. apply keptBlocks_ws_r. now repeat constructor.
Qed.

(** A character that no atom of the pattern accepts hides what follows it
    from the match. *)
Lemma matchRep_local (p : char -> bool) (k : jsstring -> option (list jsstring))
    (d : char) (r1 r2 : jsstring) :
  p d = false ->
  (forall a, k (a ++ d :: r1) = k (a ++ d :: r2)) ->
  forall a l h acc,
    matchRep p k l h acc (a ++ d :: r1) = matchRep p k l h acc (a ++ d :: r2).
Proof.
  intros Hd Hk. induction a as [|c a IH]; intros l h acc; cbn [app matchRep].
  - pose proof (Hk []) as K. cbn [app] in K.
    rewrite Hd. cbn [andb]. now rewrite K.
  - pose proof (Hk (c :: a)) as K. cbn [app] in K.
    rewrite K, IH. reflexivity.
Qed.

Lemma matchSeq_local (r : list atom) (d : char) (r1 r2 : jsstring) :
  Forall (fun a => cls a d = false) r ->
  forall a, matchSeq r (a ++ d :: r1) = matchSeq r (a ++ d :: r2).
Proof.
  induction 1 as [|x r Hx _ IH]; intros a; cbn [matchSeq]; [reflexivity|].
  now apply matchRep_local.
Qed.

Lemma blankLine_local (d : char) (a r1 r2 : jsstring) :
  isWhiteSpace d = false ->
  matchSeq blankLine (a ++ d :: r1) = matchSeq blankLine (a ++ d :: r2).
Proof.
  intros Hd. apply matchSeq_local. unfold blankLine.
  assert (N.eqb LF d = false).
  { destruct (N.eqb_spec LF d) as [<-|]; [discriminate | reflexivity]. }
  repeat constructor; assumption.
Qed.

Lemma ws_or_not (s : jsstring) :
  Forall (fun c => isWhiteSpace c = true) s \/ exists a d r, s = a ++ d :: r /\ isWhiteSpace d = false.
Proof.
  induction s as [|c s [IH|(a & d & r & -> & Hd)]].
  - left. constructor.
  - destruct (isWhiteSpace c) eqn:Hc; [left; now constructor|].
    right. now exists [], c, s.
  - right. now exists (c :: a), d, r.
Qed.

(** The split of a text followed by a blank line and a second text. *)
Lemma splitGo_app (sep y : jsstring) :
  Forall (fun c => isWhiteSpace c = true) sep -> hasBlankLine sep ->
  forall x skip cur,
    skip <= List.length x ->
    keptBlocks (splitGo blankLine (x ++ sep ++ y) skip cur)
    = keptBlocks (splitGo blankLine x skip cur)
      ++ keptBlocks (splitGo blankLine y 0 []).
Proof.
  intros Hsep Hb. induction x as [|c x IH]; intros skip cur Hs.
  - cbn [List.length] in Hs. assert (skip = 0) by lia. subst skip.
    cbn [app splitGo]. now apply splitGo_junction.
  - destruct skip as [|k].
    2:{ cbn [app splitGo]. apply IH. cbn [List.length] in Hs. lia. }
    destruct (ws_or_not (c :: x)) as [Hall|(a & d & r & E & Hd)].
    + rewrite app_assoc, splitGo_junction.
      * now rewrite (splitGo_ws (c :: x) Hall 0 cur).
      * apply Forall_app; auto.
      * apply (hasBlankLine_part sep (c :: x) []) in Hb. now rewrite app_nil_r in Hb.
    + assert (M : matchSeq blankLine (c :: x ++ sep ++ y) = matchSeq blankLine (c :: x)).
      { change (c :: x ++ sep ++ y) with ((c :: x) ++ sep ++ y). rewrite E.
        rewrite <- app_assoc. cbn [app].
        apply blankLine_local; exact Hd. }
      cbn [app splitGo]. rewrite M.
      destruct (matchSeq blankLine (c :: x)) as [ps|] eqn:M'; cbn [option_map].
      * destruct (blankLine_consumes _ _ M') as (_ & Hlen & rest & E').
        destruct (concat ps) as [|z cs] eqn:C; [cbn in Hlen; lia|].
        cbn [List.length].
        rewrite (keptBlocks_cons (rev cur) (splitGo blankLine (x ++ sep ++ y) _ [])).
        rewrite (keptBlocks_cons (rev cur) (splitGo blankLine x _ [])).
        rewrite <- app_assoc. f_equal. apply IH.
        cbn [app] in E'. injection E' as _ ->. rewrite length_app. lia.
      * apply IH. lia.
Qed.

Lemma splitRegex_blankLine (s : jsstring) :
  splitRegex blankLine s = splitGo blankLine s 0 [].
Proof. now destruct s. Qed.

(** White space behind a text does not change its blocks. *)
Lemma splitGo_trail (w : jsstring) :
  Forall (fun c => isWhiteSpace c = true) w ->
  forall x skip cur,
    skip <= List.length x ->
    keptBlocks (splitGo blankLine (x ++ w) skip cur)
    = keptBlocks (splitGo blankLine x skip cur).
Proof.
  intros Hw. induction x as [|c x IH]; intros skip cur Hs.
  - cbn [app]. rewrite (splitGo_ws w Hw skip cur). cbn [List.length] in Hs.
    assert (skip = 0) by lia. now subst skip.
  - destruct skip as [|k].
    2:{ cbn [app splitGo]. apply IH. cbn [List.length] in Hs. lia. }
    destruct (ws_or_not (c :: x)) as [Hall|(a & d & r & E & Hd)].
    + rewrite (splitGo_ws (c :: x) Hall 0 cur).
      apply splitGo_ws. apply Forall_app; auto.
    + assert (M : matchSeq blankLine (c :: x ++ w) = matchSeq blankLine (c :: x)).
      { change (c :: x ++ w) with ((c :: x) ++ w). rewrite E.
        rewrite <- app_assoc. cbn [app].
        apply blankLine_local; exact Hd. }
      cbn [app splitGo]. rewrite M.
      destruct (matchSeq blankLine (c :: x)) as [ps|] eqn:M'; cbn [option_map].
      * destruct (blankLine_consumes _ _ M') as (_ & Hlen & rest & E').
        destruct (concat ps) as [|z cs] eqn:C; [cbn in Hlen; lia|].
        cbn [List.length].
        rewrite (keptBlocks_cons (rev cur) (splitGo blankLine (x ++ w) _ [])).
        rewrite (keptBlocks_cons (rev cur) (splitGo blankLine x _ [])).
        f_equal. apply IH.
        cbn [app] in E'. injection E' as _ ->. rewrite length_app. lia.
      * apply IH. lia.
Qed.

(** X23.  Two logs joined by a blank line, that is by white space that holds
    a line feed, white space and a line feed, have the blocks of the first
    followed by the blocks of the second. *)
Theorem splitIntoBlocks_joined :
  forall x sep y,
    Forall (fun c => isWhiteSpace c = true) sep -> hasBlankLine sep ->
    splitIntoBlocks (x ++ sep ++ y) = splitIntoBlocks x ++ splitIntoBlocks y.
Proof.
  intros x sep y Hsep Hb. unfold splitIntoBlocks. rewrite !splitRegex_blankLine.
  apply (splitGo_app sep y Hsep Hb x 0 []). lia.
Qed.

Lemma splitIntoBlocks_joined_witness :
  splitIntoBlocks (lit "10.0.0.1 - a" ++ [13; 10; 13; 10]%N ++ lit "8.8.8.8 - b")
  = splitIntoBlocks (lit "10.0.0.1 - a") ++ splitIntoBlocks (lit "8.8.8.8 - b").
Proof.
  apply (splitIntoBlocks_joined (lit "10.0.0.1 - a") [13; 10; 13; 10]%N
                                (lit "8.8.8.8 - b")).
  - repeat constructor.
  - exists [13%N], [13%N], []. split; [repeat constructor | reflexivity].
Defined.

(** X24.  White space before and behind a log does not change its blocks. *)
Theorem splitIntoBlocks_ignores_margins :
  forall before content behind,
    Forall (fun c => isWhiteSpace c = true) before ->
    Forall (fun c => isWhiteSpace c = true) behind ->
    splitIntoBlocks (before ++ content ++ behind) = splitIntoBlocks content.
Proof.
  intros w x w' Hw Hw'. unfold splitIntoBlocks. rewrite !splitRegex_blankLine.
  change (keptBlocks (splitGo blankLine (w ++ x ++ w') 0 [])
          = keptBlocks (splitGo blankLine x 0 [])).
  rewrite (splitGo_lead_any w (x ++ w') 0 [] Hw) by (auto with arith).
  apply (splitGo_trail w' Hw' x 0 []). lia.
Qed.

Lemma splitIntoBlocks_ignores_margins_witness :
  splitIntoBlocks ([10; 10; 32]%N ++ lit "10.0.0.1 - a" ++ [13; 10; 10; 9]%N)
  = splitIntoBlocks (lit "10.0.0.1 - a").
Proof.
  apply (splitIntoBlocks_ignores_margins [10; 10; 32]%N (lit "10.0.0.1 - a")
                                         [13; 10; 10; 9]%N).
  - repeat constructor.
  - repeat constructor.
Defined.

(** ** The average interval and the span of a group *)

Lemma last_In (a : Z) (ts : list Z) : In (last ts a) (a :: ts).
Proof.
  revert a; induction ts as [|b ts IH]; intros a; [now left|].
  rewrite last_cons_default. right. apply IH.
Qed.

(** X22.  The average interval of a group depends only on its earliest and
    latest request and on the number of requests: with valid dates and at
    least four requests, [avgInterval] is the time from the earliest to the
    latest request, divided by the number of intervals and by 1000,
    rounded.  The span is below 2^52 ms, where the binary64 arithmetic of
    the code gives the rounded quotient of the exact one. *)
Theorem avgInterval_from_span :
  forall u rs lo hi,
    Forall validDate rs -> 4 <= List.length rs ->
    In lo (map timeOf rs) -> In hi (map timeOf rs) ->
    (forall t, In t (map timeOf rs) -> (lo <= t <= hi)%Z) ->
    (hi - lo < 2 ^ 52)%Z ->
    avgInterval (detectSuspiciousBehavior_entry u rs)
    = Some (Int (Qfloor (inject_Z (hi - lo)
                         / inject_Z (Z.of_nat (List.length rs - 1))
                         / inject_Z 1000 + (1 # 2)))).
Proof.
  intros u rs lo hi Hv H4 Hlo Hhi Hb _.
  assert (Hv' : Forall validDate (sortRequests rs))
    by (apply (Permutation_Forall (Permutation_sym (sortRequests_perm _))); assumption).
  pose proof (intervalsOf_valid _ Hv') as E.
  assert (Hlen : List.length (map timeOf (sortRequests rs)) = List.length rs)
    by now rewrite length_map, sortRequests_length.
  assert (Hn : 2 < List.length (diffs (map timeOf (sortRequests rs))))
    by (rewrite diffs_length; lia).
  destruct (entry_regularity u rs _ E Hn) as (b & _ & ->). cbn [avgInterval].
  do 2 f_equal. unfold roundedSeconds, meanInterval. rewrite diffs_length, Hlen.
  assert (P : Permutation (map timeOf (sortRequests rs)) (map timeOf rs))
    by (apply Permutation_map, sortRequests_perm).
  pose proof (sorted_times rs Hv) as Hs.
  destruct (map timeOf (sortRequests rs)) as [|t0 ts] eqn:Et; [cbn in Hlen; lia|].
  rewrite diffs_sum.
  assert (In0 : In t0 (map timeOf rs)) by (apply (Permutation_in _ P); now left).
  assert (InL : In (last ts t0) (map timeOf rs))
    by (apply (Permutation_in _ P); apply last_In).
  pose proof (sorted_bounds t0 ts Hs lo (Permutation_in _ (Permutation_sym P) Hlo)) as B1.
  pose proof (sorted_bounds t0 ts Hs hi (Permutation_in _ (Permutation_sym P) Hhi)) as B2.
  pose proof (Hb _ In0) as B3. pose proof (Hb _ InL) as B4.
  assert (t0 = lo) by lia. assert (last ts t0 = hi) by lia. subst.
  replace (Z.of_nat (pred (List.length rs))) with (Z.of_nat (List.length rs - 1)) by lia.
  reflexivity.
Qed.

Lemma avgInterval_from_span_witness :
  avgInterval (detectSuspiciousBehavior_entry (lit "eve")
                 [at_ms 41000 "d"; at_ms 0 "a"; at_ms 40000 "c"; at_ms 1000 "b"])
  = Some (Int (Qfloor (inject_Z (41000 - 0) / inject_Z (Z.of_nat (4 - 1))
                       / inject_Z 1000 + (1 # 2)))).
Proof.
  apply (avgInterval_from_span (lit "eve")
           [at_ms 41000 "d"; at_ms 0 "a"; at_ms 40000 "c"; at_ms 1000 "b"] 0 41000).
  - repeat constructor; eexists; reflexivity.
  - cbn; lia.
  - cbn; tauto.
  - cbn; tauto.
  - cbn. intros t [<-|[<-|[<-|[<-|[]]]]]; lia.
  - reflexivity.
Defined.

(** ** The regularity analysis, over the times in ascending order *)

(** C7.  When a group has more than two intervals, that is at least four
    requests, its intervals are the successive differences of its times
    taken in ascending order, in whatever order the requests were logged.
    The record is suspicious exactly when more than 0.7 of these intervals
    differ from their mean by less than 2000 ms and the mean is below
    15000 ms; the reason is then "Repeated API hits every
    {round(mean/1000)}s" and "Normal activity" otherwise.  A group with an
    invalid date has no finite mean and is not suspicious.  Four requests
    at 0 s, 5 s, 10 s and 15 s are suspicious with the reason "Repeated API
    hits every 5s", and so are they when the request at 5 s is logged
    first. *)
Theorem regularity_analysis :
  (forall (u : jsstring) (rs : list Request),
      3 < List.length rs ->
      let r := detectSuspiciousBehavior_entry u rs in
      (forall ts,
          Forall validDate rs ->
          Permutation ts (map timeOf rs) -> Sorted Z.le ts ->
          (isSuspicious r = true <-> regularPolling (diffs ts)) /\
          reason r =
          if isSuspicious r
          then lit "Repeated API hits every "
               ++ toString (Int (roundedSeconds (diffs ts))) ++ lit "s"
          else lit "Normal activity") /\
      ((exists x, In x rs /\ timestamp x = InvalidDate) ->
       isSuspicious r = false /\ reason r = lit "Normal activity"))
  /\ detectSuspiciousBehavior [(lit "bob", polling)]
     = [ {| userId := lit "bob"; requestCount := 4; isSuspicious := true;
            reason := lit "Repeated API hits every 5s";
            avgInterval := Some (Int 5) |} ]
  /\ detectSuspiciousBehavior [(lit "bob", shuffledPolling)]
     = [ {| userId := lit "bob"; requestCount := 4; isSuspicious := true;
            reason := lit "Repeated API hits every 5s";
            avgInterval := Some (Int 5) |} ].
Proof.
  split; [|split; reflexivity].
  intros u rs Hn r. split.
  - intros ts Hv P Hs. subst r.
    assert (Hs' : StronglySorted Z.le ts)
      by (apply Sorted_StronglySorted; [intros x y z; apply Z.le_trans | exact Hs]).
    assert (E : ts = map timeOf (sortRequests rs)).
    { apply sorted_unique; [exact Hs' | now apply sorted_times |].
      rewrite P. apply Permutation_sym, Permutation_map, sortRequests_perm. }
    assert (Hv' : Forall validDate (sortRequests rs))
      by (apply (Permutation_Forall (Permutation_sym (sortRequests_perm _))); assumption).
    pose proof (intervalsOf_valid _ Hv') as Hiv. rewrite <- E in Hiv.
    assert (Hl : 2 < List.length (diffs ts)).
    { rewrite diffs_length, (Permutation_length P), length_map. lia. }
    destruct (entry_regularity u rs (diffs ts) Hiv Hl) as (b & Hb & ->).
    cbn [isSuspicious reason]. split; [exact Hb | reflexivity].
  - intros Hinv. subst r.
    assert (Hn' : 2 < List.length (intervalsOf (sortRequests rs)))
      by (rewrite intervals_of_sorted_length; lia).
    assert (Hnan : In NaN (intervalsOf (sortRequests rs))).
    { apply (invalid_date_interval rs); [apply sortRequests_perm | exact Hinv |].
      lia. }
    rewrite (entry_invalid u rs Hn' Hnan). split; reflexivity.
Qed.

Lemma regularity_analysis_witness :
  let r := detectSuspiciousBehavior_entry (lit "bob") shuffledPolling in
  (isSuspicious r = true <-> regularPolling (diffs [0; 5000; 10000; 15000]%Z)) /\
  reason r =
  if isSuspicious r
  then lit "Repeated API hits every "
       ++ toString (Int (roundedSeconds (diffs [0; 5000; 10000; 15000]%Z))) ++ lit "s"
  else lit "Normal activity".
Proof.
  refine (proj1 (proj1 regularity_analysis (lit "bob") shuffledPolling _)
                [0; 5000; 10000; 15000]%Z _ _ _).
  - vm_compute. lia.
  - repeat constructor; eexists; reflexivity.
  - cbn. apply perm_swap.
  - repeat constructor; lia.
Defined.
